(** * Skeletal pose and retargeting core of mesh2motion: a shallow embedding

    The development follows the TypeScript sources of the retargeting core:
    [Vec3], [Quat], [Transform], [Joint], [Pose], the two chain operators,
    the name heuristics of [BoneAutoMapper], the tables of
    [HumanChainConfig] and the two mappers [MixamoMapper] and
    [Mesh2MotionMapper]; of three.js it has the bones that a pose is built
    from and written to.

    Conventions of the embedding.
    - A JavaScript [number] that carries a coordinate is a real number:
      the arithmetic is the exact one, without rounding, NaN or infinities.
      Every concrete input used below is made of small dyadic rationals, on
      which binary64 arithmetic is exact as well.
    - Where the sources compare a number that they have computed with 0
      ([dot === 0], [len > 0], [mag !== 0]), the functions on the reals
      compare the exact number.  The binary64 number can be 0 where the
      exact one is not (the squares underflow), or infinite (they
      overflow).  The module [Binary64] has these functions on binary64
      numbers; a property that rests on such a test is stated for exact
      arithmetic, and says where the run-time test parts from it.
    - A JavaScript [number] that carries an array index is an integer of [Z];
      reading an array outside of its bounds yields [undefined].
    - A method that mutates its receiver is a function from the receiver's
      old value (first argument, [this]) to its new value.  A [from*] method
      that overwrites every component of the receiver takes no [this].
    - Objects that are shared by reference (poses) live in an explicit heap.
      A joint owns its two transforms ([fromBone] and [clone] fill fresh
      ones), so that joints are values.
    - An operation that can throw, log or loop returns a [completion] and
      the lines it wrote to the console. *)

From Stdlib Require Import Floats.
From Stdlib Require Import String Ascii Bool ZArith List Reals Lra Lia Psatz.
From Stdlib Require Import DecimalString.
Import ListNotations.

Set Implicit Arguments.

(** ** JavaScript runtime *)

Inductive JsError : Type :=
| TypeError.

Inductive LogEntry : Type :=
| ConsoleLog (msg : string)
| ConsoleWarn (msg : string)
| ConsoleError (msg : string).

(** How a call ends: it returns a value, throws, or never returns. *)
Inductive completion (A : Type) : Type :=
| Returns (a : A)
| Throws (e : JsError)
| Diverges.

Arguments Throws {A} e.
Arguments Diverges {A}.

(** A reference read from a JavaScript variable of type [T | null]: at run
    time it may also hold [undefined]. *)
Inductive JsRef (A : Type) : Type :=
| JsNull
| JsUndefined
| JsObj (a : A).

Arguments JsNull {A}.
Arguments JsUndefined {A}.

(** [arr[i]] for a numeric index: the element, or [undefined] ([None]). *)
Definition array_get {A : Type} (arr : list A) (i : Z) : option A :=
  if (i <? 0)%Z then None else nth_error arr (Z.to_nat i).

(** [arr[i] = v] restricted to an existing slot. *)
Fixpoint array_set {A : Type} (arr : list A) (i : nat) (v : A) : list A :=
  match arr, i with
  | [], _ => []
  | _ :: tl, O => v :: tl
  | hd :: tl, S i' => hd :: array_set tl i' v
  end.

(** ** Data model *)

Open Scope R_scope.

Record Vec3 : Type := mkVec3 { vx : R; vy : R; vz : R }.

Record Quat : Type := mkQuat { qx : R; qy : R; qz : R; qw : R }.

Record Transform : Type := mkTransform { rot : Quat; pos : Vec3; scl : Vec3 }.

(** ** Vec3.ts *)

Module Vec3.

(** [new Vec3()] *)
Definition zero : Vec3 := mkVec3 0 0 0.

Definition len (this : Vec3) : R :=
  sqrt (vx this ^ 2 + vy this ^ 2 + vz this ^ 2).

Definition lenSqr (this : Vec3) : R :=
  vx this ^ 2 + vy this ^ 2 + vz this ^ 2.

Definition fromSub (a b : Vec3) : Vec3 :=
  mkVec3 (vx a - vx b) (vy a - vy b) (vz a - vz b).

Definition fromCross (a b : Vec3) : Vec3 :=
  let ax := vx a in let ay := vy a in let az := vz a in
  let bx := vx b in let by_ := vy b in let bz := vz b in
  mkVec3 (ay * bz - az * by_) (az * bx - ax * bz) (ax * by_ - ay * bx).

(** [fromQuat (quat, vec = new Vec3(0, 0, 1))]: [None] is the omitted
    (or [undefined]) second argument. *)
Definition fromQuat (quat : Quat) (vec : option Vec3) : Vec3 :=
  let vec := match vec with Some v => v | None => mkVec3 0 0 1 end in
  let qx := qx quat in let qy := qy quat in
  let qz := qz quat in let qw := qw quat in
  let vx := vx vec in let vy := vy vec in let vz := vz vec in
  let x1 := (qy * vz) - (qz * vy) in
  let y1 := (qz * vx) - (qx * vz) in
  let z1 := (qx * vy) - (qy * vx) in
  let x2 := (qw * x1) + (qy * z1) - (qz * y1) in
  let y2 := (qw * y1) + (qz * x1) - (qx * z1) in
  let z2 := (qw * z1) + (qx * y1) - (qy * x1) in
  mkVec3 (vx + (2 * x2)) (vy + (2 * y2)) (vz + (2 * z2)).

(** [norm ()].  The test [mag !== 0] is on the exact length here, and on
    the computed length in [Binary64.Vec3.norm]. *)
Definition norm (this : Vec3) : Vec3 :=
  let mag := sqrt (vx this ^ 2 + vy this ^ 2 + vz this ^ 2) in
  if Req_dec_T mag 0 then this
  else
    let mag := 1 / mag in
    mkVec3 (vx this * mag) (vy this * mag) (vz this * mag).

Definition negate (this : Vec3) : Vec3 :=
  mkVec3 (- vx this) (- vy this) (- vz this).

Definition transformQuat (this : Vec3) (q : Quat) : Vec3 :=
  let qx := qx q in let qy := qy q in let qz := qz q in let qw := qw q in
  let vx := vx this in let vy := vy this in let vz := vz this in
  let x1 := qy * vz - qz * vy in
  let y1 := qz * vx - qx * vz in
  let z1 := qx * vy - qy * vx in
  let x2 := qw * x1 + qy * z1 - qz * y1 in
  let y2 := qw * y1 + qz * x1 - qx * z1 in
  let z2 := qw * z1 + qx * y1 - qy * x1 in
  mkVec3 (vx + 2 * x2) (vy + 2 * y2) (vz + 2 * z2).

(** [static dot] *)
Definition dot (a b : Vec3) : R :=
  vx a * vx b + vy a * vy b + vz a * vz b.

(** [static cross (a, b, out)]: every component of [out] is overwritten. *)
Definition cross (a b : Vec3) : Vec3 :=
  let ax := vx a in let ay := vy a in let az := vz a in
  let bx := vx b in let by_ := vy b in let bz := vz b in
  mkVec3 (ay * bz - az * by_) (az * bx - ax * bz) (ax * by_ - ay * bx).

(** [fromNorm (v)]: the receiver is left as it is when [v] has length 0,
    the exact length here and the computed one in
    [Binary64.Vec3.fromNorm]. *)
Definition fromNorm (this v : Vec3) : Vec3 :=
  let mag := sqrt (vx v ^ 2 + vy v ^ 2 + vz v ^ 2) in
  if Req_dec_T mag 0 then this
  else
    let mag := 1 / mag in
    mkVec3 (vx v * mag) (vy v * mag) (vz v * mag).

(** [fromPlaneSnap (pnt, planeNorm, planePos = new Vec3(0, 0, 0))]: a null
    [pnt] ([None]) stands for the receiver. *)
Definition fromPlaneSnap (this : Vec3) (pnt : option Vec3) (planeNorm : Vec3)
  (planePos : option Vec3) : Vec3 :=
  let planePos := match planePos with Some p => p | None => mkVec3 0 0 0 end in
  let pnt := match pnt with Some p => p | None => this end in
  let dot :=
    (vx pnt - vx planePos) * vx planeNorm +
    (vy pnt - vy planePos) * vy planeNorm +
    (vz pnt - vz planePos) * vz planeNorm in
  mkVec3 (vx pnt - dot * vx planeNorm)
         (vy pnt - dot * vy planeNorm)
         (vz pnt - dot * vz planeNorm).

(** [axisAngle (axis, rad)], the rotation formula of Rodrigues. *)
Definition axisAngle (this axis : Vec3) (rad : R) : Vec3 :=
  let cp := fromCross axis this in
  let dot := dot axis this in
  let s := sin rad in
  let c := cos rad in
  let ci := 1 - c in
  mkVec3 (vx this * c + vx cp * s + vx axis * dot * ci)
         (vy this * c + vy cp * s + vy axis * dot * ci)
         (vz this * c + vz cp * s + vz axis * dot * ci).

End Vec3.

(** ** Quat.ts *)

Module Quat.

(** [new Quat()] and [identity ()] *)
Definition identity : Quat := mkQuat 0 0 0 1.

Definition mul (this q : Quat) : Quat :=
  let ax := qx this in let ay := qy this in
  let az := qz this in let aw := qw this in
  let bx := qx q in let by_ := qy q in let bz := qz q in let bw := qw q in
  mkQuat (ax * bw + aw * bx + ay * bz - az * by_)
         (ay * bw + aw * by_ + az * bx - ax * bz)
         (az * bw + aw * bz + ax * by_ - ay * bx)
         (aw * bw - ax * bx - ay * by_ - az * bz).

Definition pmul (this q : Quat) : Quat :=
  let ax := qx q in let ay := qy q in let az := qz q in let aw := qw q in
  let bx := qx this in let by_ := qy this in
  let bz := qz this in let bw := qw this in
  mkQuat (ax * bw + aw * bx + ay * bz - az * by_)
         (ay * bw + aw * by_ + az * bx - ax * bz)
         (az * bw + aw * bz + ax * by_ - ay * bx)
         (aw * bw - ax * bx - ay * by_ - az * bz).

(** [norm ()].  The test [len > 0] is on the exact sum of squares here,
    and on the computed sum in [Binary64.Quat.norm]. *)
Definition norm (this : Quat) : Quat :=
  let len := (qx this ^ 2) + (qy this ^ 2) + (qz this ^ 2) + (qw this ^ 2) in
  if Rlt_dec 0 len then
    let len := 1 / sqrt len in
    mkQuat (qx this * len) (qy this * len) (qz this * len) (qw this * len)
  else this.

(** [invert ()]: the new value of the receiver and the console output.
    The test [dot === 0] is on the exact sum of squares here, and on the
    computed sum in [Binary64.Quat.invert]. *)
Definition invert (this : Quat) : Quat * list LogEntry :=
  let a0 := qx this in let a1 := qy this in
  let a2 := qz this in let a3 := qw this in
  let dot := (a0 * a0) + (a1 * a1) + (a2 * a2) + (a3 * a3) in
  if Req_dec_T dot 0 then
    (mkQuat 0 0 0 0,
     [ConsoleWarn "Quat.invert(): zero length quaternion, cannot invert."])
  else
    let inverted_dot_product := 1 / dot in
    (mkQuat (- a0 * inverted_dot_product) (- a1 * inverted_dot_product)
            (- a2 * inverted_dot_product) (a3 * inverted_dot_product), []).

(** [pmulInvert (q)].  The test [dot === 0] is on the exact sum of
    squares here, and on the computed sum in [Binary64.Quat.pmulInvert]. *)
Definition pmulInvert (this q : Quat) : Quat :=
  let ax := qx q in let ay := qy q in let az := qz q in let aw := qw q in
  let dot := ax * ax + ay * ay + az * az + aw * aw in
  let a :=
    if Req_dec_T dot 0 then mkQuat 0 0 0 0
    else
      let dot_inv := 1 / dot in
      mkQuat (- ax * dot_inv) (- ay * dot_inv) (- az * dot_inv) (aw * dot_inv) in
  let ax := qx a in let ay := qy a in let az := qz a in let aw := qw a in
  let bx := qx this in let by_ := qy this in
  let bz := qz this in let bw := qw this in
  mkQuat (ax * bw + aw * bx + ay * bz - az * by_)
         (ay * bw + aw * by_ + az * bx - ax * bz)
         (az * bw + aw * bz + ax * by_ - ay * bx)
         (aw * bw - ax * bx - ay * by_ - az * bz).

(** [fromAxisAngle (axis, rad)] *)
Definition fromAxisAngle (axis : Vec3) (rad : R) : Quat :=
  let half := rad * 0.5 in
  let s := sin half in
  mkQuat (vx axis * s) (vy axis * s) (vz axis * s) (cos half).

(** [fromSwing (a, b)] *)
Definition fromSwing (a b : Vec3) : Quat :=
  let dot := Vec3.dot a b in
  if Rlt_dec dot (-0.999999) then
    let tmp := Vec3.fromCross (mkVec3 (-1) 0 0) a in
    let tmp :=
      if Rlt_dec (Vec3.len tmp) 0.000001
      then Vec3.fromCross (mkVec3 0 1 0) a
      else tmp in
    fromAxisAngle (Vec3.norm tmp) PI
  else if Rlt_dec 0.999999 dot then
    mkQuat 0 0 0 1
  else
    let v := Vec3.cross a b in
    norm (mkQuat (vx v) (vy v) (vz v) (1 + dot)).

Definition dotNegate (this chk : Quat) : Quat :=
  let dot := qx this * qx chk + qy this * qy chk +
             qz this * qz chk + qw this * qw chk in
  if Rlt_dec dot 0
  then mkQuat (- qx this) (- qy this) (- qz this) (- qw this)
  else this.

Definition pmulAxisAngle (this : Quat) (axis : Vec3) (rad : R) : Quat :=
  let half := rad * 0.5 in
  let s := sin half in
  let ax := vx axis * s in
  let ay := vy axis * s in
  let az := vz axis * s in
  let aw := cos half in
  let bx := qx this in let by_ := qy this in
  let bz := qz this in let bw := qw this in
  mkQuat ((ax * bw) + (aw * bx) + (ay * bz) - (az * by_))
         ((ay * bw) + (aw * by_) + (az * bx) - (ax * bz))
         ((az * bw) + (aw * bz) + (ax * by_) - (ay * bx))
         ((aw * bw) - (ax * bx) - (ay * by_) - (az * bz)).

Definition pmulSwing (this : Quat) (a b : Vec3) : Quat :=
  let dot := Vec3.dot a b in
  if Rlt_dec dot (-0.999999) then
    let tmp := Vec3.fromCross (mkVec3 (-1) 0 0) a in
    let tmp :=
      if Rlt_dec (Vec3.len tmp) 0.000001
      then Vec3.fromCross (mkVec3 0 1 0) a
      else tmp in
    pmulAxisAngle this (Vec3.norm tmp) PI
  else if Rlt_dec 0.999999 dot then this
  else
    let v := Vec3.cross a b in
    let a4 := mkQuat (vx v) (vy v) (vz v) (1 + dot) in
    let len := qx a4 ^ 2 + qy a4 ^ 2 + qz a4 ^ 2 + qw a4 ^ 2 in
    let a4 :=
      if Rlt_dec 0 len then
        let len := 1 / sqrt len in
        mkQuat (qx a4 * len) (qy a4 * len) (qz a4 * len) (qw a4 * len)
      else a4 in
    let dot2 := qx this * qx a4 + qy this * qy a4 +
                qz this * qz a4 + qw this * qw a4 in
    let a4 :=
      if Rlt_dec dot2 0
      then mkQuat (- qx a4) (- qy a4) (- qz a4) (- qw a4)
      else a4 in
    let ax := qx a4 in let ay := qy a4 in let az := qz a4 in let aw := qw a4 in
    let bx := qx this in let by_ := qy this in
    let bz := qz this in let bw := qw this in
    mkQuat (ax * bw + aw * bx + ay * bz - az * by_)
           (ay * bw + aw * by_ + az * bx - ax * bz)
           (az * bw + aw * bz + ax * by_ - ay * bx)
           (aw * bw - ax * bx - ay * by_ - az * bz).

(** [fromMul (a, b)] *)
Definition fromMul (a b : Quat) : Quat :=
  let ax := qx a in let ay := qy a in let az := qz a in let aw := qw a in
  let bx := qx b in let by_ := qy b in let bz := qz b in let bw := qw b in
  mkQuat (ax * bw + aw * bx + ay * bz - az * by_)
         (ay * bw + aw * by_ + az * bx - ax * bz)
         (az * bw + aw * bz + ax * by_ - ay * bx)
         (aw * bw - ax * bx - ay * by_ - az * bz).

(** [fromInvert (q)], with the test of [invert]. *)
Definition fromInvert (q : Quat) : Quat :=
  let a0 := qx q in let a1 := qy q in let a2 := qz q in let a3 := qw q in
  let dot := a0 * a0 + a1 * a1 + a2 * a2 + a3 * a3 in
  if Req_dec_T dot 0 then mkQuat 0 0 0 0
  else
    let inverted_dot_product := 1 / dot in
    mkQuat (- a0 * inverted_dot_product) (- a1 * inverted_dot_product)
           (- a2 * inverted_dot_product) (a3 * inverted_dot_product).

Definition rotX (this : Quat) (rad : R) : Quat :=
  let rad := rad * 0.5 in
  let ax := qx this in let ay := qy this in
  let az := qz this in let aw := qw this in
  let bx := sin rad in let bw := cos rad in
  mkQuat (ax * bw + aw * bx) (ay * bw + az * bx)
         (az * bw - ay * bx) (aw * bw - ax * bx).

Definition rotY (this : Quat) (rad : R) : Quat :=
  let rad := rad * 0.5 in
  let ax := qx this in let ay := qy this in
  let az := qz this in let aw := qw this in
  let by_ := sin rad in let bw := cos rad in
  mkQuat (ax * bw - az * by_) (ay * bw + aw * by_)
         (az * bw + ax * by_) (aw * bw - ay * by_).

Definition rotZ (this : Quat) (rad : R) : Quat :=
  let rad := rad * 0.5 in
  let ax := qx this in let ay := qy this in
  let az := qz this in let aw := qw this in
  let bz := sin rad in let bw := cos rad in
  mkQuat (ax * bw + ay * bz) (ay * bw - ax * bz)
         (az * bw + aw * bz) (aw * bw - az * bz).

End Quat.

(** ** Transform.ts *)

Module Transform.

(** [new Transform()] *)
Definition identity : Transform :=
  mkTransform (mkQuat 0 0 0 1) Vec3.zero (mkVec3 1 1 1).

(** The file-local helpers [qTransform], [qInvert] and [qMul].  Each reads
    all of its inputs before it writes [out], so [out] may alias an input.
    The test [dot === 0] of [qInvert] is on the exact sum of squares here,
    and on the computed sum in [Binary64.Transform.qInvert]. *)
Definition qTransform (q : Quat) (v : Vec3) : Vec3 :=
  let qx := qx q in let qy := qy q in let qz := qz q in let qw := qw q in
  let vx := vx v in let vy := vy v in let vz := vz v in
  let x1 := qy * vz - qz * vy in
  let y1 := qz * vx - qx * vz in
  let z1 := qx * vy - qy * vx in
  let x2 := qw * x1 + qy * z1 - qz * y1 in
  let y2 := qw * y1 + qz * x1 - qx * z1 in
  let z2 := qw * z1 + qx * y1 - qy * x1 in
  mkVec3 (vx + 2 * x2) (vy + 2 * y2) (vz + 2 * z2).

Definition qInvert (q : Quat) : Quat :=
  let a0 := qx q in let a1 := qy q in let a2 := qz q in let a3 := qw q in
  let dot := a0 * a0 + a1 * a1 + a2 * a2 + a3 * a3 in
  if Req_dec_T dot 0 then mkQuat 0 0 0 0
  else
    let inverse_dot_product := 1 / dot in
    mkQuat (- a0 * inverse_dot_product) (- a1 * inverse_dot_product)
           (- a2 * inverse_dot_product) (a3 * inverse_dot_product).

Definition qMul (a b : Quat) : Quat :=
  let ax := qx a in let ay := qy a in let az := qz a in let aw := qw a in
  let bx := qx b in let by_ := qy b in let bz := qz b in let bw := qw b in
  mkQuat (ax * bw + aw * bx + ay * bz - az * by_)
         (ay * bw + aw * by_ + az * bx - ax * bz)
         (az * bw + aw * bz + ax * by_ - ay * bx)
         (aw * bw - ax * bx - ay * by_ - az * bz).

(** [copy (t)]: the nine components of the receiver become those of [t]. *)
Definition copy (t : Transform) : Transform :=
  mkTransform
    (mkQuat (qx (rot t)) (qy (rot t)) (qz (rot t)) (qw (rot t)))
    (mkVec3 (vx (pos t)) (vy (pos t)) (vz (pos t)))
    (mkVec3 (vx (scl t)) (vy (scl t)) (vz (scl t))).

(** [mul (tran)]: the receiver is the parent, [tran] the child. *)
Definition mul (this tran : Transform) : Transform :=
  let p := mkVec3 (vx (scl this) * vx (pos tran))
                  (vy (scl this) * vy (pos tran))
                  (vz (scl this) * vz (pos tran)) in
  let p := qTransform (rot this) p in
  let pos' := mkVec3 (vx (pos this) + vx p)
                     (vy (pos this) + vy p)
                     (vz (pos this) + vz p) in
  let scl' := mkVec3 (vx (scl this) * vx (scl tran))
                     (vy (scl this) * vy (scl tran))
                     (vz (scl this) * vz (scl tran)) in
  let rot' := qMul (rot this) (rot tran) in
  mkTransform rot' pos' scl'.

(** [pmul (tran)]: the receiver is the child, [tran] the parent. *)
Definition pmul (this tran : Transform) : Transform :=
  let p := mkVec3 (vx (pos this) * vx (scl tran))
                  (vy (pos this) * vy (scl tran))
                  (vz (pos this) * vz (scl tran)) in
  let p := qTransform (rot tran) p in
  let pos' := mkVec3 (vx p + vx (pos tran))
                     (vy p + vy (pos tran))
                     (vz p + vz (pos tran)) in
  let scl' := mkVec3 (vx (scl this) * vx (scl tran))
                     (vy (scl this) * vy (scl tran))
                     (vz (scl this) * vz (scl tran)) in
  let rot' := qMul (rot tran) (rot this) in
  mkTransform rot' pos' scl'.

(** [fromMul (transform_parent, transform_child)] *)
Definition fromMul (transform_parent transform_child : Transform) : Transform :=
  let v := mkVec3 (vx (scl transform_parent) * vx (pos transform_child))
                  (vy (scl transform_parent) * vy (pos transform_child))
                  (vz (scl transform_parent) * vz (pos transform_child)) in
  let v := qTransform (rot transform_parent) v in
  let pos' := mkVec3 (vx (pos transform_parent) + vx v)
                     (vy (pos transform_parent) + vy v)
                     (vz (pos transform_parent) + vz v) in
  let scl' := mkVec3 (vx (scl transform_parent) * vx (scl transform_child))
                     (vy (scl transform_parent) * vy (scl transform_child))
                     (vz (scl transform_parent) * vz (scl transform_child)) in
  let rot' := qMul (rot transform_parent) (rot transform_child) in
  mkTransform rot' pos' scl'.

(** [fromInvert (t)] *)
Definition fromInvert (t : Transform) : Transform :=
  let rot' := qInvert (rot t) in
  let scl' := mkVec3 (1 / vx (scl t)) (1 / vy (scl t)) (1 / vz (scl t)) in
  let p := mkVec3 (- vx (pos t) * vx scl')
                  (- vy (pos t) * vy scl')
                  (- vz (pos t) * vz scl') in
  let pos' := qTransform rot' p in
  mkTransform rot' pos' scl'.

(** [transformVec3 (v, out)]: scale, rotate, then translate. *)
Definition transformVec3 (this : Transform) (v : Vec3) : Vec3 :=
  let px := vx (pos this) in let py := vy (pos this) in
  let pz := vz (pos this) in
  let vx := vx v * vx (scl this) in
  let vy := vy v * vy (scl this) in
  let vz := vz v * vz (scl this) in
  let qx := qx (rot this) in let qy := qy (rot this) in
  let qz := qz (rot this) in let qw := qw (rot this) in
  let x1 := qy * vz - qz * vy in
  let y1 := qz * vx - qx * vz in
  let z1 := qx * vy - qy * vx in
  let x2 := qw * x1 + qy * z1 - qz * y1 in
  let y2 := qw * y1 + qz * x1 - qx * z1 in
  let z2 := qw * z1 + qx * y1 - qy * x1 in
  mkVec3 ((vx + 2 * x2) + px) ((vy + 2 * y2) + py) ((vz + 2 * z2) + pz).

(** [transformVec3Rev (v, out)]: translate, rotate, then scale. *)
Definition transformVec3Rev (this : Transform) (v : Vec3) : Vec3 :=
  let sx := vx (scl this) in let sy := vy (scl this) in
  let sz := vz (scl this) in
  let vx := vx v + vx (pos this) in
  let vy := vy v + vy (pos this) in
  let vz := vz v + vz (pos this) in
  let qx := qx (rot this) in let qy := qy (rot this) in
  let qz := qz (rot this) in let qw := qw (rot this) in
  let x1 := qy * vz - qz * vy in
  let y1 := qz * vx - qx * vz in
  let z1 := qx * vy - qy * vx in
  let x2 := qw * x1 + qy * z1 - qz * y1 in
  let y2 := qw * y1 + qz * x1 - qx * z1 in
  let z2 := qw * z1 + qx * y1 - qy * x1 in
  mkVec3 ((vx + 2 * x2) * sx) ((vy + 2 * y2) * sy) ((vz + 2 * z2) * sz).

(** [toLocalPos (wp, out)] *)
Definition toLocalPos (this : Transform) (wp : Vec3) : Vec3 :=
  let qi := qInvert (rot this) in
  let si := mkVec3 (1 / vx (scl this)) (1 / vy (scl this))
                   (1 / vz (scl this)) in
  let pi := mkVec3 (- vx (pos this) * vx si) (- vy (pos this) * vy si)
                   (- vz (pos this) * vz si) in
  let pi := qTransform qi pi in
  let p := mkVec3 (vx si * vx wp) (vy si * vy wp) (vz si * vz wp) in
  let p := qTransform qi p in
  mkVec3 (vx pi + vx p) (vy pi + vy p) (vz pi + vz p).

(** [toLocalRot (wq, out)] *)
Definition toLocalRot (this : Transform) (wq : Quat) : Quat :=
  qMul (qInvert (rot this)) wq.

End Transform.

(** ** The tests against 0 on binary64 numbers

    [Vec3.norm], [Vec3.fromNorm], [Quat.norm], [Quat.invert],
    [Quat.pmulInvert] and the helper [qInvert] of [Transform.ts] branch on
    a sum of squares that they have computed.  Here they are on the
    numbers of the run time: the binary64 numbers of IEEE 754 with
    rounding to nearest, which are the primitive floating-point numbers of
    [PrimFloat].  [===] and [>] are the comparisons of IEEE 754, for which
    [-0] equals [0] and NaN compares with nothing.  The vectors and
    quaternions are arrays of numbers. *)

Module Binary64.

Record Vec3 : Type := mkVec3 { vx : float; vy : float; vz : float }.

Record Quat : Type := mkQuat { qx : float; qy : float; qz : float; qw : float }.

Record Transform : Type := mkTransform { rot : Quat; pos : Vec3; scl : Vec3 }.

(** [x ** 2], taken as the rounded product [x * x].  The numbers that
    are squared below are powers of 2, whose square is a power of 2, 0
    or infinite. *)
Definition sq (x : float) : float := (x * x)%float.

Module Vec3.

Definition norm (this : Vec3) : Vec3 :=
  let mag := PrimFloat.sqrt (sq (vx this) + sq (vy this) + sq (vz this))%float in
  if negb (mag =? 0)%float then
    let mag := (1 / mag)%float in
    mkVec3 (vx this * mag)%float (vy this * mag)%float (vz this * mag)%float
  else this.

Definition fromNorm (this v : Vec3) : Vec3 :=
  let mag := PrimFloat.sqrt (sq (vx v) + sq (vy v) + sq (vz v))%float in
  if (mag =? 0)%float then this
  else
    let mag := (1 / mag)%float in
    mkVec3 (vx v * mag)%float (vy v * mag)%float (vz v * mag)%float.

End Vec3.

Module Quat.

Definition pmul (this q : Quat) : Quat :=
  let ax := qx q in let ay := qy q in let az := qz q in let aw := qw q in
  let bx := qx this in let by_ := qy this in
  let bz := qz this in let bw := qw this in
  mkQuat (ax * bw + aw * bx + ay * bz - az * by_)%float
         (ay * bw + aw * by_ + az * bx - ax * bz)%float
         (az * bw + aw * bz + ax * by_ - ay * bx)%float
         (aw * bw - ax * bx - ay * by_ - az * bz)%float.

Definition norm (this : Quat) : Quat :=
  let len :=
    (sq (qx this) + sq (qy this) + sq (qz this) + sq (qw this))%float in
  if (0 <? len)%float then
    let len := (1 / PrimFloat.sqrt len)%float in
    mkQuat (qx this * len)%float (qy this * len)%float
           (qz this * len)%float (qw this * len)%float
  else this.

(** [invert ()]: the new value of the receiver and the console output. *)
Definition invert (this : Quat) : Quat * list LogEntry :=
  let a0 := qx this in let a1 := qy this in
  let a2 := qz this in let a3 := qw this in
  let dot := ((a0 * a0) + (a1 * a1) + (a2 * a2) + (a3 * a3))%float in
  if (dot =? 0)%float then
    (mkQuat 0 0 0 0,
     [ConsoleWarn "Quat.invert(): zero length quaternion, cannot invert."])
  else
    let inverted_dot_product := (1 / dot)%float in
    (mkQuat (- a0 * inverted_dot_product)%float
            (- a1 * inverted_dot_product)%float
            (- a2 * inverted_dot_product)%float
            (a3 * inverted_dot_product)%float, []).

Definition pmulInvert (this q : Quat) : Quat :=
  let ax := qx q in let ay := qy q in let az := qz q in let aw := qw q in
  let dot := (ax * ax + ay * ay + az * az + aw * aw)%float in
  let a :=
    if (dot =? 0)%float then mkQuat 0 0 0 0
    else
      let dot_inv := (1 / dot)%float in
      mkQuat (- ax * dot_inv)%float (- ay * dot_inv)%float
             (- az * dot_inv)%float (aw * dot_inv)%float in
  let ax := qx a in let ay := qy a in let az := qz a in let aw := qw a in
  let bx := qx this in let by_ := qy this in
  let bz := qz this in let bw := qw this in
  mkQuat (ax * bw + aw * bx + ay * bz - az * by_)%float
         (ay * bw + aw * by_ + az * bx - ax * bz)%float
         (az * bw + aw * bz + ax * by_ - ay * bx)%float
         (aw * bw - ax * bx - ay * by_ - az * bz)%float.

End Quat.

Module Transform.

Definition qInvert (q : Quat) : Quat :=
  let a0 := qx q in let a1 := qy q in let a2 := qz q in let a3 := qw q in
  let dot := (a0 * a0 + a1 * a1 + a2 * a2 + a3 * a3)%float in
  if (dot =? 0)%float then mkQuat 0 0 0 0
  else
    let inverse_dot_product := (1 / dot)%float in
    mkQuat (- a0 * inverse_dot_product)%float
           (- a1 * inverse_dot_product)%float
           (- a2 * inverse_dot_product)%float
           (a3 * inverse_dot_product)%float.

Definition qMul (a b : Quat) : Quat :=
  let ax := qx a in let ay := qy a in let az := qz a in let aw := qw a in
  let bx := qx b in let by_ := qy b in let bz := qz b in let bw := qw b in
  mkQuat (ax * bw + aw * bx + ay * bz - az * by_)%float
         (ay * bw + aw * by_ + az * bx - ax * bz)%float
         (az * bw + aw * bz + ax * by_ - ay * bx)%float
         (aw * bw - ax * bx - ay * by_ - az * bz)%float.

(** [toLocalRot (wq, out)] *)
Definition toLocalRot (this : Transform) (wq : Quat) : Quat :=
  qMul (qInvert (rot this)) wq.

End Transform.

End Binary64.

(** ** Calls with effects

    A call on a mutable object is a function from the state of that object
    to a [call]: the state after the call, the console output and the way
    the call ended. *)

Record call (S A : Type) : Type :=
  mkCall { state : S; console : list LogEntry; result : completion A }.

Definition M (S A : Type) : Type := S -> call S A.

Definition ret {S A : Type} (a : A) : M S A :=
  fun s => mkCall s [] (Returns a).

Definition throw {S A : Type} (e : JsError) : M S A :=
  fun s => mkCall s [] (Throws e).

Definition diverge {S A : Type} : M S A :=
  fun s => mkCall s [] Diverges.

Definition log {S : Type} (l : LogEntry) : M S unit :=
  fun s => mkCall s [l] (Returns tt).

Definition get {S : Type} : M S S :=
  fun s => mkCall s [] (Returns s).

Definition put {S : Type} (s' : S) : M S unit :=
  fun _ => mkCall s' [] (Returns tt).

Definition bind {S A B : Type} (m : M S A) (k : A -> M S B) : M S B :=
  fun s =>
    let r := m s in
    match result r with
    | Returns a =>
        let r' := k a (state r) in
        mkCall (state r') (console r ++ console r') (result r')
    | Throws e => mkCall (state r) (console r) (Throws e)
    | Diverges => mkCall (state r) (console r) Diverges
    end.

Declare Scope js_scope.
Delimit Scope js_scope with js.
Notation "x <- m ;; k" := (bind m (fun x => k))
  (at level 61, m at next level, right associativity) : js_scope.
Notation "m ;;; k" := (bind m (fun _ => k))
  (at level 61, right associativity) : js_scope.

(** ** The objects of three.js that the poses read and write

    Of a [THREE.Bone] the sources read [name], [parent], and the arrays of
    [position], [quaternion] and [scale]; of its parent they read [isBone]
    and [name] and, for the parent of the first bone, what
    [getWorldPosition], [getWorldScale] and [getWorldQuaternion] give.  A
    parent that is not a bone has no [isBone]. *)

Module THREE.

Record Object3D : Type := mkObject3D {
  isBone : bool;
  name : string;
  getWorldPosition : Vec3;
  getWorldScale : Vec3;
  getWorldQuaternion : Quat
}.

Record Bone : Type := mkBone {
  bone_name : string;
  position : Vec3;
  quaternion : Quat;
  scale : Vec3;
  parent : option Object3D
}.

Record Skeleton : Type := mkSkeleton { bones : list Bone }.

End THREE.


(** ** Joint.ts *)

Record Joint : Type := mkJoint {
  name : string;
  index : Z;
  pindex : Z;
  isRoot : bool;
  children : list Z;
  local : Transform;
  world : Transform;
  idx : Z
}.

Module Joint.

Definition with_local (j : Joint) (t : Transform) : Joint :=
  mkJoint (name j) (index j) (pindex j) (isRoot j) (children j)
          t (world j) (idx j).

Definition with_world (j : Joint) (t : Transform) : Joint :=
  mkJoint (name j) (index j) (pindex j) (isRoot j) (children j)
          (local j) t (idx j).

(** [clone ()]: [idx] is not copied, the new joint keeps the default [1]. *)
Definition clone (this : Joint) : Joint :=
  mkJoint (name this) (index this) (pindex this) (isRoot this)
          (children this)
          (Transform.copy (local this)) (Transform.copy (world this)) 1%Z.

Definition with_index (j : Joint) (i : Z) : Joint :=
  mkJoint (name j) i (pindex j) (isRoot j) (children j)
          (local j) (world j) (idx j).

Definition with_pindex (j : Joint) (i : Z) : Joint :=
  mkJoint (name j) (index j) i (isRoot j) (children j)
          (local j) (world j) (idx j).

Definition with_children (j : Joint) (c : list Z) : Joint :=
  mkJoint (name j) (index j) (pindex j) (isRoot j) c
          (local j) (world j) (idx j).

(** [new Joint()] *)
Definition new : Joint :=
  mkJoint "" (-1) (-1) false [] Transform.identity Transform.identity 1.

(** [fromBone (b)] *)
Definition fromBone (this : Joint) (b : THREE.Bone) : Joint :=
  let v := THREE.position b in
  let r := THREE.quaternion b in
  let s := THREE.scale b in
  mkJoint (THREE.bone_name b) (index this) (pindex this) (isRoot this)
          (children this)
          (mkTransform (mkQuat (qx r) (qy r) (qz r) (qw r))
                       (mkVec3 (vx v) (vy v) (vz v))
                       (mkVec3 (vx s) (vy s) (vz s)))
          (world this) (idx this).


End Joint.

(** ** Pose.ts *)

(** Poses are objects: a pose refers to the pose it was cloned from, and
    [reset] reads that pose as it is when [reset] runs. *)
Definition PoseRef : Type := nat.

Record Pose : Type := mkPose {
  srcPose : option PoseRef;
  nameIdx : list (string * Z);
  joints : list Joint;
  rootOffset : Transform;
  poseOffset : Transform
}.

Definition Heap : Type := list Pose.

Inductive JointKey : Type :=
| ByIndex (i : Z)
| ByName (s : string).

Module Pose.

Definition with_joints (p : Pose) (js : list Joint) : Pose :=
  mkPose (srcPose p) (nameIdx p) js (rootOffset p) (poseOffset p).

(** [Map.get] on [nameIdx]. *)
Fixpoint nameIdx_get (m : list (string * Z)) (k : string) : option Z :=
  match m with
  | [] => None
  | (k', v) :: tl => if String.eqb k' k then Some v else nameIdx_get tl k
  end.

(** [this.joints[i]] as a run-time value. *)
Definition joints_at (this : Pose) (i : Z) : JsRef Joint :=
  match array_get (joints this) i with
  | Some j => JsObj j
  | None => JsUndefined
  end.

Definition getJoint (this : Pose) (o : JointKey) : JsRef Joint :=
  match o with
  | ByIndex o => joints_at this o
  | ByName o =>
      match nameIdx_get (nameIdx this) o with
      | Some idx => joints_at this idx
      | None => JsNull
      end
  end.

(** The object built by [clone ()] when the receiver is the pose [self]. *)
Definition cloned (self : PoseRef) (this : Pose) : Pose :=
  mkPose (match srcPose this with Some s => Some s | None => Some self end)
         (nameIdx this)
         (map Joint.clone (joints this))
         (Transform.copy (rootOffset this))
         (Transform.copy (poseOffset this)).

(** [clone ()]: the new pose is allocated at the end of the heap.  [None]
    when [self] is not a pose of the heap. *)
Definition clone (h : Heap) (self : PoseRef) : option (Heap * PoseRef) :=
  match nth_error h self with
  | Some this => Some (h ++ [cloned self this], length h)
  | None => None
  end.

(** One round of the loop of [reset]:
    [this.joints[i].local.copy(this.srcPose.joints[i].local)].  The source
    is read from the heap in every round, and the round throws when the
    source has no joint at [i].  The references [self] and [src] are those
    of two poses of the heap. *)
Definition reset_step (self src : PoseRef) (i : nat) : M Heap unit :=
  fun h =>
    match nth_error h self, nth_error h src with
    | Some this, Some s =>
        match nth_error (joints this) i, nth_error (joints s) i with
        | Some j, Some js =>
            let j' := Joint.with_local j (Transform.copy (local js)) in
            let this' := with_joints this (array_set (joints this) i j') in
            mkCall (array_set h self this') [] (Returns tt)
        | _, _ => mkCall h [] (Throws TypeError)
        end
    | _, _ => mkCall h [] (Throws TypeError)
    end.

Fixpoint reset_loop (self src : PoseRef) (i n : nat) : M Heap unit :=
  match n with
  | O => ret tt
  | S n' => (reset_step self src i ;;; reset_loop self src (S i) n')%js
  end.

(** [reset ()], the receiver being the pose [self] of the heap: returns
    [undefined] ([None]) when there is no source and the receiver
    otherwise. *)
Definition reset (self : PoseRef) : M Heap (option PoseRef) :=
  fun h =>
    match nth_error h self with
    | None => mkCall h [] (Throws TypeError)
    | Some this =>
        match srcPose this with
        | None =>
            mkCall h
              [ConsoleLog "Pose.reset - No source available for resetting"]
              (Returns None)
        | Some src =>
            (reset_loop self src 0 (length (joints this)) ;;;
             ret (Some self))%js h
        end
    end.

(** [setRot (i, rot)]: throws when there is no joint at [i]. *)
Definition setRot (i : Z) (rot' : Quat) : M Pose unit :=
  fun this =>
    match array_get (joints this) i with
    | None => mkCall this [] (Throws TypeError)
    | Some j =>
        let r := mkQuat (qx rot') (qy rot') (qz rot') (qw rot') in
        let l := mkTransform r (pos (local j)) (scl (local j)) in
        let js := array_set (joints this) (Z.to_nat i) (Joint.with_local j l) in
        mkCall (with_joints this js) [] (Returns tt)
    end.

(** [setPos (i, pos)], [setScl (i, scl)] and [setScalar (i, s)]: like
    [setRot], on the position and on the scale. *)
Definition setPos (i : Z) (pos' : Vec3) : M Pose unit :=
  fun this =>
    match array_get (joints this) i with
    | None => mkCall this [] (Throws TypeError)
    | Some j =>
        let p := mkVec3 (vx pos') (vy pos') (vz pos') in
        let l := mkTransform (rot (local j)) p (scl (local j)) in
        let js := array_set (joints this) (Z.to_nat i) (Joint.with_local j l) in
        mkCall (with_joints this js) [] (Returns tt)
    end.

Definition setScl (i : Z) (scl' : Vec3) : M Pose unit :=
  fun this =>
    match array_get (joints this) i with
    | None => mkCall this [] (Throws TypeError)
    | Some j =>
        let p := mkVec3 (vx scl') (vy scl') (vz scl') in
        let l := mkTransform (rot (local j)) (pos (local j)) p in
        let js := array_set (joints this) (Z.to_nat i) (Joint.with_local j l) in
        mkCall (with_joints this js) [] (Returns tt)
    end.

Definition setScalar (i : Z) (s : R) : M Pose unit :=
  fun this =>
    match array_get (joints this) i with
    | None => mkCall this [] (Throws TypeError)
    | Some j =>
        let p := mkVec3 s s s in
        let l := mkTransform (rot (local j)) (pos (local j)) p in
        let js := array_set (joints this) (Z.to_nat i) (Joint.with_local j l) in
        mkCall (with_joints this js) [] (Returns tt)
    end.

(** The body of the loop of [updateWorld] for the joint at position [k],
    one of the positions of the array.  The parent is read from the array
    as it is at that time: its cache is the new one when the parent comes
    before the joint. *)
Definition updateWorld_step (k : nat) : M Pose unit :=
  fun this =>
    match nth_error (joints this) k with
    | None => mkCall this [] (Returns tt)
    | Some j =>
        if negb (pindex j =? -1)%Z then
          match array_get (joints this) (pindex j) with
          | None => mkCall this [] (Throws TypeError)
          | Some pj =>
              let w := Transform.fromMul (world pj) (local j) in
              let js := array_set (joints this) k (Joint.with_world j w) in
              mkCall (with_joints this js) [] (Returns tt)
          end
        else
          let w := Transform.mul
                     (Transform.fromMul (rootOffset this) (poseOffset this))
                     (local j) in
          let js := array_set (joints this) k (Joint.with_world j w) in
          mkCall (with_joints this js) [] (Returns tt)
    end.

Fixpoint updateWorld_loop (ks : list nat) : M Pose unit :=
  match ks with
  | [] => ret tt
  | k :: ks' => (updateWorld_step k ;;; updateWorld_loop ks')%js
  end.

(** [updateWorld ()] *)
Definition updateWorld : M Pose unit :=
  fun this => updateWorld_loop (seq 0 (length (joints this))) this.

(** The [while] loop of [getWorld], on the [out_transform] object.  A walk
    that ends visits every joint at most once, so that [fuel] parent links
    are enough when [fuel] is the number of joints: the loop of the source
    never ends exactly when this one runs out of fuel. *)
Fixpoint getWorld_walk (fuel : nat) (this : Pose) (joint : Joint)
  : M Transform unit :=
  if negb (pindex joint =? -1)%Z then
    match fuel with
    | O => diverge
    | S fuel' =>
        match array_get (joints this) (pindex joint) with
        | None => throw TypeError
        | Some parent =>
            (out <- get ;;
             put (Transform.pmul out (local parent)) ;;;
             getWorld_walk fuel' this parent)%js
        end
    end
  else ret tt.

(** [getWorld (joint_idx, out_transform)]: the state is the object
    [out_transform], which is not a transform of the pose; the value
    returned is that same object.  [getJoint] reads [this.joints[joint_idx]]
    and the guard compares the value read with [null]. *)
Definition getWorld (this : Pose) (joint_idx : Z) : M Transform unit :=
  if (joint_idx =? -1)%Z then
    put (Transform.fromMul (rootOffset this) (poseOffset this))
  else
    match getJoint this (ByIndex joint_idx) with
    | JsNull => log (ConsoleError "Pose.getWorld - joint not found")
    | JsUndefined => throw TypeError
    | JsObj joint =>
        (put (Transform.copy (local joint)) ;;;
         getWorld_walk (length (joints this)) this joint ;;;
         out <- get ;;
         put (Transform.pmul (Transform.pmul out (poseOffset this))
                             (rootOffset this)))%js
    end.

(** [getWorld (joint_idx)] with the default [out_transform]: the fresh
    transform it returns. *)
Definition getWorld_new (this : Pose) (joint_idx : Z) : completion Transform :=
  let r := getWorld this joint_idx Transform.identity in
  match result r with
  | Returns _ => Returns (state r)
  | Throws e => Throws e
  | Diverges => Diverges
  end.

(** [new Pose()] *)
Definition new : Pose :=
  mkPose None [] [] Transform.identity Transform.identity.

Definition with_nameIdx (p : Pose) (m : list (string * Z)) : Pose :=
  mkPose (srcPose p) m (joints p) (rootOffset p) (poseOffset p).

Definition with_poseOffset (p : Pose) (t : Transform) : Pose :=
  mkPose (srcPose p) (nameIdx p) (joints p) (rootOffset p) t.

(** [Map.set] on [nameIdx]. *)
Fixpoint nameIdx_set (m : list (string * Z)) (k : string) (v : Z)
  : list (string * Z) :=
  match m with
  | [] => [(k, v)]
  | (k', v') :: tl =>
      if String.eqb k' k then (k', v) :: tl else (k', v') :: nameIdx_set tl k v
  end.

(** [this.joints[i] = j] for an index [i] that is at most the length of
    the array, as it is in the loop of [fromSkeleton], where the indices
    come in sequence from 0. *)
Definition joints_store (js : list Joint) (i : nat) (j : Joint) : list Joint :=
  if (i <? length js)%nat then array_set js i j else js ++ [j].

(** One round of the first loop of [fromSkeleton], for the bone [b] at
    the index [i]. *)
Definition fromSkeleton_step (i : nat) (b : THREE.Bone) : M Pose unit :=
  fun this =>
    let j := Joint.fromBone Joint.new b in
    let j := Joint.with_index j (Z.of_nat i) in
    let this := with_nameIdx this (nameIdx_set (nameIdx this) (name j) (index j)) in
    let is_bone :=
      match THREE.parent b with
      | Some pb => THREE.isBone pb
      | None => false
      end in
    if is_bone then
      let name_index :=
        match THREE.parent b with
        | Some pb => nameIdx_get (nameIdx this) (THREE.name pb)
        | None => None
        end in
      let j :=
        match name_index with
        | Some name_index => Joint.with_pindex j name_index
        | None => j
        end in
      match array_get (joints this) (pindex j) with
      | None => mkCall this [] (Throws TypeError)
      | Some pj =>
          let pj := Joint.with_children pj (children pj ++ [index j]) in
          let js := array_set (joints this) (Z.to_nat (pindex j)) pj in
          mkCall (with_joints this (joints_store js i j)) [] (Returns tt)
      end
    else
      mkCall (with_joints this (joints_store (joints this) i j)) []
             (Returns tt).

Fixpoint fromSkeleton_loop (i : nat) (bones : list THREE.Bone)
  : M Pose unit :=
  match bones with
  | [] => ret tt
  | b :: tl => (fromSkeleton_step i b ;;; fromSkeleton_loop (S i) tl)%js
  end.

(** The pose offset of [fromSkeleton]: [skel.bones[0]] is [undefined] in
    a skeleton without bones, and [undefined] is not [null]. *)
Definition fromSkeleton_offset (skel : THREE.Skeleton) : M Pose unit :=
  fun this =>
    match nth_error (THREE.bones skel) 0 with
    | None => mkCall this [] (Throws TypeError)
    | Some b =>
        match THREE.parent b with
        | None => mkCall this [] (Throws TypeError)
        | Some pb =>
            let v := THREE.getWorldPosition pb in
            let s := THREE.getWorldScale pb in
            let q := THREE.getWorldQuaternion pb in
            mkCall
              (with_poseOffset this
                 (mkTransform (mkQuat (qx q) (qy q) (qz q) (qw q))
                              (mkVec3 (vx v) (vy v) (vz v))
                              (mkVec3 (vx s) (vy s) (vz s))))
              [] (Returns tt)
        end
    end.

(** [fromSkeleton (skel)] *)
Definition fromSkeleton (skel : THREE.Skeleton) : M Pose unit :=
  ((fun this => mkCall (with_nameIdx this []) [] (Returns tt)) ;;;
   fromSkeleton_loop 0 (THREE.bones skel) ;;;
   fromSkeleton_offset skel ;;;
   updateWorld)%js.

(** One round of the loop of [toSkeleton], on the bones of the skeleton. *)
Definition toSkeleton_step (this : Pose) (i : nat) : M (list THREE.Bone) unit :=
  fun bones =>
    match nth_error bones i with
    | None => mkCall bones [] (Returns tt)
    | Some b =>
        match nth_error (joints this) i with
        | None => mkCall bones [] (Throws TypeError)
        | Some j =>
            let p := pos (local j) in
            let r := rot (local j) in
            let s := scl (local j) in
            let b :=
              THREE.mkBone (THREE.bone_name b)
                (mkVec3 (vx p) (vy p) (vz p))
                (mkQuat (qx r) (qy r) (qz r) (qw r))
                (mkVec3 (vx s) (vy s) (vz s))
                (THREE.parent b) in
            mkCall (array_set bones i b) [] (Returns tt)
        end
    end.

Fixpoint toSkeleton_loop (this : Pose) (ks : list nat)
  : M (list THREE.Bone) unit :=
  match ks with
  | [] => ret tt
  | k :: ks' => (toSkeleton_step this k ;;; toSkeleton_loop this ks')%js
  end.

(** [toSkeleton (skel)]: the state is the array of the bones of [skel]. *)
Definition toSkeleton (this : Pose) : M (list THREE.Bone) unit :=
  fun bones => toSkeleton_loop this (seq 0 (length bones)) bones.


End Pose.

(** ** The retargeter seen by the chain operators

    [Retargeter.ts] and [RigItem.ts] are imported by the operators for
    their types only.  The operators read [rt.tarRig] (nullable),
    [rt.tarRig.chains[name]] (an array of rig items), [rt.pose] (nullable),
    and of a rig item [idx], [pidx] and, in [AxisAdditive], [twist]. *)

Module RigItem.

Record t : Type := mk { idx : Z; pidx : Z; twist : option Vec3 }.

End RigItem.

Record Rig : Type := mkRig { chains : list (string * list RigItem.t) }.

(** The objects a retargeter refers to; [None] is [null]. *)
Record Retargeter : Type :=
  mkRetargeter { tarRig : option Rig; pose : option Pose }.

Module Retargeter.

(** [chains[name]] *)
Fixpoint chains_get (chains : list (string * list RigItem.t)) (name : string)
  : option (list RigItem.t) :=
  match chains with
  | [] => None
  | (k, ch) :: tl => if String.eqb k name then Some ch else chains_get tl name
  end.

(** A method call [rt.pose.m (..)]: a [TypeError] when [rt.pose] is null. *)
Definition on_pose {A : Type} (m : M Pose A) : M Retargeter A :=
  fun rt =>
    match pose rt with
    | None => mkCall rt [] (Throws TypeError)
    | Some p =>
        let r := m p in
        mkCall (mkRetargeter (tarRig rt) (Some (state r)))
               (console r) (result r)
    end.

(** [rt.pose.getWorld (i)], the transform being a fresh one. *)
Definition pose_getWorld (i : Z) : M Retargeter Transform :=
  on_pose (fun p =>
    let r := Pose.getWorld p i Transform.identity in
    mkCall p (console r)
           match result r with
           | Returns _ => Returns (state r)
           | Throws e => Throws e
           | Diverges => Diverges
           end).

(** [rt.pose.joints[i].local] *)
Definition pose_joint_local (i : Z) : M Retargeter Transform :=
  on_pose (fun p =>
    match array_get (joints p) i with
    | None => mkCall p [] (Throws TypeError)
    | Some j => mkCall p [] (Returns (local j))
    end).

(** A property read [itm.p] of an array element that may be [undefined]. *)
Definition defined {S A : Type} (o : option A) : M S A :=
  match o with
  | Some a => ret a
  | None => throw TypeError
  end.

End Retargeter.

(** ** ChainTwistAdditive.ts *)

Module ChainTwistAdditive.

Record t : Type := mk { chainName : string; angle : R }.

Definition apply (this : t) : M Retargeter unit :=
  fun rt =>
    if Req_dec_T (angle this) 0 then ret tt rt
    else
      match tarRig rt with
      | None => ret tt rt
      | Some rig =>
          match Retargeter.chains_get (chains rig) (chainName this) with
          | None => throw TypeError rt
          | Some ch =>
              let itm0 := array_get ch 0 in
              let itm1 := array_get ch (Z.of_nat (length ch) - 1) in
              match pose rt with
              | None =>
                  log (ConsoleWarn "ChainTwistAdditive: Missing working pose.") rt
              | Some _ =>
                  (itm0 <- Retargeter.defined itm0 ;;
                   ptran <- Retargeter.pose_getWorld (RigItem.pidx itm0) ;;
                   l <- Retargeter.pose_joint_local (RigItem.idx itm0) ;;
                   let ctran := Transform.fromMul ptran l in
                   itm1 <- Retargeter.defined itm1 ;;
                   etran <- Retargeter.pose_getWorld (RigItem.idx itm1) ;;
                   let axis :=
                     Vec3.norm (Vec3.fromSub (pos etran) (pos ctran)) in
                   let q :=
                     Quat.pmulInvert
                       (Quat.mul (Quat.fromAxisAngle axis (angle this))
                                 (rot ctran))
                       (rot ptran) in
                   Retargeter.on_pose (Pose.setRot (RigItem.idx itm0) q))%js rt
              end
          end
      end.

End ChainTwistAdditive.

(** ** AxisAdditive.js *)

Module AxisAdditive.

Record t : Type := mk { chainName : string; onAxis : string; angle : R }.

(** [apply (rt)].  [console.log] with two strings writes them on one line
    with a space in between. *)
Definition apply (this : t) : M Retargeter unit :=
  fun rt =>
    if Req_dec_T (angle this) 0 then ret tt rt
    else
      match tarRig rt with
      | None => throw TypeError rt
      | Some rig =>
          match Retargeter.chains_get (chains rig) (chainName this) with
          | None => throw TypeError rt
          | Some ch =>
              (match pose rt with
               | None => throw TypeError
               | Some _ => ret tt
               end ;;;
               itm <- Retargeter.defined (array_get ch 0) ;;
               ptran <- Retargeter.pose_getWorld (RigItem.pidx itm) ;;
               l <- Retargeter.pose_joint_local (RigItem.idx itm) ;;
               let ctran := Transform.fromMul ptran l in
               if String.eqb (onAxis this) "y" then
                 let axis := Vec3.fromQuat (rot ctran) (RigItem.twist itm) in
                 let q :=
                   Quat.pmulInvert
                     (Quat.mul (Quat.fromAxisAngle axis (angle this))
                               (rot ctran))
                     (rot ptran) in
                 Retargeter.on_pose (Pose.setRot (RigItem.idx itm) q)
               else
                 log (ConsoleLog
                        ("ERROR : AxisAdditive - Axis not implemented " ++
                         onAxis this)))%js rt
          end
      end.

End AxisAdditive.

(** ** Strings and regular expressions of the JavaScript runtime

    Bone names are strings of ASCII characters.  The regular expressions of
    [BoneAutoMapper] are written in the abstract syntax below and run by a
    backtracking matcher with the semantics of ECMAScript: alternatives are
    tried from left to right, [*] and [+] are greedy, [^] and [$] match at
    the two ends of the input only (no [m] flag), and [\b] matches between
    a word character and a character that is not one (or an end of the
    input). *)

Module JsString.

Definition chars (s : string) : list ascii := list_ascii_of_string s.

Definition str (l : list ascii) : string := string_of_list_ascii l.

Definition between (lo hi : nat) (c : ascii) : bool :=
  (lo <=? nat_of_ascii c)%nat && (nat_of_ascii c <=? hi)%nat.

Definition lower_char (c : ascii) : ascii :=
  if between 65 90 c then ascii_of_nat (nat_of_ascii c + 32) else c.

(** [s.toLowerCase ()] *)
Definition toLowerCase (s : string) : string :=
  str (map lower_char (chars s)).

Fixpoint starts_with (p s : list ascii) : bool :=
  match p, s with
  | [], _ => true
  | _ :: _, [] => false
  | a :: p', b :: s' => Ascii.eqb a b && starts_with p' s'
  end.

Fixpoint includes_chars (s sub : list ascii) : bool :=
  starts_with sub s ||
  match s with
  | [] => false
  | _ :: tl => includes_chars tl sub
  end.

(** [s.includes (sub)] *)
Definition includes (s sub : string) : bool :=
  includes_chars (chars s) (chars sub).

(** [s.charAt (s.length - 1)]: the empty string when [s] is empty. *)
Definition last_charAt (s : string) : string :=
  match rev (chars s) with
  | [] => EmptyString
  | c :: _ => str [c]
  end.

(** [keywords.some (keyword => s.includes (keyword))] *)
Definition some_included (keywords : list string) (s : string) : bool :=
  existsb (includes s) keywords.

End JsString.

Module Regex.

Inductive regex : Type :=
| Eps
| Chr (c : ascii)
| Cls (p : ascii -> bool)
| Bol
| Eol
| WordB
| Seq (r1 r2 : regex)
| Alt (r1 r2 : regex)
| Star (r : regex)
| Group (r : regex).

Definition Plus (r : regex) : regex := Seq r (Star r).

(** The characters of a string, in sequence. *)
Fixpoint lit_chars (l : list ascii) : regex :=
  match l with
  | [] => Eps
  | [c] => Chr c
  | c :: tl => Seq (Chr c) (lit_chars tl)
  end.

Definition lit (s : string) : regex := lit_chars (JsString.chars s).

(** [(a|b|c)] *)
Fixpoint alts (rs : list regex) : regex :=
  match rs with
  | [] => Eps
  | [r] => r
  | r :: tl => Alt r (alts tl)
  end.

Definition oneof (ss : list string) : regex := Group (alts (map lit ss)).

(** [\w], [\d] and [\s] on ASCII *)
Definition is_word (c : ascii) : bool :=
  JsString.between 97 122 c || JsString.between 65 90 c ||
  JsString.between 48 57 c || Ascii.eqb c "_".

Definition is_digit (c : ascii) : bool := JsString.between 48 57 c.

Definition is_space (c : ascii) : bool :=
  JsString.between 9 13 c || Ascii.eqb c " " ||
  (nat_of_ascii c =? 160)%nat.

(** A position in the input: the character before it, the characters after
    it and the text of the capture group. *)
Record position : Type :=
  mkPosition { before : option ascii; rest : list ascii; group1 : list ascii }.

Definition word_before (st : position) : bool :=
  match before st with Some c => is_word c | None => false end.

Definition word_after (st : position) : bool :=
  match rest st with c :: _ => is_word c | [] => false end.

Definition consumed (from to : position) : list ascii :=
  firstn (length (rest from) - length (rest to)) (rest from).

Definition same_char (icase : bool) (a b : ascii) : bool :=
  if icase
  then Ascii.eqb (JsString.lower_char a) (JsString.lower_char b)
  else Ascii.eqb a b.

(** [rmatch icase r st k]: match [r] at [st], then the rest of the pattern
    [k]; [None] when every way of matching fails. *)
Fixpoint rmatch (icase : bool) (r : regex) (st : position)
  (k : position -> option position) : option position :=
  match r with
  | Eps => k st
  | Chr c =>
      match rest st with
      | c' :: tl =>
          if same_char icase c c'
          then k (mkPosition (Some c') tl (group1 st))
          else None
      | [] => None
      end
  | Cls p =>
      match rest st with
      | c' :: tl =>
          if p c' then k (mkPosition (Some c') tl (group1 st)) else None
      | [] => None
      end
  | Bol => match before st with None => k st | Some _ => None end
  | Eol => match rest st with [] => k st | _ :: _ => None end
  | WordB => if xorb (word_before st) (word_after st) then k st else None
  | Seq r1 r2 => rmatch icase r1 st (fun st' => rmatch icase r2 st' k)
  | Alt r1 r2 =>
      match rmatch icase r1 st k with
      | Some e => Some e
      | None => rmatch icase r2 st k
      end
  | Star r' =>
      (fix star (n : nat) (st : position) : option position :=
         match n with
         | O => k st
         | S n' =>
             match
               rmatch icase r' st
                 (fun st' =>
                    if (length (rest st') <? length (rest st))%nat
                    then star n' st' else None)
             with
             | Some e => Some e
             | None => k st
             end
         end) (length (rest st)) st
  | Group r' =>
      rmatch icase r' st
        (fun st' => k (mkPosition (before st') (rest st') (consumed st st')))
  end.

(** The match of [r] that starts at [st], if any. *)
Definition match_at (icase : bool) (r : regex) (st : position)
  : option position :=
  rmatch icase r (mkPosition (before st) (rest st) []) Some.

(** A replacement string: text, or [$1]. *)
Inductive replacement : Type :=
| Text (s : string)
| Dollar1.

Definition expand (by_ : replacement) (m : position) : list ascii :=
  match by_ with
  | Text s => JsString.chars s
  | Dollar1 => group1 m
  end.

(** [s.replace (/r/g, by)]: the matches are searched from left to right,
    each one after the end of the one before.  [n] bounds the number of
    positions still to visit. *)
Fixpoint replace_from (n : nat) (icase : bool) (r : regex) (by_ : replacement)
  (st : position) : list ascii :=
  match n with
  | O => rest st
  | S n' =>
      match match_at icase r st with
      | Some m =>
          if (length (rest m) <? length (rest st))%nat
          then expand by_ m ++ replace_from n' icase r by_ m
          else
            expand by_ m ++
            match rest st with
            | [] => []
            | c :: tl =>
                c :: replace_from n' icase r by_
                       (mkPosition (Some c) tl [])
            end
      | None =>
          match rest st with
          | [] => []
          | c :: tl =>
              c :: replace_from n' icase r by_ (mkPosition (Some c) tl [])
          end
      end
  end.

Definition replace_all (r : regex) (by_ : replacement) (s : string) : string :=
  let l := JsString.chars s in
  JsString.str
    (replace_from (S (length l)) false r by_ (mkPosition None l [])).

(** [s.replace (/r/, by)] and [s.replace (/r/i, by)]: the leftmost match
    only. *)
Fixpoint replace_first_from (icase : bool) (r : regex) (by_ : replacement)
  (b : option ascii) (l : list ascii) : list ascii :=
  match match_at icase r (mkPosition b l []) with
  | Some m => expand by_ m ++ rest m
  | None =>
      match l with
      | [] => []
      | c :: tl => c :: replace_first_from icase r by_ (Some c) tl
      end
  end.

Definition replace_first (icase : bool) (r : regex) (by_ : replacement)
  (s : string) : string :=
  JsString.str (replace_first_from icase r by_ None (JsString.chars s)).

(** [new RegExp (r).test (s)] *)
Fixpoint test_from (r : regex) (b : option ascii) (l : list ascii) : bool :=
  match match_at false r (mkPosition b l []) with
  | Some _ => true
  | None =>
      match l with
      | [] => false
      | c :: tl => test_from r (Some c) tl
      end
  end.

Definition test (r : regex) (s : string) : bool :=
  test_from r None (JsString.chars s).

End Regex.

(** ** BoneAutoMapper.ts *)

Inductive BoneCategory : Type :=
| Torso | Arms | Hands | Legs | Wings | Tail | UnknownCategory.

Inductive BoneSide : Type :=
| Left | Right | Center | UnknownSide.

Record BoneMetadata : Type := mkBoneMetadata {
  bone_name : string;
  normalized_name : string;
  side : BoneSide;
  category : BoneCategory;
  parent_name : option string
}.

Module BoneAutoMapper.

Import Regex.

Definition category_eqb (a b : BoneCategory) : bool :=
  match a, b with
  | Torso, Torso | Arms, Arms | Hands, Hands | Legs, Legs
  | Wings, Wings | Tail, Tail | UnknownCategory, UnknownCategory => true
  | _, _ => false
  end.

Definition torso_keywords : list string :=
  ["spine"; "chest"; "neck"; "head"; "hips"; "pelvis"; "root"; "cog";
   "center"; "torso"; "back"; "ribcage"]%string.

Definition arm_keywords : list string :=
  ["shoulder"; "arm"; "elbow"; "wrist"; "clavicle"; "scapula"; "upperarm";
   "forearm"]%string.

Definition hand_keywords : list string :=
  ["hand"; "finger"; "thumb"; "index"; "middle"; "ring"; "pinky"; "palm";
   "knuckle"; "metacarpal"; "phalanx"]%string.

Definition leg_keywords : list string :=
  ["leg"; "thigh"; "knee"; "ankle"; "foot"; "toe"; "heel"; "hip";
   "upperleg"; "lowerleg"; "shin"; "calf"]%string.

Definition wing_keywords : list string :=
  ["wing"; "feather"; "pinion"]%string.

Definition tail_keywords : list string := ["tail"]%string.

Definition categorize_bone (bone_name : string) : BoneCategory :=
  let normalized := JsString.toLowerCase bone_name in
  if JsString.some_included torso_keywords normalized then Torso
  else if JsString.some_included arm_keywords normalized then Arms
  else if JsString.some_included hand_keywords normalized then Hands
  else if JsString.some_included leg_keywords normalized then Legs
  else if JsString.some_included wing_keywords normalized then Wings
  else if JsString.some_included tail_keywords normalized then Tail
  else UnknownCategory.

(** ['left$'], ['^left'], ['^l_'], ['_l$'] *)
Definition left_patterns : list regex :=
  [Seq (lit "left") Eol; Seq Bol (lit "left");
   Seq Bol (lit "l_"); Seq (lit "_l") Eol].

(** ['right$'], ['^right'], ['^r_'], ['_r$'] *)
Definition right_patterns : list regex :=
  [Seq (lit "right") Eol; Seq Bol (lit "right");
   Seq Bol (lit "r_"); Seq (lit "_r") Eol].

Definition determine_bone_side (bone_name : string) (category : BoneCategory)
  : BoneSide :=
  let normalized := JsString.toLowerCase bone_name in
  if category_eqb category Torso then Center
  else if existsb (fun pattern => test pattern normalized) left_patterns
  then Left
  else if existsb (fun pattern => test pattern normalized) right_patterns
  then Right
  else if JsString.includes normalized "left" then Left
  else if JsString.includes normalized "right" then Right
  else
    let last_char := JsString.last_charAt normalized in
    if String.eqb (JsString.toLowerCase last_char) "l" then Left
    else if String.eqb (JsString.toLowerCase last_char) "r" then Right
    else UnknownSide.

(** [/[-.\s]/] *)
Definition separators : regex :=
  Cls (fun c => Ascii.eqb c "-" || Ascii.eqb c "." || is_space c).

(** [/^(mixamorig|mixamorig_|rig_|bone_|jnt_|joint_|def_)/] *)
Definition common_prefixes : regex :=
  Seq Bol (oneof ["mixamorig"; "mixamorig_"; "rig_"; "bone_"; "jnt_";
                  "joint_"; "def_"]%string).

(** [/\b(left|right|l|r)\b/] *)
Definition side_words : regex :=
  Seq WordB (Seq (oneof ["left"; "right"; "l"; "r"]%string) WordB).

(** [/^(l|r)_/], [/_(l|r)$/] and [/\.(l|r)$/] *)
Definition side_prefix : regex :=
  Seq Bol (Seq (oneof ["l"; "r"]%string) (Chr "_")).

Definition side_suffix : regex :=
  Seq (Chr "_") (Seq (oneof ["l"; "r"]%string) Eol).

Definition side_dot_suffix : regex :=
  Seq (Chr ".") (Seq (oneof ["l"; "r"]%string) Eol).

(** [/__+/] and [/^_|_$/] *)
Definition underscores : regex := Seq (Chr "_") (Plus (Chr "_")).

Definition outer_underscore : regex :=
  Alt (Seq Bol (Chr "_")) (Seq (Chr "_") Eol).

(** [/[._]0*(\d+)$/] *)
Definition numeric_suffix : regex :=
  Seq (Cls (fun c => Ascii.eqb c "." || Ascii.eqb c "_"))
      (Seq (Star (Chr "0")) (Seq (Group (Plus (Cls is_digit))) Eol)).

(** [/\b(w1|w2|..)\b/] *)
Definition whole_word (ws : list string) : regex :=
  Seq WordB (Seq (oneof ws) WordB).

Definition side_eqb (a b : BoneSide) : bool :=
  match a, b with
  | Left, Left | Right, Right | Center, Center
  | UnknownSide, UnknownSide => true
  | _, _ => false
  end.

Definition normalize_bone_name (bone_name : string) (category : BoneCategory)
  (side : BoneSide) : string :=
  let normalized := JsString.toLowerCase bone_name in
  let normalized := replace_all separators (Text "_") normalized in
  let normalized := replace_first true common_prefixes (Text "") normalized in
  let normalized :=
    if negb (side_eqb side Center) && negb (side_eqb side UnknownSide) then
      let normalized := replace_all side_words (Text "") normalized in
      let normalized := replace_all side_prefix (Text "") normalized in
      let normalized := replace_all side_suffix (Text "") normalized in
      let normalized := replace_all side_dot_suffix (Text "") normalized in
      let normalized := replace_all underscores (Text "_") normalized in
      replace_all outer_underscore (Text "") normalized
    else normalized in
  let normalized := replace_all numeric_suffix Dollar1 normalized in
  let normalized :=
    if category_eqb category Hands then normalized
    else if category_eqb category Legs then
      let normalized :=
        replace_all (whole_word ["upperleg"; "upleg"; "thigh"]%string)
                    (Text "thigh") normalized in
      replace_all (whole_word ["lowerleg"; "lowleg"; "shin"; "calf"]%string)
                  (Text "calf") normalized
    else if category_eqb category Arms then
      let normalized :=
        replace_all (whole_word ["upperarm"; "uparm"]%string)
                    (Text "upperarm") normalized in
      replace_all (whole_word ["lowerarm"; "lowarm"; "forearm"]%string)
                  (Text "forearm") normalized
    else normalized in
  let normalized := replace_all underscores (Text "_") normalized in
  replace_all outer_underscore (Text "") normalized.

Definition create_bone_metadata (bone_name : string)
  (parent_name : option string) : BoneMetadata :=
  let category := categorize_bone bone_name in
  let side := determine_bone_side bone_name category in
  let normalized_name := normalize_bone_name bone_name category side in
  mkBoneMetadata bone_name normalized_name side category parent_name.

End BoneAutoMapper.

(** ** HumanChainConfig.ts *)

Module HumanChainConfig.

(** A [Record<string, string[]>] written as an object literal: the keys
    with their arrays, in the order of the source. *)
Definition mesh2motion_config : list (string * list string) :=
  [
   ("pelvis", ["DEF-hips"]);
   ("spine", ["DEF-spine001"; "DEF-spine002"; "DEF-spine003"]);
   ("head", ["DEF-neck"; "DEF-head"]);
   ("armL", ["DEF-upper_armL"; "DEF-forearmL"; "DEF-handL"]);
   ("armR", ["DEF-upper_armR"; "DEF-forearmR"; "DEF-handR"]);
   ("legL", ["DEF-thighL"; "DEF-shinL"; "DEF-footL"]);
   ("legR", ["DEF-thighR"; "DEF-shinR"; "DEF-footR"]);
   ("fingersThumbL", ["DEF-thumb01L"; "DEF-thumb02L"; "DEF-thumb03L"; "DEF-thumb04_tipL"]);
   ("fingersThumbR", ["DEF-thumb01R"; "DEF-thumb02R"; "DEF-thumb03R"; "DEF-thumb04_tipR"]);
   ("fingersIndexL", ["DEF-f_index01L"; "DEF-f_index02L"; "DEF-f_index03L"; "DEF-f_index04_tipL"]);
   ("fingersIndexR", ["DEF-f_index01R"; "DEF-f_index02R"; "DEF-f_index03R"; "DEF-f_index04_tipR"]);
   ("fingersMiddleL", ["DEF-f_middle01L"; "DEF-f_middle02L"; "DEF-f_middle03L"; "DEF-f_middle04_tipL"]);
   ("fingersMiddleR", ["DEF-f_middle01R"; "DEF-f_middle02R"; "DEF-f_middle03R"; "DEF-f_middle04_tipR"]);
   ("fingersRingL", ["DEF-f_ring01L"; "DEF-f_ring02L"; "DEF-f_ring03L"; "DEF-f_ring04_tipL"]);
   ("fingersRingR", ["DEF-f_ring01R"; "DEF-f_ring02R"; "DEF-f_ring03R"; "DEF-f_ring04_tipR"]);
   ("fingersPinkyL", ["DEF-f_pinky01L"; "DEF-f_pinky02L"; "DEF-f_pinky03L"; "DEF-f_pinky04_tipL"]);
   ("fingersPinkyR", ["DEF-f_pinky01R"; "DEF-f_pinky02R"; "DEF-f_pinky03R"; "DEF-f_pinky04_tipR"])
  ]%string.

Definition mixamo_config : list (string * list string) :=
  [
   ("pelvis", ["mixamorigHips"]);
   ("spine", ["mixamorigSpine"; "mixamorigSpine1"; "mixamorigSpine2"]);
   ("head", ["mixamorigNeck"; "mixamorigHead"]);
   ("armL", ["mixamorigLeftArm"; "mixamorigLeftForeArm"; "mixamorigLeftHand"]);
   ("armR", ["mixamorigRightArm"; "mixamorigRightForeArm"; "mixamorigRightHand"]);
   ("legL", ["mixamorigLeftUpLeg"; "mixamorigLeftLeg"; "mixamorigLeftFoot"]);
   ("legR", ["mixamorigRightUpLeg"; "mixamorigRightLeg"; "mixamorigRightFoot"]);
   ("fingersThumbL", ["mixamorigLeftHandThumb1"; "mixamorigLeftHandThumb2"; "mixamorigLeftHandThumb3"; "mixamorigLeftHandThumb4"]);
   ("fingersThumbR", ["mixamorigRightHandThumb1"; "mixamorigRightHandThumb2"; "mixamorigRightHandThumb3"; "mixamorigRightHandThumb4"]);
   ("fingersIndexL", ["mixamorigLeftHandIndex1"; "mixamorigLeftHandIndex2"; "mixamorigLeftHandIndex3"; "mixamorigLeftHandIndex4"]);
   ("fingersIndexR", ["mixamorigRightHandIndex1"; "mixamorigRightHandIndex2"; "mixamorigRightHandIndex3"; "mixamorigRightHandIndex4"]);
   ("fingersMiddleL", ["mixamorigLeftHandMiddle1"; "mixamorigLeftHandMiddle2"; "mixamorigLeftHandMiddle3"; "mixamorigLeftHandMiddle4"]);
   ("fingersMiddleR", ["mixamorigRightHandMiddle1"; "mixamorigRightHandMiddle2"; "mixamorigRightHandMiddle3"; "mixamorigRightHandMiddle4"]);
   ("fingersRingL", ["mixamorigLeftHandRing1"; "mixamorigLeftHandRing2"; "mixamorigLeftHandRing3"; "mixamorigLeftHandRing4"]);
   ("fingersRingR", ["mixamorigRightHandRing1"; "mixamorigRightHandRing2"; "mixamorigRightHandRing3"; "mixamorigRightHandRing4"]);
   ("fingersPinkyL", ["mixamorigLeftHandPinky1"; "mixamorigLeftHandPinky2"; "mixamorigLeftHandPinky3"; "mixamorigLeftHandPinky4"]);
   ("fingersPinkyR", ["mixamorigRightHandPinky1"; "mixamorigRightHandPinky2"; "mixamorigRightHandPinky3"; "mixamorigRightHandPinky4"])
  ]%string.

End HumanChainConfig.

(** ** MixamoMapper.ts *)

(** What reading a property of an object written as a literal of strings
    gives: the string of an own key, one of the functions and objects that
    every object inherits from [Object.prototype], or [undefined]. *)
Inductive JsProp : Type :=
| PropString (s : string)
| PropInherited
| PropUndefined.

(** A [Map<string, string>]: the entries in the order of their insertion. *)
Definition JsMap : Type := list (string * string).

Module JsMap.

(** [m.set (k, v)]: the value of an existing key is replaced where the key
    is, a new key comes last. *)
Fixpoint set (m : JsMap) (k v : string) : JsMap :=
  match m with
  | [] => [(k, v)]
  | (k', v') :: tl =>
      if String.eqb k' k then (k', v) :: tl else (k', v') :: set tl k v
  end.

Definition size (m : JsMap) : nat := length m.

End JsMap.

Module MixamoMapper.

Definition BONE_MAP : list (string * string) :=
  [
   ("DEF-hips", "mixamorigHips");
   ("DEF-spine001", "mixamorigSpine");
   ("DEF-spine002", "mixamorigSpine1");
   ("DEF-spine003", "mixamorigSpine2");
   ("DEF-neck", "mixamorigNeck");
   ("DEF-head", "mixamorigHead");
   ("DEF-headtip", "mixamorigHeadTop_End");
   ("DEF-shoulderL", "mixamorigLeftShoulder");
   ("DEF-upper_armL", "mixamorigLeftArm");
   ("DEF-forearmL", "mixamorigLeftForeArm");
   ("DEF-handL", "mixamorigLeftHand");
   ("DEF-shoulderR", "mixamorigRightShoulder");
   ("DEF-upper_armR", "mixamorigRightArm");
   ("DEF-forearmR", "mixamorigRightForeArm");
   ("DEF-handR", "mixamorigRightHand");
   ("DEF-thighL", "mixamorigLeftUpLeg");
   ("DEF-shinL", "mixamorigLeftLeg");
   ("DEF-footL", "mixamorigLeftFoot");
   ("DEF-toeL", "mixamorigLeftToeBase");
   ("DEF-toe_tipL", "mixamorigLeftToe_End");
   ("DEF-thighR", "mixamorigRightUpLeg");
   ("DEF-shinR", "mixamorigRightLeg");
   ("DEF-footR", "mixamorigRightFoot");
   ("DEF-toeR", "mixamorigRightToeBase");
   ("DEF-toe_tipR", "mixamorigRightToe_End");
   ("DEF-thumb01L", "mixamorigLeftHandThumb1");
   ("DEF-thumb02L", "mixamorigLeftHandThumb2");
   ("DEF-thumb03L", "mixamorigLeftHandThumb3");
   ("DEF-thumb_04_tipL", "mixamorigLeftHandThumb4");
   ("DEF-f_index01L", "mixamorigLeftHandIndex1");
   ("DEF-f_index02L", "mixamorigLeftHandIndex2");
   ("DEF-f_index03L", "mixamorigLeftHandIndex3");
   ("DEF-f_index04_tipL", "mixamorigLeftHandIndex4");
   ("DEF-f_middle01L", "mixamorigLeftHandMiddle1");
   ("DEF-f_middle02L", "mixamorigLeftHandMiddle2");
   ("DEF-f_middle03L", "mixamorigLeftHandMiddle3");
   ("DEF-f_middle04_tipL", "mixamorigLeftHandMiddle4");
   ("DEF-f_ring01L", "mixamorigLeftHandRing1");
   ("DEF-f_ring02L", "mixamorigLeftHandRing2");
   ("DEF-f_ring03L", "mixamorigLeftHandRing3");
   ("DEF-f_ring04_tipL", "mixamorigLeftHandRing4");
   ("DEF-f_pinky01L", "mixamorigLeftHandPinky1");
   ("DEF-f_pinky02L", "mixamorigLeftHandPinky2");
   ("DEF-f_pinky03L", "mixamorigLeftHandPinky3");
   ("DEF-f_pinky04_tipL", "mixamorigLeftHandPinky4");
   ("DEF-thumb01R", "mixamorigRightHandThumb1");
   ("DEF-thumb02R", "mixamorigRightHandThumb2");
   ("DEF-thumb03R", "mixamorigRightHandThumb3");
   ("DEF-thumb04_tipR", "mixamorigRightHandThumb4");
   ("DEF-f_index01R", "mixamorigRightHandIndex1");
   ("DEF-f_index02R", "mixamorigRightHandIndex2");
   ("DEF-f_index03R", "mixamorigRightHandIndex3");
   ("DEF-f_index04_tipR", "mixamorigRightHandIndex4");
   ("DEF-f_middle01R", "mixamorigRightHandMiddle1");
   ("DEF-f_middle02R", "mixamorigRightHandMiddle2");
   ("DEF-f_middle03R", "mixamorigRightHandMiddle3");
   ("DEF-f_middle04_tipR", "mixamorigRightHandMiddle4");
   ("DEF-f_ring01R", "mixamorigRightHandRing1");
   ("DEF-f_ring02R", "mixamorigRightHandRing2");
   ("DEF-f_ring03R", "mixamorigRightHandRing3");
   ("DEF-f_ring04_tipR", "mixamorigRightHandRing4");
   ("DEF-f_pinky01R", "mixamorigRightHandPinky1");
   ("DEF-f_pinky02R", "mixamorigRightHandPinky2");
   ("DEF-f_pinky03R", "mixamorigRightHandPinky3");
   ("DEF-f_pinky04_tipR", "mixamorigRightHandPinky4")
  ]%string.

(** The names that every object inherits from [Object.prototype]. *)
Definition object_prototype_keys : list string :=
  ["constructor"; "hasOwnProperty"; "isPrototypeOf"; "propertyIsEnumerable";
   "toLocaleString"; "toString"; "valueOf"; "__proto__";
   "__defineGetter__"; "__defineSetter__"; "__lookupGetter__";
   "__lookupSetter__"]%string.

Fixpoint own_property (o : list (string * string)) (k : string)
  : option string :=
  match o with
  | [] => None
  | (k', v) :: tl => if String.eqb k' k then Some v else own_property tl k
  end.

(** [this.BONE_MAP[name]] *)
Definition BONE_MAP_get (name : string) : JsProp :=
  match own_property BONE_MAP name with
  | Some v => PropString v
  | None =>
      if existsb (String.eqb name) object_prototype_keys
      then PropInherited
      else PropUndefined
  end.

Definition is_target_valid_skeleton (bone_names : list string) : bool :=
  existsb (fun name => JsString.includes (JsString.toLowerCase name)
                         "mixamorig")
          bone_names.

(** The number [n] in a template literal. *)
Definition number_string (n : nat) : string :=
  NilZero.string_of_uint (Nat.to_uint n).

(** The body of the loop of [map_mixamo_bones], on the map [mappings].
    An inherited property is truthy and is equal to the name of no bone;
    the empty string is falsy. *)
Definition map_mixamo_bone (target_bones : list BoneMetadata)
  (source_bone : BoneMetadata) : M JsMap unit :=
  match BONE_MAP_get (bone_name source_bone) with
  | PropUndefined => ret tt
  | PropInherited => ret tt
  | PropString expected_mixamo_name =>
      if String.eqb expected_mixamo_name "" then ret tt
      else
        match
          find (fun tb => String.eqb (bone_name tb) expected_mixamo_name)
               target_bones
        with
        | Some target_bone =>
            (mappings <- get ;;
             put (JsMap.set mappings (bone_name target_bone)
                    (bone_name source_bone)) ;;;
             log (ConsoleLog ("Mapped: " ++ bone_name target_bone ++ " -> " ++
                              bone_name source_bone)))%js
        | None => ret tt
        end
  end.

Fixpoint map_mixamo_loop (target_bones source_bones : list BoneMetadata)
  : M JsMap unit :=
  match source_bones with
  | [] => ret tt
  | source_bone :: tl =>
      (map_mixamo_bone target_bones source_bone ;;;
       map_mixamo_loop target_bones tl)%js
  end.

(** [map_mixamo_bones (source_bones, target_bones)]: the state is the map
    [mappings], new and empty at the start, and the value returned is that
    map. *)
Definition map_mixamo_bones (source_bones target_bones : list BoneMetadata)
  : call JsMap JsMap :=
  (log (ConsoleLog "=== MIXAMO DIRECT MAPPING ===") ;;;
   map_mixamo_loop target_bones source_bones ;;;
   mappings <- get ;;
   log (ConsoleLog ("Mixamo mapping complete: " ++
                    number_string (JsMap.size mappings) ++
                    " bones mapped")) ;;;
   ret mappings)%js [].

End MixamoMapper.

(** ** Mesh2MotionMapper.ts *)

Module Mesh2MotionMapper.

Definition is_source_bones_same_as_target
  (source_bone_names target_bone_names : list string) : bool :=
  forallb (fun name => existsb (String.eqb name) target_bone_names)
          source_bone_names.

End Mesh2MotionMapper.


(** * Specification vocabulary *)

Unset Implicit Arguments.

(** ** Vectors, quaternions and transforms *)

Definition vadd (a b : Vec3) : Vec3 :=
  mkVec3 (vx a + vx b) (vy a + vy b) (vz a + vz b).

Definition vscale (s : R) (a : Vec3) : Vec3 :=
  mkVec3 (s * vx a) (s * vy a) (s * vz a).

Definition hadamard (a b : Vec3) : Vec3 :=
  mkVec3 (vx a * vx b) (vy a * vy b) (vz a * vz b).

(** Squared magnitude, conjugate and scaling of a quaternion. *)
Definition norm2 (q : Quat) : R := qx q ^ 2 + qy q ^ 2 + qz q ^ 2 + qw q ^ 2.

Definition conjugate (q : Quat) : Quat :=
  mkQuat (- qx q) (- qy q) (- qz q) (qw q).

Definition qdiv (q : Quat) (d : R) : Quat :=
  mkQuat (qx q / d) (qy q / d) (qz q / d) (qw q / d).

Definition zero_quat : Quat := mkQuat 0 0 0 0.

Definition unitq (q : Quat) : Prop := norm2 q = 1.

(** The three components of a scale are the same number. *)
Definition uniform (s : Vec3) : Prop := vx s = vy s /\ vy s = vz s.

(** A transform made of a rotation and a uniform scale. *)
Definition rigid (t : Transform) : Prop := unitq (rot t) /\ uniform (scl t).

(** [v] conjugated by [q], that is [q v q*], as a polynomial. *)
Definition sandwich (q : Quat) (v : Vec3) : Vec3 :=
  let d := qw q ^ 2 - qx q ^ 2 - qy q ^ 2 - qz q ^ 2 in
  let uv := qx q * vx v + qy q * vy v + qz q * vz v in
  mkVec3 (d * vx v + 2 * uv * qx q + 2 * qw q * (qy q * vz v - qz q * vy v))
         (d * vy v + 2 * uv * qy q + 2 * qw q * (qz q * vx v - qx q * vz v))
         (d * vz v + 2 * uv * qz q + 2 * qw q * (qx q * vy v - qy q * vx v)).

(** Equality up to a tolerance, component by component. *)
Definition close (eps a b : R) : Prop := Rabs (a - b) <= eps.

Definition vec3_close (eps : R) (a b : Vec3) : Prop :=
  close eps (vx a) (vx b) /\ close eps (vy a) (vy b) /\ close eps (vz a) (vz b).

Definition quat_close (eps : R) (a b : Quat) : Prop :=
  close eps (qx a) (qx b) /\ close eps (qy a) (qy b) /\
  close eps (qz a) (qz b) /\ close eps (qw a) (qw b).

Definition transform_close (eps : R) (s t : Transform) : Prop :=
  quat_close eps (rot s) (rot t) /\ vec3_close eps (pos s) (pos t) /\
  vec3_close eps (scl s) (scl t).

(** The tolerance of the tests. *)
Definition tolerance : R := 0.00001.

(** A rotation by a third of a turn about the diagonal: it sends the X axis
    to the Y axis, Y to Z and Z to X. *)
Definition turn_xyz : Quat := mkQuat 0.5 0.5 0.5 0.5.

(** Three transforms on which the two groupings of [fromMul] differ: a
    stretch along X, the rotation [turn_xyz], a step along X. *)
Definition stretch_x : Transform :=
  mkTransform Quat.identity Vec3.zero (mkVec3 2 1 1).

Definition turned : Transform :=
  mkTransform turn_xyz Vec3.zero (mkVec3 1 1 1).

Definition step_x : Transform :=
  mkTransform Quat.identity (mkVec3 1 0 0) (mkVec3 1 1 1).

(** A transform with a unit rotation and a scale that is not uniform. *)
Definition stretched_turn : Transform :=
  mkTransform turn_xyz (mkVec3 1 0 0) (mkVec3 2 1 1).

(** A transform with a unit rotation and a uniform scale. *)
Definition doubled_turn : Transform :=
  mkTransform turn_xyz (mkVec3 1 0 0) (mkVec3 2 2 2).

(** ** Poses *)

(** Every joint comes after its parent, as [fromSkeleton] builds them: a
    parent index is [-1] or the position of an earlier joint. *)
Definition ordered (js : list Joint) : Prop :=
  forall k j, nth_error js k = Some j ->
    pindex j = (-1)%Z \/ (0 <= pindex j < Z.of_nat k)%Z.

(** The offsets and every local transform are rotations by unit quaternions
    with a uniform scale. *)
Definition rigid_pose (p : Pose) : Prop :=
  rigid (rootOffset p) /\ rigid (poseOffset p) /\
  forall k j, nth_error (joints p) k = Some j -> rigid (local j).

(** The cached world transform of the joint at [k] is the one that
    [updateWorld] computes from the cache of its parent. *)
Definition consistent_at (p : Pose) (k : nat) : Prop :=
  forall j, nth_error (joints p) k = Some j ->
    if (pindex j =? -1)%Z then
      world j =
      Transform.mul (Transform.fromMul (rootOffset p) (poseOffset p)) (local j)
    else
      exists pj, array_get (joints p) (pindex j) = Some pj /\
                 world j = Transform.fromMul (world pj) (local j).

(** [q] is [p] up to the cached world transforms. *)
Definition same_locals (p q : Pose) : Prop :=
  srcPose q = srcPose p /\ nameIdx q = nameIdx p /\
  rootOffset q = rootOffset p /\ poseOffset q = poseOffset p /\
  length (joints q) = length (joints p) /\
  forall k j, nth_error (joints p) k = Some j ->
    exists w, nth_error (joints q) k = Some (Joint.with_world j w).

(** Four joints on three levels: the root is stretched along X, its child
    is turned by [turn_xyz], and the two joints below are a step along X
    away. *)
Definition chain_joint (name : string) (index pindex : Z) (l : Transform)
  : Joint :=
  mkJoint name index pindex false [] l Transform.identity 1%Z.

Definition sheared_pose : Pose :=
  mkPose None
         [("hips", 0); ("spine", 1); ("head", 2); ("arm", 3)]%string%Z
         [chain_joint "hips" 0 (-1) stretch_x;
          chain_joint "spine" 1 0 turned;
          chain_joint "head" 2 1 step_x;
          chain_joint "arm" 3 1 step_x]
         Transform.identity Transform.identity.

(** The cache of [sheared_pose] after [updateWorld], and the transform
    that [getWorld] returns for its joints 2 and 3. *)
Definition stretched_turned : Transform :=
  mkTransform turn_xyz Vec3.zero (mkVec3 2 1 1).

Definition sheared_far : Transform :=
  mkTransform turn_xyz (mkVec3 0 2 0) (mkVec3 2 1 1).

Definition sheared_near : Transform :=
  mkTransform turn_xyz (mkVec3 0 1 0) (mkVec3 2 1 1).

Definition turned_step : Transform :=
  mkTransform turn_xyz (mkVec3 0 1 0) (mkVec3 1 1 1).

Definition cached_joint (name : string) (index pindex : Z) (l w : Transform)
  : Joint :=
  mkJoint name index pindex false [] l w 1%Z.

Definition sheared_pose_updated : Pose :=
  mkPose None
         [("hips", 0); ("spine", 1); ("head", 2); ("arm", 3)]%string%Z
         [cached_joint "hips" 0 (-1) stretch_x stretch_x;
          cached_joint "spine" 1 0 turned stretched_turned;
          cached_joint "head" 2 1 step_x sheared_far;
          cached_joint "arm" 3 1 step_x sheared_far]
         Transform.identity Transform.identity.

(** The same hierarchy with rigid local transforms. *)
Definition rigid_chain_pose : Pose :=
  mkPose None
         [("hips", 0); ("spine", 1); ("head", 2); ("arm", 3)]%string%Z
         [chain_joint "hips" 0 (-1) doubled_turn;
          chain_joint "spine" 1 0 turned;
          chain_joint "head" 2 1 step_x;
          chain_joint "arm" 3 1 step_x]
         Transform.identity Transform.identity.

(** A pose with a single joint. *)
Definition lone_pose : Pose :=
  mkPose None [("hips", 0%Z)]%string
         [chain_joint "hips" 0 (-1) doubled_turn]
         Transform.identity Transform.identity.

(** [p'] is [p] up to the local rotation of the joint at [target]: every
    joint keeps its name, its links, its cache and the position and the
    scale of its local transform, and every joint but the one at [target]
    keeps its local rotation as well. *)
Definition only_rot_of (target : option Z) (p p' : Pose) : Prop :=
  srcPose p' = srcPose p /\ nameIdx p' = nameIdx p /\
  rootOffset p' = rootOffset p /\ poseOffset p' = poseOffset p /\
  length (joints p') = length (joints p) /\
  forall k j, array_get (joints p) k = Some j ->
    exists r,
      array_get (joints p') k =
        Some (Joint.with_local j
                (mkTransform r (pos (local j)) (scl (local j)))) /\
      (target <> Some k -> r = rot (local j)).

(** The index of the first joint of a chain of the target rig. *)
Definition first_joint (rig : option Rig) (name : string) : option Z :=
  match rig with
  | Some rig =>
      match Retargeter.chains_get (chains rig) name with
      | Some (itm :: _) => Some (RigItem.idx itm)
      | _ => None
      end
  | None => None
  end.

(** A call that leaves the state as it is. *)
Definition read_only {S A : Type} (m : M S A) : Prop :=
  forall s, state (m s) = s.

(** A heap with a bind pose and a working pose cloned from it, whose
    joint has been turned since. *)
Definition posed_clone : Pose :=
  mkPose (Some 0%nat) [("hips", 0%Z)]%string
         [chain_joint "hips" 0 (-1) turned]
         Transform.identity Transform.identity.

Definition studio : Heap := [lone_pose; posed_clone].

(** The frame of a call on a retargeter: the rig is the same, and the
    pose, when there is one, is the same up to the local rotation of the
    joint at [target]. *)
Definition retargeter_frame (target : option Z) (rt rt' : Retargeter) : Prop :=
  tarRig rt' = tarRig rt /\
  match pose rt, pose rt' with
  | Some p, Some p' => only_rot_of target p p'
  | None, None => True
  | _, _ => False
  end.

(** ** More vocabulary for quaternions and vectors *)

Definition qscale (k : R) (q : Quat) : Quat :=
  mkQuat (k * qx q) (k * qy q) (k * qz q) (k * qw q).

Definition vsub (a b : Vec3) : Vec3 :=
  mkVec3 (vx a - vx b) (vy a - vy b) (vz a - vz b).

(** The three axes of the frame. *)
Definition axis_x : Vec3 := mkVec3 1 0 0.
Definition axis_y : Vec3 := mkVec3 0 1 0.
Definition axis_z : Vec3 := mkVec3 0 0 1.

(** The transform that puts the origin at [v]. *)
Definition placed (v : Vec3) : Transform :=
  mkTransform Quat.identity v (mkVec3 1 1 1).

(** A pose whose only joint is its own parent. *)
Definition looped_pose : Pose :=
  mkPose None [("hips", 0%Z)]%string
         [chain_joint "hips" 0 0 turned]
         Transform.identity Transform.identity.

(** A pose whose second joint names a parent that is not there. *)
Definition dangling_pose : Pose :=
  mkPose None [("hips", 0); ("spine", 1)]%string%Z
         [chain_joint "hips" 0 (-1) turned;
          chain_joint "spine" 1 7 step_x]
         Transform.identity Transform.identity.

(** A heap whose working pose has one joint more than its source. *)
Definition long_clone : Pose :=
  mkPose (Some 0%nat) [("hips", 0); ("tail", 1)]%string%Z
         [chain_joint "hips" 0 (-1) turned;
          chain_joint "tail" 1 0 step_x]
         Transform.identity Transform.identity.

Definition short_studio : Heap := [lone_pose; long_clone].

(** ** Binary64 numbers near the ends of the range

    The square of [2^-600] underflows to 0.  The square of [2^-537] is
    [2^-1074], the least positive number, and the reciprocal of that
    overflows.  The square of [2^600] overflows. *)

Definition tiny_quat : Binary64.Quat := Binary64.mkQuat 0x1p-600 0 0 0.

Definition small_quat : Binary64.Quat := Binary64.mkQuat 0x1p-537 0 0 0.

Definition huge_quat : Binary64.Quat := Binary64.mkQuat 0x1p600 0 0 0.

Definition tiny_vec : Binary64.Vec3 := Binary64.mkVec3 0x1p-600 0 0.

Definition huge_vec : Binary64.Vec3 := Binary64.mkVec3 0x1p600 0 0.

Definition zero64 : Binary64.Quat := Binary64.mkQuat 0 0 0 0.

Definition identity64 : Binary64.Quat := Binary64.mkQuat 0 0 0 1.

(** The sum of squares that [invert], [pmulInvert] and [qInvert] compare
    with 0. *)
Definition computed_dot (q : Binary64.Quat) : float :=
  (Binary64.qx q * Binary64.qx q + Binary64.qy q * Binary64.qy q +
   Binary64.qz q * Binary64.qz q + Binary64.qw q * Binary64.qw q)%float.

(** ** Tables *)

(** The strings of a list are all different. *)
Fixpoint distinct (l : list string) : bool :=
  match l with
  | [] => true
  | x :: tl => negb (existsb (String.eqb x) tl) && distinct tl
  end.

(** The lines that the loop of [map_mixamo_bones] writes for the source
    bones [src]: one line for each source bone, in their order, whose
    name [BONE_MAP] pairs with the name of a target bone. *)
Definition mapped_lines (src tgt : list BoneMetadata) : list LogEntry :=
  flat_map
    (fun sb =>
       match MixamoMapper.BONE_MAP_get (bone_name sb) with
       | PropString t =>
           if existsb (String.eqb t) (map bone_name tgt)
           then [ConsoleLog ("Mapped: " ++ t ++ " -> " ++ bone_name sb)]
           else []
       | _ => []
       end)
    src.

(** ** Skeletons *)

(** The position of the first occurrence of a name. *)
Fixpoint index_of (s : string) (names : list string) : option nat :=
  match names with
  | [] => None
  | n :: tl =>
      if String.eqb n s then Some O
      else match index_of s tl with
           | Some k => Some (S k)
           | None => None
           end
  end.

(** The index that [fromSkeleton] gives to the parent of a bone: the
    position of the bone that has the name of the parent, or -1 for a
    bone whose parent is not a bone. *)
Definition parent_index (bones : list THREE.Bone) (b : THREE.Bone) : Z :=
  match THREE.parent b with
  | Some pb =>
      if THREE.isBone pb then
        match index_of (THREE.name pb) (map THREE.bone_name bones) with
        | Some m => Z.of_nat m
        | None => (-1)%Z
        end
      else (-1)%Z
  | None => (-1)%Z
  end.

Definition bone_local (b : THREE.Bone) : Transform :=
  mkTransform (THREE.quaternion b) (THREE.position b) (THREE.scale b).

(** The bones have different names, a parent that is a bone is one of
    the bones before, and the first bone has a parent object. *)
Definition well_formed (skel : THREE.Skeleton) : Prop :=
  NoDup (map THREE.bone_name (THREE.bones skel)) /\
  (forall k b pb,
     nth_error (THREE.bones skel) k = Some b ->
     THREE.parent b = Some pb -> THREE.isBone pb = true ->
     exists m b',
       (m < k)%nat /\ nth_error (THREE.bones skel) m = Some b' /\
       THREE.bone_name b' = THREE.name pb) /\
  exists b pb,
    nth_error (THREE.bones skel) 0 = Some b /\ THREE.parent b = Some pb.

(** The joint that [fromSkeleton] makes of the bone [b] at the index
    [k], up to its children and to its cache. *)
Definition joint_of (bones : list THREE.Bone) (k : nat) (b : THREE.Bone)
  (j : Joint) : Prop :=
  name j = THREE.bone_name b /\ index j = Z.of_nat k /\
  pindex j = parent_index bones b /\ local j = bone_local b /\
  isRoot j = false /\ idx j = 1%Z.

(** The state of the first loop of [fromSkeleton] after the bones [pre]. *)
Definition built (bones pre : list THREE.Bone) (p0 p : Pose) : Prop :=
  srcPose p = srcPose p0 /\ rootOffset p = rootOffset p0 /\
  poseOffset p = poseOffset p0 /\
  length (joints p) = length pre /\
  (forall s,
     Pose.nameIdx_get (nameIdx p) s =
     option_map Z.of_nat (index_of s (map THREE.bone_name pre))) /\
  forall k b, nth_error pre k = Some b ->
    exists j, nth_error (joints p) k = Some j /\ joint_of bones k b j /\
              world j = Transform.identity.

(** A skeleton of three bones under an armature. *)
Definition armature : THREE.Object3D :=
  THREE.mkObject3D false "Armature" (mkVec3 0 1 0) (mkVec3 1 1 1) turn_xyz.

Definition as_parent (n : string) : THREE.Object3D :=
  THREE.mkObject3D true n Vec3.zero (mkVec3 1 1 1) Quat.identity.

Definition biped : THREE.Skeleton :=
  THREE.mkSkeleton
    [THREE.mkBone "hips" Vec3.zero turn_xyz (mkVec3 2 2 2) (Some armature);
     THREE.mkBone "spine" (mkVec3 1 0 0) Quat.identity (mkVec3 1 1 1)
       (Some (as_parent "hips"));
     THREE.mkBone "head" (mkVec3 1 0 0) turn_xyz (mkVec3 1 1 1)
       (Some (as_parent "spine"))].

(** The bone [b] after [toSkeleton] wrote the local transform [l]. *)
Definition posed_bone (b : THREE.Bone) (l : Transform) : THREE.Bone :=
  THREE.mkBone (THREE.bone_name b) (pos l) (rot l) (scl l) (THREE.parent b).

(** A skeleton whose first bone names a parent bone that comes later. *)
Definition upside_down : THREE.Skeleton :=
  THREE.mkSkeleton
    [THREE.mkBone "spine" (mkVec3 1 0 0) Quat.identity (mkVec3 1 1 1)
       (Some (as_parent "hips"));
     THREE.mkBone "hips" Vec3.zero turn_xyz (mkVec3 2 2 2) (Some armature)].

(** ** Characters of a normalised name *)

(** A character that is neither an upper-case letter nor one of the
    separators [-], [.] and white space. *)
Definition plain_char (c : ascii) : bool :=
  negb (JsString.between 65 90 c) &&
  negb (Ascii.eqb c "-" || Ascii.eqb c "." || Regex.is_space c).

Definition plain (l : list ascii) : Prop := Forall (fun c => plain_char c = true) l.

(** What the matcher keeps true: the text still to read and the text of
    the capture group are plain. *)
Definition plain_position (st : Regex.position) : Prop :=
  plain (Regex.rest st) /\ plain (Regex.group1 st).

(** The dot product of two quaternions. *)
Definition quat_dot (a b : Quat) : R :=
  qx a * qx b + qy a * qy b + qz a * qz b + qw a * qw b.

(** The transform that [transformVec3Rev] is written for: the opposite
    translation, the inverse rotation and the inverse scale. *)
Definition reversed (t : Transform) : Transform :=
  mkTransform (Transform.qInvert (rot t)) (Vec3.negate (pos t))
    (mkVec3 (1 / vx (scl t)) (1 / vy (scl t)) (1 / vz (scl t))).

(** ** Chains *)

(** The direction that [fromQuat] turns: the twist of the rig item, or
    [(0, 0, 1)] when the item has none. *)
Definition twist_of (tw : option Vec3) : Vec3 :=
  match tw with
  | Some v => v
  | None => mkVec3 0 0 1
  end.

(** A rig with one chain of one joint, the joint of [lone_pose]. *)
Definition spine_rig : Rig :=
  mkRig [("hips"%string, [RigItem.mk 0 (-1) (Some axis_y)])].

(** ** Underscores of a normalised name *)

Definition is_underscore (c : ascii) : bool := Ascii.eqb c "_".

Definition starts_underscore (l : list ascii) : bool :=
  match l with
  | c :: _ => is_underscore c
  | [] => false
  end.

Fixpoint ends_underscore (l : list ascii) : bool :=
  match l with
  | [] => false
  | c :: tl =>
      match tl with
      | [] => is_underscore c
      | _ :: _ => ends_underscore tl
      end
  end.

(** No two underscores in a row. *)
Fixpoint no_double (l : list ascii) : bool :=
  match l with
  | [] => true
  | c :: tl => negb (is_underscore c && starts_underscore tl) && no_double tl
  end.

(** The text after the underscores it starts with. *)
Fixpoint drop_underscores (l : list ascii) : list ascii :=
  match l with
  | [] => []
  | c :: tl => if is_underscore c then drop_underscores tl else l
  end.

(** The text without the underscore it ends with, if any. *)
Fixpoint strip_end (l : list ascii) : list ascii :=
  match l with
  | [] => []
  | c :: tl =>
      match tl with
      | [] => if is_underscore c then [] else [c]
      | _ :: _ => c :: strip_end tl
      end
  end.

(** A name in normal form: no underscore at either end, no two in a
    row. *)
Definition tidy (l : list ascii) : Prop :=
  no_double l = true /\ starts_underscore l = false /\
  ends_underscore l = false.


(** * Properties *)

(** ** Algebra of the transforms *)

Ltac unfold_algebra :=
  unfold Transform.fromMul, Transform.mul, Transform.pmul, Transform.copy,
    Transform.identity, Quat.identity, Vec3.zero,
    Transform.qTransform, Transform.qMul,
    vadd, vscale, hadamard, sandwich, norm2, conjugate, qdiv.

Ltac vec3_ring := unfold_algebra; cbn; f_equal; ring.

Lemma transform_eq (s t : Transform) :
  rot s = rot t -> pos s = pos t -> scl s = scl t -> s = t.
Proof. destruct s, t; cbn; congruence. Qed.

(** Equality of two transforms whose components are numerals. *)
Ltac transform_lra :=
  apply transform_eq; unfold_algebra; cbn [rot pos scl qx qy qz qw vx vy vz];
  f_equal; lra.

Lemma qTransform_sandwich (q : Quat) (v : Vec3) :
  Transform.qTransform q v = vadd (sandwich q v) (vscale (1 - norm2 q) v).
Proof. destruct q, v. vec3_ring. Qed.

Lemma sandwich_qMul (a b : Quat) (v : Vec3) :
  sandwich (Transform.qMul a b) v = sandwich a (sandwich b v).
Proof. destruct a, b, v. vec3_ring. Qed.

Lemma norm2_qMul (a b : Quat) :
  norm2 (Transform.qMul a b) = norm2 a * norm2 b.
Proof. destruct a, b. unfold_algebra; cbn. ring. Qed.

Lemma unitq_qMul (a b : Quat) :
  unitq a -> unitq b -> unitq (Transform.qMul a b).
Proof. unfold unitq. intros Ha Hb. rewrite norm2_qMul, Ha, Hb. ring. Qed.

Lemma qTransform_unit (q : Quat) (v : Vec3) :
  unitq q -> Transform.qTransform q v = sandwich q v.
Proof.
  intros H. rewrite qTransform_sandwich, H.
  destruct (sandwich q v), v. vec3_ring.
Qed.

(** With unit quaternions [qTransform] is an action of the product. *)
Lemma qTransform_qMul (a b : Quat) (v : Vec3) :
  unitq a -> unitq b ->
  Transform.qTransform (Transform.qMul a b) v =
  Transform.qTransform a (Transform.qTransform b v).
Proof.
  intros Ha Hb.
  rewrite (qTransform_unit a _ Ha), (qTransform_unit b _ Hb).
  rewrite qTransform_unit by (apply unitq_qMul; assumption).
  apply sandwich_qMul.
Qed.

Lemma qTransform_vadd (q : Quat) (u v : Vec3) :
  Transform.qTransform q (vadd u v) =
  vadd (Transform.qTransform q u) (Transform.qTransform q v).
Proof. destruct q, u, v. vec3_ring. Qed.

Lemma qTransform_vscale (q : Quat) (s : R) (v : Vec3) :
  Transform.qTransform q (vscale s v) = vscale s (Transform.qTransform q v).
Proof. destruct q, v. vec3_ring. Qed.

Lemma qMul_assoc (a b c : Quat) :
  Transform.qMul (Transform.qMul a b) c = Transform.qMul a (Transform.qMul b c).
Proof. destruct a, b, c. vec3_ring. Qed.

Lemma vscale_vadd (s : R) (u v : Vec3) :
  vscale s (vadd u v) = vadd (vscale s u) (vscale s v).
Proof. destruct u, v. vec3_ring. Qed.

Lemma vadd_assoc (u v w : Vec3) : vadd (vadd u v) w = vadd u (vadd v w).
Proof. destruct u, v, w. vec3_ring. Qed.

Lemma hadamard_assoc (u v w : Vec3) :
  hadamard (hadamard u v) w = hadamard u (hadamard v w).
Proof. destruct u, v, w. vec3_ring. Qed.

Lemma hadamard_vscale (s : R) (u v : Vec3) :
  hadamard (vscale s u) v = vscale s (hadamard u v).
Proof. destruct u, v. vec3_ring. Qed.

Lemma hadamard_uniform (s v : Vec3) :
  uniform s -> hadamard s v = vscale (vx s) v.
Proof. destruct s, v. unfold uniform; cbn. intros [-> ->]. reflexivity. Qed.

Lemma uniform_hadamard (s t : Vec3) :
  uniform s -> uniform t -> uniform (hadamard s t).
Proof.
  destruct s, t. unfold uniform; cbn. intros [-> ->] [-> ->]. split; reflexivity.
Qed.

Lemma fromMul_rot (p c : Transform) :
  rot (Transform.fromMul p c) = Transform.qMul (rot p) (rot c).
Proof. reflexivity. Qed.

Lemma fromMul_pos (p c : Transform) :
  pos (Transform.fromMul p c) =
  vadd (pos p) (Transform.qTransform (rot p) (hadamard (scl p) (pos c))).
Proof. reflexivity. Qed.

Lemma fromMul_scl (p c : Transform) :
  scl (Transform.fromMul p c) = hadamard (scl p) (scl c).
Proof. reflexivity. Qed.

Lemma rigid_fromMul (p c : Transform) :
  rigid p -> rigid c -> rigid (Transform.fromMul p c).
Proof.
  intros [Hp Sp] [Hc Sc]. split.
  - rewrite fromMul_rot. apply unitq_qMul; assumption.
  - rewrite fromMul_scl. apply uniform_hadamard; assumption.
Qed.

(** The in-place operators agree with [fromMul]. *)
Lemma mul_fromMul (this tran : Transform) :
  Transform.mul this tran = Transform.fromMul this tran.
Proof. reflexivity. Qed.

Lemma pmul_fromMul (this tran : Transform) :
  Transform.pmul this tran = Transform.fromMul tran this.
Proof.
  destruct this as [[] [] []], tran as [[] [] []].
  apply transform_eq; unfold_algebra; cbn; try reflexivity; f_equal; ring.
Qed.

Lemma copy_id (t : Transform) : Transform.copy t = t.
Proof. destruct t as [[] [] []]. reflexivity. Qed.

Lemma fromMul_identity_r (t : Transform) :
  Transform.fromMul t Transform.identity = t.
Proof.
  destruct t as [[] [] []].
  apply transform_eq; unfold_algebra; cbn; f_equal; ring.
Qed.

Lemma fromMul_identity_l (t : Transform) :
  Transform.fromMul Transform.identity t = t.
Proof.
  destruct t as [[] [] []].
  apply transform_eq; unfold_algebra; cbn; f_equal; ring.
Qed.

(** Associativity of [fromMul] for rotations by unit quaternions under a
    uniform scale of the outer transform, in exact arithmetic. *)
Lemma fromMul_assoc_rigid (A B C : Transform) :
  unitq (rot A) -> unitq (rot B) -> uniform (scl A) ->
  Transform.fromMul (Transform.fromMul A B) C =
  Transform.fromMul A (Transform.fromMul B C).
Proof.
  intros Ha Hb Hs. apply transform_eq.
  - rewrite !fromMul_rot. apply qMul_assoc.
  - rewrite !fromMul_pos, !fromMul_rot, !fromMul_scl.
    rewrite (qTransform_qMul _ _ _ Ha Hb).
    rewrite !(hadamard_uniform _ _ Hs).
    rewrite hadamard_vscale, vscale_vadd, !qTransform_vadd, !qTransform_vscale.
    apply vadd_assoc.
  - rewrite !fromMul_scl. apply hadamard_assoc.
Qed.

Lemma close_elim (eps a b : R) : close eps a b -> a - b <= eps.
Proof.
  unfold close. intros H. pose proof (Rle_abs (a - b)). lra.
Qed.

(** The two groupings of [stretch_x], [turned] and [step_x], one product
    at a time. *)
Lemma fromMul_stretch_turned :
  Transform.fromMul stretch_x turned = stretched_turned.
Proof. unfold stretch_x, turned, stretched_turned, turn_xyz. transform_lra. Qed.

Lemma fromMul_stretched_step :
  Transform.fromMul stretched_turned step_x = sheared_far.
Proof. unfold stretched_turned, step_x, sheared_far, turn_xyz. transform_lra. Qed.

Lemma fromMul_turned_step : Transform.fromMul turned step_x = turned_step.
Proof. unfold turned, step_x, turned_step, turn_xyz. transform_lra. Qed.

Lemma fromMul_stretch_turned_step :
  Transform.fromMul stretch_x turned_step = sheared_near.
Proof. unfold stretch_x, turned_step, sheared_near, turn_xyz. transform_lra. Qed.

Lemma sheared_not_close : ~ transform_close tolerance sheared_near sheared_far.
Proof.
  intros (_ & (_ & Hy & _) & _). unfold close, tolerance in Hy.
  cbn [pos vy sheared_near sheared_far] in Hy.
  replace (1 - 2) with (- (1)) in Hy by ring.
  rewrite Rabs_Ropp, Rabs_R1 in Hy. lra.
Qed.

(** C2, as stated, fails: with a stretch along X, the rotation that sends
    X to Y, and a step along X, [fromMul (fromMul A B) C] puts the origin at
    (0, 2, 0) and [fromMul A (fromMul B C)] at (0, 1, 0). *)
Lemma fromMul_not_associative :
  Transform.fromMul (Transform.fromMul stretch_x turned) step_x =
    mkTransform turn_xyz (mkVec3 0 2 0) (mkVec3 2 1 1) /\
  Transform.fromMul stretch_x (Transform.fromMul turned step_x) =
    mkTransform turn_xyz (mkVec3 0 1 0) (mkVec3 2 1 1) /\
  ~ transform_close tolerance
      (Transform.fromMul stretch_x (Transform.fromMul turned step_x))
      (Transform.fromMul (Transform.fromMul stretch_x turned) step_x).
Proof.
  rewrite fromMul_stretch_turned, fromMul_stretched_step.
  rewrite fromMul_turned_step, fromMul_stretch_turned_step.
  split; [reflexivity |]. split; [reflexivity |]. exact sheared_not_close.
Qed.

(** C2, amended: when the rotations of [A] and [B] are unit quaternions and
    the scale of [A] is uniform, [fromMul (fromMul A B) C] and
    [fromMul A (fromMul B C)] are the same transform in exact arithmetic,
    hence within every tolerance. *)
Theorem fromMul_associative (A B C : Transform) :
  unitq (rot A) -> unitq (rot B) -> uniform (scl A) ->
  Transform.fromMul (Transform.fromMul A B) C =
    Transform.fromMul A (Transform.fromMul B C) /\
  transform_close tolerance
    (Transform.fromMul (Transform.fromMul A B) C)
    (Transform.fromMul A (Transform.fromMul B C)).
Proof.
  intros Ha Hb Hs.
  pose proof (fromMul_assoc_rigid A B C Ha Hb Hs) as E.
  split; [exact E |]. rewrite E.
  assert (Hc : forall x, close tolerance x x).
  { intros x. unfold close, tolerance.
    replace (x - x) with 0 by ring. rewrite Rabs_R0. lra. }
  repeat split; apply Hc.
Qed.

(** The amended C2 at two copies of the rotation [turn_xyz] and a step. *)
Lemma fromMul_associative_witness :
  unitq (rot turned) /\ uniform (scl turned) /\
  Transform.fromMul (Transform.fromMul turned turned) step_x =
  Transform.fromMul turned (Transform.fromMul turned step_x).
Proof.
  assert (U : unitq (rot turned)).
  { unfold unitq, norm2, turned, turn_xyz; cbn. lra. }
  assert (S : uniform (scl turned)) by (split; reflexivity).
  split; [exact U | split; [exact S |]].
  exact (proj1 (fromMul_associative turned turned step_x U U S)).
Defined.

(** ** Inversion *)

Lemma dot_norm2 (q : Quat) :
  qx q * qx q + qy q * qy q + qz q * qz q + qw q * qw q = norm2 q.
Proof. unfold norm2. ring. Qed.

Lemma qInvert_nonzero (q : Quat) :
  norm2 q <> 0 -> Transform.qInvert q = qdiv (conjugate q) (norm2 q).
Proof.
  intros H. unfold Transform.qInvert. cbv zeta.
  rewrite dot_norm2. destruct (Req_dec_T (norm2 q) 0) as [E | _]; [tauto |].
  unfold qdiv, conjugate; cbn. f_equal; field; exact H.
Qed.

Lemma qInvert_zero (q : Quat) :
  norm2 q = 0 -> Transform.qInvert q = zero_quat.
Proof.
  intros H. unfold Transform.qInvert. cbv zeta.
  rewrite dot_norm2. destruct (Req_dec_T (norm2 q) 0) as [_ | N]; [reflexivity | tauto].
Qed.

Lemma qInvert_unit (q : Quat) : unitq q -> Transform.qInvert q = conjugate q.
Proof.
  intros H. rewrite qInvert_nonzero by (rewrite H; lra).
  rewrite H. unfold qdiv. destruct (conjugate q); cbn. f_equal; field.
Qed.

Lemma unitq_conjugate (q : Quat) : unitq q -> unitq (conjugate q).
Proof.
  unfold unitq, norm2, conjugate; cbn [qx qy qz qw]. intros H. rewrite <- H. ring.
Qed.

Lemma qMul_conjugate (q : Quat) :
  unitq q -> Transform.qMul q (conjugate q) = Quat.identity.
Proof.
  destruct q. unfold unitq, norm2, conjugate, Transform.qMul, Quat.identity; cbn.
  intros H. f_equal; try ring. nra.
Qed.

Lemma qTransform_identity (v : Vec3) :
  Transform.qTransform Quat.identity v = v.
Proof. destruct v. vec3_ring. Qed.

(** C8, as stated, fails on the numbers of the run time.  The quaternion
    [(2^-600, 0, 0, 0)] is not zero, but the product [2^-600 * 2^-600] is
    0 in binary64: [invert] and [qInvert] take the branch of the zero
    quaternion, [invert] with its warning, where the conjugate over the
    squared magnitude is [(-2^600, 0, 0, 0)], a quaternion of binary64
    numbers.  For [(2^-537, 0, 0, 0)] the computed sum of squares is
    [2^-1074] and not 0, its reciprocal is infinite, and the result is
    [(-Infinity, NaN, NaN, NaN)]. *)
Lemma invert_underflow :
  (0x1p-600 =? 0)%float = false /\
  (0x1p-600 * 0x1p600)%float = 1%float /\
  Binary64.Quat.invert tiny_quat =
    (zero64,
     [ConsoleWarn "Quat.invert(): zero length quaternion, cannot invert."]) /\
  Binary64.Transform.qInvert tiny_quat = zero64 /\
  Binary64.Quat.invert small_quat =
    (Binary64.mkQuat neg_infinity nan nan nan, []) /\
  Binary64.Transform.qInvert small_quat =
    Binary64.mkQuat neg_infinity nan nan nan.
Proof. repeat split; vm_compute; reflexivity. Qed.

Lemma qMul_qdiv_conjugate (q : Quat) :
  norm2 q <> 0 ->
  Quat.mul q (qdiv (conjugate q) (norm2 q)) = Quat.identity /\
  Quat.mul (qdiv (conjugate q) (norm2 q)) q = Quat.identity.
Proof.
  intros H. destruct q as [x y z w].
  unfold norm2, qdiv, conjugate, Quat.mul, Quat.identity in *.
  cbn [qx qy qz qw] in *. split; f_equal; field; exact H.
Qed.

(** C8, amended.  In exact arithmetic [Quat.invert] and the helper
    [qInvert] of [Transform] are total: on a quaternion of squared
    magnitude 0 they yield the all-zero quaternion, not the identity,
    [Quat.invert] after a warning; on every other quaternion they yield
    the conjugate divided by the squared magnitude and write nothing,
    and that quaternion is the inverse for [mul] on both sides.  On
    binary64 numbers both return for every quaternion [f] as well, and
    what decides is the sum of squares as it is computed: when it is 0
    they yield the all-zero quaternion, [Quat.invert] after the warning,
    and otherwise the components of the conjugate times the computed
    reciprocal of that sum, which is never the reciprocal of 0. *)
Theorem invert_total (q : Quat) (f : Binary64.Quat) :
  (norm2 q = 0 ->
   Quat.invert q =
     (zero_quat,
      [ConsoleWarn "Quat.invert(): zero length quaternion, cannot invert."]) /\
   Transform.qInvert q = zero_quat) /\
  (norm2 q <> 0 ->
   Quat.invert q = (qdiv (conjugate q) (norm2 q), []) /\
   Transform.qInvert q = qdiv (conjugate q) (norm2 q) /\
   Quat.mul q (qdiv (conjugate q) (norm2 q)) = Quat.identity /\
   Quat.mul (qdiv (conjugate q) (norm2 q)) q = Quat.identity) /\
  ((computed_dot f =? 0)%float = true ->
   Binary64.Quat.invert f =
     (zero64,
      [ConsoleWarn "Quat.invert(): zero length quaternion, cannot invert."]) /\
   Binary64.Transform.qInvert f = zero64) /\
  ((computed_dot f =? 0)%float = false ->
   let r := (1 / computed_dot f)%float in
   Binary64.Quat.invert f =
     (Binary64.mkQuat (- Binary64.qx f * r) (- Binary64.qy f * r)
                      (- Binary64.qz f * r) (Binary64.qw f * r), []) /\
   Binary64.Transform.qInvert f =
     Binary64.mkQuat (- Binary64.qx f * r) (- Binary64.qy f * r)
                     (- Binary64.qz f * r) (Binary64.qw f * r)).
Proof.
  split; [| split; [| split]]; intros H.
  - split; [| apply qInvert_zero; exact H].
    unfold Quat.invert. cbv zeta. rewrite dot_norm2.
    destruct (Req_dec_T (norm2 q) 0) as [_ | N]; [reflexivity | tauto].
  - split; [| split; [apply qInvert_nonzero; exact H |
                      apply qMul_qdiv_conjugate; exact H]].
    unfold Quat.invert. cbv zeta. rewrite dot_norm2.
    destruct (Req_dec_T (norm2 q) 0) as [E | _]; [tauto |].
    unfold qdiv, conjugate; cbn. f_equal. f_equal; field; exact H.
  - unfold Binary64.Quat.invert, Binary64.Transform.qInvert. cbv zeta.
    fold (computed_dot f). rewrite H. split; reflexivity.
  - cbv zeta.
    unfold Binary64.Quat.invert, Binary64.Transform.qInvert. cbv zeta.
    fold (computed_dot f). rewrite H. split; reflexivity.
Qed.

(** The amended C8 at a quaternion of magnitude 2 and at the zero
    quaternion, and on binary64 at a quaternion whose squares underflow
    and at the quaternion [(0, 0, 0, 2)]. *)
Lemma invert_total_witness :
  norm2 (mkQuat 0 0 0 2) <> 0 /\
  Quat.invert (mkQuat 0 0 0 2) =
    (qdiv (conjugate (mkQuat 0 0 0 2)) (norm2 (mkQuat 0 0 0 2)), []) /\
  norm2 zero_quat = 0 /\
  Transform.qInvert zero_quat = zero_quat /\
  (computed_dot tiny_quat =? 0)%float = true /\
  Binary64.Transform.qInvert tiny_quat = zero64 /\
  (computed_dot (Binary64.mkQuat 0 0 0 2) =? 0)%float = false /\
  Binary64.Transform.qInvert (Binary64.mkQuat 0 0 0 2) =
    Binary64.mkQuat (-0) (-0) (-0) 0.5.
Proof.
  assert (N : norm2 (mkQuat 0 0 0 2) <> 0) by (unfold norm2; cbn; lra).
  assert (Z : norm2 zero_quat = 0) by (unfold norm2, zero_quat; cbn; lra).
  split; [exact N |].
  split; [exact (proj1 (proj1 (proj2 (invert_total (mkQuat 0 0 0 2) zero64))
                          N)) |].
  split; [exact Z |].
  split; [exact (proj2 (proj1 (invert_total zero_quat zero64) Z)) |].
  split; [reflexivity |].
  split;
    [exact (proj2 (proj1 (proj2 (proj2 (invert_total zero_quat tiny_quat)))
                     eq_refl)) |].
  split; [reflexivity |].
  exact (proj2 (proj2 (proj2 (proj2
           (invert_total zero_quat (Binary64.mkQuat 0 0 0 2)))) eq_refl)).
Defined.

(** C3, as stated, fails: for the rotation [turn_xyz] at position (1, 0, 0)
    with scale (2, 1, 1), no component of which is 0,
    [fromMul (T, fromInvert (T))] sits at (0.5, 0, 0) and not at the
    origin. *)
Lemma fromInvert_not_inverse :
  pos (Transform.fromMul stretched_turn (Transform.fromInvert stretched_turn)) =
    mkVec3 0.5 0 0 /\
  ~ transform_close tolerance
      (Transform.fromMul stretched_turn (Transform.fromInvert stretched_turn))
      Transform.identity.
Proof.
  assert (U : unitq turn_xyz) by (unfold unitq, norm2, turn_xyz; cbn; lra).
  assert (H : pos (Transform.fromMul stretched_turn
                     (Transform.fromInvert stretched_turn)) = mkVec3 0.5 0 0).
  { unfold Transform.fromInvert, stretched_turn. cbn [rot pos scl].
    rewrite (qInvert_unit _ U).
    unfold turn_xyz. unfold_algebra; cbn. f_equal; lra. }
  split; [exact H |].
  intros (_ & (Hx & _) & _). rewrite H in Hx. apply close_elim in Hx.
  unfold tolerance in Hx; cbn in Hx. lra.
Qed.

Lemma uniform_nonzero (s : Vec3) :
  uniform s -> vx s <> 0 -> vy s <> 0 /\ vz s <> 0.
Proof. intros [E1 E2] H. rewrite <- E2, <- E1. tauto. Qed.

Lemma fromInvert_rigid (T : Transform) :
  unitq (rot T) -> uniform (scl T) -> vx (scl T) <> 0 ->
  Transform.fromMul T (Transform.fromInvert T) = Transform.identity.
Proof.
  intros U S N. destruct (uniform_nonzero _ S N) as [Ny Nz].
  apply transform_eq.
  - rewrite fromMul_rot. unfold Transform.fromInvert; cbn [rot].
    rewrite (qInvert_unit _ U). apply qMul_conjugate, U.
  - rewrite fromMul_pos. unfold Transform.fromInvert; cbn [rot pos scl vx vy vz].
    rewrite (qInvert_unit _ U), (hadamard_uniform _ _ S).
    rewrite <- qTransform_vscale, <- qTransform_qMul by auto using unitq_conjugate.
    rewrite (qMul_conjugate _ U), qTransform_identity.
    destruct S as [S1 S2]. destruct T as [q [px py pz] [sx sy sz]]; cbn in *.
    subst sy sz. unfold vadd, vscale, Transform.identity, Vec3.zero; cbn.
    f_equal; field; exact N.
  - rewrite fromMul_scl. unfold Transform.fromInvert; cbn [scl].
    destruct T as [q p [sx sy sz]]; cbn in *.
    unfold hadamard, Transform.identity; cbn. f_equal; field; assumption.
Qed.

(** C3, amended: for a transform whose rotation is a unit quaternion and
    whose scale is uniform and not 0, [fromMul (T, fromInvert (T))] is the
    identity transform in exact arithmetic, hence within every tolerance. *)
Theorem fromInvert_roundtrip (T : Transform) :
  unitq (rot T) -> uniform (scl T) -> vx (scl T) <> 0 ->
  Transform.fromMul T (Transform.fromInvert T) = Transform.identity /\
  transform_close tolerance
    (Transform.fromMul T (Transform.fromInvert T)) Transform.identity.
Proof.
  intros U S N. pose proof (fromInvert_rigid T U S N) as E.
  split; [exact E |]. rewrite E.
  assert (Hc : forall x, close tolerance x x).
  { intros x. unfold close, tolerance.
    replace (x - x) with 0 by ring. rewrite Rabs_R0. lra. }
  repeat split; apply Hc.
Qed.

(** The amended C3 at the rotation [turn_xyz] with scale (2, 2, 2). *)
Lemma fromInvert_roundtrip_witness :
  unitq (rot doubled_turn) /\ uniform (scl doubled_turn) /\
  vx (scl doubled_turn) <> 0 /\
  Transform.fromMul doubled_turn (Transform.fromInvert doubled_turn) =
    Transform.identity.
Proof.
  assert (U : unitq (rot doubled_turn)).
  { unfold unitq, norm2, doubled_turn, turn_xyz; cbn. lra. }
  assert (S : uniform (scl doubled_turn)) by (split; reflexivity).
  assert (N : vx (scl doubled_turn) <> 0) by (cbn; lra).
  split; [exact U | split; [exact S | split; [exact N |]]].
  exact (proj1 (fromInvert_roundtrip doubled_turn U S N)).
Defined.

(** ** Swing between opposite directions *)

Lemma lenSqr_nonneg (v : Vec3) : 0 <= Vec3.lenSqr v.
Proof. unfold Vec3.lenSqr. nra. Qed.

Lemma len_sqrt (v : Vec3) : Vec3.len v = sqrt (Vec3.lenSqr v).
Proof. reflexivity. Qed.

Lemma len_sqr (v : Vec3) : Vec3.len v * Vec3.len v = Vec3.lenSqr v.
Proof. rewrite len_sqrt. apply sqrt_sqrt, lenSqr_nonneg. Qed.

Lemma len_nonneg (v : Vec3) : 0 <= Vec3.len v.
Proof. rewrite len_sqrt. apply sqrt_pos. Qed.

Lemma len_nonzero (v : Vec3) : 0 < Vec3.lenSqr v -> Vec3.len v <> 0.
Proof.
  intros H E. pose proof (len_sqr v) as S. rewrite E in S. lra.
Qed.

(** [norm] divides by the length when it is not 0. *)
Lemma norm_scaled (v : Vec3) :
  Vec3.len v <> 0 -> Vec3.norm v = vscale (1 / Vec3.len v) v.
Proof.
  intros H. unfold Vec3.norm. cbv zeta. fold (Vec3.len v).
  destruct (Req_dec_T (Vec3.len v) 0) as [E | _]; [tauto |].
  unfold vscale. f_equal; ring.
Qed.

Lemma lenSqr_vscale (s : R) (v : Vec3) :
  Vec3.lenSqr (vscale s v) = s * s * Vec3.lenSqr v.
Proof. unfold Vec3.lenSqr, vscale; cbn [vx vy vz]. ring. Qed.

Lemma norm_unit (v : Vec3) :
  Vec3.len v <> 0 -> Vec3.lenSqr (Vec3.norm v) = 1.
Proof.
  intros H. rewrite (norm_scaled v H), lenSqr_vscale, <- len_sqr.
  field. exact H.
Qed.

Lemma dot_vscale (s : R) (u v : Vec3) :
  Vec3.dot (vscale s u) v = s * Vec3.dot u v.
Proof. unfold Vec3.dot, vscale; cbn [vx vy vz]. ring. Qed.

Lemma norm_orthogonal (v a : Vec3) :
  Vec3.len v <> 0 -> Vec3.dot v a = 0 -> Vec3.dot (Vec3.norm v) a = 0.
Proof.
  intros H D. rewrite (norm_scaled v H), dot_vscale, D. ring.
Qed.

Lemma sin_half_turn : sin (PI * 0.5) = 1.
Proof. replace (PI * 0.5) with (PI / 2) by lra. apply sin_PI2. Qed.

Lemma cos_half_turn : cos (PI * 0.5) = 0.
Proof. replace (PI * 0.5) with (PI / 2) by lra. apply cos_PI2. Qed.

(** A half turn about a unit axis [n] reverses the vectors orthogonal to
    [n]. *)
Lemma half_turn (n a : Vec3) :
  Vec3.lenSqr n = 1 -> Vec3.dot n a = 0 ->
  let q := Quat.fromAxisAngle n PI in
  norm2 q = 1 /\ Vec3.transformQuat a q = Vec3.negate a /\ qw q = 0 /\
  Vec3.dot (mkVec3 (qx q) (qy q) (qz q)) a = 0.
Proof.
  intros L D q. subst q. unfold Quat.fromAxisAngle. cbv zeta.
  rewrite sin_half_turn, cos_half_turn.
  destruct n as [nx ny nz], a as [ax ay az].
  unfold Vec3.lenSqr, Vec3.dot, norm2, Vec3.transformQuat, Vec3.negate in *.
  cbn [vx vy vz qx qy qz qw] in *.
  assert (Dx := f_equal (Rmult nx) D). assert (Dy := f_equal (Rmult ny) D).
  assert (Dz := f_equal (Rmult nz) D).
  assert (Lx := f_equal (Rmult ax) L). assert (Ly := f_equal (Rmult ay) L).
  assert (Lz := f_equal (Rmult az) L).
  split; [lra |]. split; [f_equal; lra |]. split; [reflexivity | lra].
Qed.

Lemma dot_negate (a : Vec3) : Vec3.dot a (Vec3.negate a) = - Vec3.lenSqr a.
Proof. unfold Vec3.dot, Vec3.negate, Vec3.lenSqr; cbn [vx vy vz]. ring. Qed.

Lemma len_small (v : Vec3) (c : R) :
  0 < c -> Vec3.len v < c -> Vec3.lenSqr v < c * c.
Proof.
  intros Hc H. rewrite <- len_sqr. pose proof (len_nonneg v). nra.
Qed.

Lemma dot_fromCross (b a : Vec3) : Vec3.dot (Vec3.fromCross b a) a = 0.
Proof.
  unfold Vec3.dot, Vec3.fromCross; cbn [vx vy vz]. ring.
Qed.

(** C9: for every unit vector [a], [fromSwing (a, -a)] is a unit
    quaternion that sends [a] to [-a]: a half turn (its scalar part is 0)
    about an axis orthogonal to [a].  The axis that is normalised is never
    the zero vector, also when [a] lies along the X axis and the first
    cross product vanishes. *)
Theorem fromSwing_opposite (a : Vec3) :
  Vec3.len a = 1 ->
  let q := Quat.fromSwing a (Vec3.negate a) in
  norm2 q = 1 /\ Vec3.transformQuat a q = Vec3.negate a /\ qw q = 0 /\
  Vec3.dot (mkVec3 (qx q) (qy q) (qz q)) a = 0.
Proof.
  intros La.
  assert (Ls : Vec3.lenSqr a = 1) by (rewrite <- len_sqr, La; ring).
  unfold Quat.fromSwing. cbv zeta. rewrite dot_negate, Ls.
  destruct (Rlt_dec (- (1)) (-0.999999)) as [_ | N]; [| exfalso; lra].
  destruct (Rlt_dec (Vec3.len (Vec3.fromCross (mkVec3 (-1) 0 0) a)) 0.000001)
    as [S | S].
  - apply half_turn.
    + apply norm_unit, len_nonzero.
      apply len_small in S; [| lra].
      destruct a as [ax ay az]. unfold Vec3.lenSqr, Vec3.fromCross in *.
      cbn [vx vy vz] in *. nra.
    + apply norm_orthogonal; [| apply dot_fromCross].
      apply len_nonzero.
      apply len_small in S; [| lra].
      destruct a as [ax ay az]. unfold Vec3.lenSqr, Vec3.fromCross in *.
      cbn [vx vy vz] in *. nra.
  - assert (Nz : Vec3.len (Vec3.fromCross (mkVec3 (-1) 0 0) a) <> 0) by lra.
    apply half_turn.
    + apply norm_unit, Nz.
    + apply norm_orthogonal; [exact Nz | apply dot_fromCross].
Qed.

(** C9 along the X axis, where the cross product with the X axis is 0. *)
Lemma fromSwing_opposite_witness :
  Vec3.len (mkVec3 1 0 0) = 1 /\
  Vec3.transformQuat (mkVec3 1 0 0)
    (Quat.fromSwing (mkVec3 1 0 0) (Vec3.negate (mkVec3 1 0 0))) =
  Vec3.negate (mkVec3 1 0 0).
Proof.
  assert (L : Vec3.len (mkVec3 1 0 0) = 1).
  { unfold Vec3.len; cbn [vx vy vz].
    replace (1 ^ 2 + 0 ^ 2 + 0 ^ 2) with 1 by ring. apply sqrt_1. }
  split; [exact L |].
  exact (proj1 (proj2 (fromSwing_opposite (mkVec3 1 0 0) L))).
Defined.

(** Along the X axis the swing is the half turn about the Z axis. *)
Lemma fromSwing_x_axis :
  Quat.fromSwing (mkVec3 1 0 0) (Vec3.negate (mkVec3 1 0 0)) =
  mkQuat 0 0 (-1) 0.
Proof.
  unfold Quat.fromSwing. cbv zeta.
  unfold Vec3.dot, Vec3.negate; cbn [vx vy vz].
  destruct (Rlt_dec _ _) as [_ | N]; [| exfalso; lra].
  assert (Z : Vec3.len (Vec3.fromCross (mkVec3 (-1) 0 0) (mkVec3 1 0 0)) = 0).
  { unfold Vec3.len, Vec3.fromCross; cbn [vx vy vz].
    match goal with |- sqrt ?x = _ => replace x with 0 by ring end.
    apply sqrt_0. }
  rewrite Z. destruct (Rlt_dec 0 0.000001) as [_ | N]; [| exfalso; lra].
  assert (O : Vec3.len (Vec3.fromCross (mkVec3 0 1 0) (mkVec3 1 0 0)) = 1).
  { unfold Vec3.len, Vec3.fromCross; cbn [vx vy vz].
    match goal with |- sqrt ?x = _ => replace x with 1 by ring end.
    apply sqrt_1. }
  rewrite norm_scaled by (rewrite O; lra). rewrite O.
  unfold Quat.fromAxisAngle. cbv zeta. rewrite sin_half_turn, cos_half_turn.
  unfold vscale, Vec3.fromCross; cbn [vx vy vz]. f_equal; lra.
Qed.

(** ** Arrays *)

Lemma nth_error_array_set_eq {A : Type} (l : list A) (i : nat) (v : A) :
  (i < length l)%nat -> nth_error (array_set l i v) i = Some v.
Proof.
  revert i. induction l as [| a l IH]; intros [| i] H; cbn in *;
    try lia; [reflexivity | apply IH; lia].
Qed.

Lemma nth_error_array_set_neq {A : Type} (l : list A) (i k : nat) (v : A) :
  i <> k -> nth_error (array_set l i v) k = nth_error l k.
Proof.
  revert i k. induction l as [| a l IH]; intros [| i] [| k] H; cbn;
    try reflexivity; [lia | apply IH; lia].
Qed.

Lemma length_array_set {A : Type} (l : list A) (i : nat) (v : A) :
  length (array_set l i v) = length l.
Proof.
  revert i. induction l as [| a l IH]; intros [| i]; cbn; auto.
Qed.

Lemma nth_error_in_range {A : Type} (l : list A) (i : nat) (a : A) :
  nth_error l i = Some a -> (i < length l)%nat.
Proof. intros H. apply nth_error_Some. congruence. Qed.

Lemma nth_error_exists {A : Type} (l : list A) (i : nat) :
  (i < length l)%nat -> exists a, nth_error l i = Some a.
Proof.
  intros H. destruct (nth_error l i) eqn:E; [eauto |].
  apply nth_error_None in E. lia.
Qed.

Lemma array_get_some {A : Type} (l : list A) (i : Z) (a : A) :
  array_get l i = Some a ->
  (0 <= i)%Z /\ nth_error l (Z.to_nat i) = Some a.
Proof.
  unfold array_get. destruct (Z.ltb_spec i 0); [discriminate |]. auto.
Qed.

(** ** Missing joints *)

(** [getWorld] on an index that is neither [-1] nor the index of a joint:
    the array read yields [undefined], which is not [null], and the read
    of [joint.local] throws.  Nothing is written to the console. *)
Lemma getWorld_missing_joint (p : Pose) (i : Z) (out : Transform) :
  i <> (-1)%Z -> array_get (joints p) i = None ->
  Pose.getWorld p i out = mkCall out [] (Throws TypeError).
Proof.
  intros N H. unfold Pose.getWorld.
  destruct (Z.eqb_spec i (-1)) as [E | _]; [tauto |].
  unfold Pose.getJoint, Pose.joints_at. rewrite H. reflexivity.
Qed.

(** C7, on the code: in a pose with the single joint 0, [getWorld (5, out)]
    throws a [TypeError] and reports nothing, where the claim has a
    reported error and a normal return. *)
Theorem getWorld_missing_joint_throws :
  Pose.getWorld lone_pose 5 doubled_turn =
  mkCall doubled_turn [] (Throws TypeError).
Proof.
  apply getWorld_missing_joint; [discriminate | reflexivity].
Qed.

(** ** Reset *)

Lemma bind_returns {S A B : Type} (m : M S A) (k : A -> M S B)
  (s s1 : S) (a : A) :
  m s = mkCall s1 [] (Returns a) -> bind m k s = k a s1.
Proof.
  intros H. unfold bind. rewrite H. cbn. destruct (k a s1); reflexivity.
Qed.

Ltac nat_cases :=
  repeat match goal with
         | |- context [(?a <=? ?b)%nat] => destruct (Nat.leb_spec a b)
         | |- context [(?a <? ?b)%nat] => destruct (Nat.ltb_spec a b)
         end; cbn [andb]; try lia.

(** The loop of [reset], from the joint [i] on and for [n] joints: the
    joints [i .. i + n - 1] of the receiver take the local transform of the
    joints of the source [s0], nothing else changes. *)
Lemma reset_loop_spec (self src : PoseRef) (s0 : Pose) :
  forall (n i : nat) (h : Heap) (t : Pose),
    nth_error h self = Some t ->
    (exists s', nth_error h src = Some s' /\
       forall k, (i <= k)%nat ->
         nth_error (joints s') k = nth_error (joints s0) k) ->
    (i + n <= length (joints t))%nat ->
    (i + n <= length (joints s0))%nat ->
    exists h' t',
      Pose.reset_loop self src i n h = mkCall h' [] (Returns tt) /\
      nth_error h' self = Some t' /\
      length h' = length h /\
      (forall o, o <> self -> nth_error h' o = nth_error h o) /\
      srcPose t' = srcPose t /\ nameIdx t' = nameIdx t /\
      rootOffset t' = rootOffset t /\ poseOffset t' = poseOffset t /\
      length (joints t') = length (joints t) /\
      (forall k j, nth_error (joints t) k = Some j ->
         if (i <=? k)%nat && (k <? i + n)%nat then
           exists sj, nth_error (joints s0) k = Some sj /\
             nth_error (joints t') k = Some (Joint.with_local j (local sj))
         else nth_error (joints t') k = Some j).
Proof.
  induction n as [| n IH]; intros i h t Hself (s' & Hsrc & Hs') Lt Ls.
  - exists h, t. repeat split; auto.
    intros k j Hk. nat_cases; exact Hk.
  - destruct (nth_error_exists (joints t) i ltac:(lia)) as [j Hj].
    destruct (nth_error_exists (joints s0) i ltac:(lia)) as [sj Hsj].
    assert (Hsj' : nth_error (joints s') i = Some sj)
      by (rewrite Hs' by lia; exact Hsj).
    set (j' := Joint.with_local j (Transform.copy (local sj))).
    set (t1 := Pose.with_joints t (array_set (joints t) i j')).
    set (h1 := array_set h self t1).
    assert (Hstep : Pose.reset_step self src i h = mkCall h1 [] (Returns tt)).
    { unfold Pose.reset_step. rewrite Hself, Hsrc, Hj, Hsj'. reflexivity. }
    assert (Hself1 : nth_error h1 self = Some t1).
    { apply nth_error_array_set_eq. eapply nth_error_in_range; eauto. }
    assert (Hj1 : forall k, k <> i ->
              nth_error (joints t1) k = nth_error (joints t) k).
    { intros k Hk. apply nth_error_array_set_neq. lia. }
    assert (Hji : nth_error (joints t1) i = Some j').
    { apply nth_error_array_set_eq. lia. }
    assert (Hlen1 : length (joints t1) = length (joints t))
      by apply length_array_set.
    destruct (IH (S i) h1 t1 Hself1) as
      (h' & t' & Hrun & Hself' & Hlen & Hoth & E1 & E2 & E3 & E4 & E5 & Hjs).
    + destruct (Nat.eq_dec src self) as [-> | Hne].
      * exists t1. split; [exact Hself1 |]. intros k Hk.
        rewrite Hj1 by lia. rewrite Hself in Hsrc. injection Hsrc as <-.
        apply Hs'. lia.
      * exists s'. split; [| intros k Hk; apply Hs'; lia].
        unfold h1. rewrite nth_error_array_set_neq by auto. exact Hsrc.
    + lia.
    + lia.
    + exists h', t'. repeat split.
      * change (Pose.reset_loop self src i (S n) h) with
          (bind (Pose.reset_step self src i)
                (fun _ => Pose.reset_loop self src (S i) n) h).
        rewrite (bind_returns (Pose.reset_step self src i)
                   (fun _ => Pose.reset_loop self src (S i) n) h h1 tt Hstep).
        exact Hrun.
      * exact Hself'.
      * rewrite Hlen. apply length_array_set.
      * intros o Ho. rewrite (Hoth o Ho). apply nth_error_array_set_neq. auto.
      * rewrite E1. reflexivity.
      * rewrite E2. reflexivity.
      * rewrite E3. reflexivity.
      * rewrite E4. reflexivity.
      * lia.
      * intros k jk Hk. destruct (Nat.eq_dec k i) as [-> | Hki].
        -- rewrite Hj in Hk. injection Hk as <-.
           specialize (Hjs i j' Hji). revert Hjs. nat_cases.
           intros Hjs. exists sj. split; [exact Hsj |].
           rewrite Hjs. unfold j'. rewrite copy_id. reflexivity.
        -- rewrite <- Hj1 in Hk by exact Hki.
           specialize (Hjs k jk Hk). revert Hjs. nat_cases; auto.
Qed.

Lemma reset_loop_console (self src : PoseRef) :
  forall (n i : nat) (h : Heap),
    console (Pose.reset_loop self src i n h) = [].
Proof.
  induction n as [| n IH]; intros i h; [reflexivity |].
  change (Pose.reset_loop self src i (S n) h) with
    (bind (Pose.reset_step self src i)
          (fun _ => Pose.reset_loop self src (S i) n) h).
  unfold bind.
  assert (C : console (Pose.reset_step self src i h) = []).
  { unfold Pose.reset_step.
    destruct (nth_error h self), (nth_error h src); try reflexivity.
    destruct (nth_error (joints p) i), (nth_error (joints p0) i); reflexivity. }
  destruct (result (Pose.reset_step self src i h)); cbn; rewrite C; auto.
  cbn. apply IH.
Qed.

(** [reset] with a source that has a joint for every joint of the
    receiver. *)
Lemma reset_from_source (h : Heap) (self src : PoseRef) (this s : Pose) :
  nth_error h self = Some this -> srcPose this = Some src ->
  nth_error h src = Some s ->
  (length (joints this) <= length (joints s))%nat ->
  exists h' this',
    Pose.reset self h = mkCall h' [] (Returns (Some self)) /\
    nth_error h' self = Some this' /\
    length h' = length h /\
    (forall o, o <> self -> nth_error h' o = nth_error h o) /\
    srcPose this' = srcPose this /\ nameIdx this' = nameIdx this /\
    rootOffset this' = rootOffset this /\ poseOffset this' = poseOffset this /\
    length (joints this') = length (joints this) /\
    (forall k j, nth_error (joints this) k = Some j ->
       exists sj, nth_error (joints s) k = Some sj /\
         nth_error (joints this') k = Some (Joint.with_local j (local sj))).
Proof.
  intros Hself Hsrc Hs Hlen.
  destruct (reset_loop_spec self src s (length (joints this)) 0 h this Hself)
    as (h' & t' & Hrun & Hself' & Hl & Hoth & E1 & E2 & E3 & E4 & E5 & Hjs).
  - exists s. split; [exact Hs | reflexivity].
  - lia.
  - lia.
  - exists h', t'. repeat split; auto.
    + unfold Pose.reset. rewrite Hself, Hsrc.
      rewrite (bind_returns (Pose.reset_loop self src 0 (length (joints this)))
                 (fun _ => ret (Some self)) h h' tt Hrun).
      reflexivity.
    + intros k j Hk. specialize (Hjs k j Hk). revert Hjs.
      pose proof (nth_error_in_range _ _ _ Hk). nat_cases. auto.
Qed.

(** C6, as stated, fails: a pose can have more joints than its source,
    as a working pose has after [clone] and then [fromSkeleton] with a
    longer skeleton.  On the working pose of [short_studio], which has
    two joints where its source has one, [reset] throws a [TypeError]:
    the first joint has been written by then, the second has not, and
    nothing is on the console. *)
Lemma reset_source_too_short :
  nth_error short_studio 1%nat = Some long_clone /\
  srcPose long_clone = Some 0%nat /\
  nth_error short_studio 0%nat = Some lone_pose /\
  Pose.reset 1%nat short_studio =
    mkCall
      [lone_pose;
       Pose.with_joints long_clone
         [chain_joint "hips" 0 (-1) doubled_turn;
          chain_joint "tail" 1 0 step_x]]
      [] (Throws TypeError).
Proof. repeat split; reflexivity. Qed.

(** C6, amended: without a source pose, [reset] writes a message to the
    console and changes nothing.  With a source pose that has a joint for
    every joint of the receiver, [reset] returns the receiver and every
    joint has the local transform (rotation, position and scale) of the
    joint of the source at the same position; its name, its index, its
    parent index, its children and its cache are those it had, and so
    are the number and the order of the joints, the offsets, the source
    and the other poses. *)
Theorem reset_spec (h : Heap) (self : PoseRef) (this : Pose) :
  nth_error h self = Some this ->
  (srcPose this = None ->
   Pose.reset self h =
     mkCall h [ConsoleLog "Pose.reset - No source available for resetting"]
            (Returns None)) /\
  (forall src s,
     srcPose this = Some src -> nth_error h src = Some s ->
     (length (joints this) <= length (joints s))%nat ->
     exists h' this',
       Pose.reset self h = mkCall h' [] (Returns (Some self)) /\
       nth_error h' self = Some this' /\
       length h' = length h /\
       (forall o, o <> self -> nth_error h' o = nth_error h o) /\
       srcPose this' = srcPose this /\ nameIdx this' = nameIdx this /\
       rootOffset this' = rootOffset this /\
       poseOffset this' = poseOffset this /\
       length (joints this') = length (joints this) /\
       (forall k j, nth_error (joints this) k = Some j ->
          exists sj j',
            nth_error (joints s) k = Some sj /\
            nth_error (joints this') k = Some j' /\
            local j' = local sj /\
            name j' = name j /\ index j' = index j /\
            pindex j' = pindex j /\ isRoot j' = isRoot j /\
            children j' = children j /\ world j' = world j /\
            idx j' = idx j)).
Proof.
  intros Hself. split.
  - intros Hnone. unfold Pose.reset. rewrite Hself, Hnone. reflexivity.
  - intros src s Hsrc Hs Hlen.
    destruct (reset_from_source h self src this s Hself Hsrc Hs Hlen)
      as (h' & this' & R & S' & L & O & E1 & E2 & E3 & E4 & E5 & J).
    exists h', this'.
    split; [exact R |]. split; [exact S' |]. split; [exact L |].
    split; [exact O |]. split; [exact E1 |]. split; [exact E2 |].
    split; [exact E3 |]. split; [exact E4 |]. split; [exact E5 |].
    intros k j Hk. destruct (J k j Hk) as (sj & Hsj & Hj').
    exists sj, (Joint.with_local j (local sj)).
    split; [exact Hsj |]. split; [exact Hj' |].
    repeat split; reflexivity.
Qed.

(** The amended C6 on the two poses of [studio]: the bind pose has no
    source; the source of the working pose is the bind pose, and [reset]
    gives its joint, which was turned, the local transform of the bind
    pose. *)
Lemma reset_spec_witness :
  nth_error studio 0%nat = Some lone_pose /\
  Pose.reset 0%nat studio =
    mkCall studio
           [ConsoleLog "Pose.reset - No source available for resetting"]
           (Returns None) /\
  nth_error studio 1%nat = Some posed_clone /\
  nth_error (joints posed_clone) 0 =
    Some (chain_joint "hips" 0 (-1) turned) /\
  exists h' this' j',
    Pose.reset 1%nat studio = mkCall h' [] (Returns (Some 1%nat)) /\
    nth_error h' 1%nat = Some this' /\
    nth_error (joints this') 0 = Some j' /\
    local j' = doubled_turn /\ name j' = "hips"%string /\
    pindex j' = (-1)%Z.
Proof.
  split; [reflexivity |].
  split; [exact (proj1 (reset_spec studio 0%nat lone_pose eq_refl) eq_refl) |].
  split; [reflexivity |]. split; [reflexivity |].
  destruct (proj2 (reset_spec studio 1%nat posed_clone eq_refl)
                  0%nat lone_pose eq_refl eq_refl (le_n 1%nat))
    as (h' & t' & H & Ht & _ & _ & _ & _ & _ & _ & _ & J).
  destruct (J 0%nat (chain_joint "hips" 0 (-1) turned) eq_refl)
    as (sj & j' & Hs & Hj & El & En & _ & Ep & _).
  injection Hs as <-.
  exists h', t', j'.
  split; [exact H |]. split; [exact Ht |]. split; [exact Hj |].
  split; [exact El |]. split; [exact En | exact Ep].
Defined.

(** ** Clones *)

(** C10, as stated, fails in its last part: [reset] on a clone does not
    always restore the joints.  The working pose of [short_studio] has two
    joints and a source with one; its clone has that source, and [reset]
    on the clone throws a [TypeError] at the second joint. *)
Lemma clone_reset_throws :
  nth_error short_studio 1%nat = Some long_clone /\
  exists h1 c pc,
    Pose.clone short_studio 1%nat = Some (h1, c) /\
    nth_error h1 c = Some pc /\ srcPose pc = Some 0%nat /\
    length (joints pc) = 2%nat /\
    nth_error h1 0%nat = Some lone_pose /\
    length (joints lone_pose) = 1%nat /\
    result (Pose.reset c h1) = Throws TypeError /\
    console (Pose.reset c h1) = [].
Proof.
  split; [reflexivity |].
  exists (short_studio ++ [Pose.cloned 1%nat long_clone]), 2%nat,
    (Pose.cloned 1%nat long_clone).
  repeat split; reflexivity.
Qed.

(** C10, amended: [clone] returns a new pose whose [srcPose] is never
    null: it is the [srcPose] of the receiver when there is one and the
    receiver otherwise, so that a clone of a clone has the source of the
    first clone.  [reset] on the clone does not report a missing source,
    and when that source has a joint for every joint of the receiver, it
    returns and gives every joint of the clone the local transform of the
    joint of that source. *)
Theorem clone_srcPose (h : Heap) (self : PoseRef) (this : Pose) :
  nth_error h self = Some this ->
  let root := match srcPose this with Some s => s | None => self end in
  exists h1 c pc,
    Pose.clone h self = Some (h1, c) /\
    nth_error h c = None /\
    nth_error h1 c = Some pc /\
    (forall o, o <> c -> nth_error h1 o = nth_error h o) /\
    srcPose pc = Some root /\
    (exists h2 c2 pc2,
       Pose.clone h1 c = Some (h2, c2) /\ nth_error h2 c2 = Some pc2 /\
       srcPose pc2 = Some root) /\
    console (Pose.reset c h1) = [] /\
    (forall rt,
       nth_error h root = Some rt ->
       (length (joints this) <= length (joints rt))%nat ->
       exists h3 pc',
         Pose.reset c h1 = mkCall h3 [] (Returns (Some c)) /\
         nth_error h3 c = Some pc' /\
         (forall o, o <> c -> nth_error h3 o = nth_error h o) /\
         (forall k j, nth_error (joints this) k = Some j ->
            exists rj j',
              nth_error (joints rt) k = Some rj /\
              nth_error (joints pc') k = Some j' /\
              j' = Joint.with_local (Joint.clone j) (local rj) /\
              local j' = local rj /\
              name j' = name j /\ index j' = index j /\
              pindex j' = pindex j /\ isRoot j' = isRoot j /\
              children j' = children j)).
Proof.
  intros Hself root.
  set (pc := Pose.cloned self this).
  set (h1 := h ++ [pc]).
  assert (Hc : nth_error h1 (length h) = Some pc).
  { unfold h1. rewrite nth_error_app2 by lia. rewrite Nat.sub_diag. reflexivity. }
  assert (Hold : forall o, o <> length h -> nth_error h1 o = nth_error h o).
  { intros o Ho. unfold h1. destruct (Nat.lt_ge_cases o (length h)).
    - apply nth_error_app1. assumption.
    - rewrite nth_error_app2 by lia.
      destruct (o - length h)%nat as [| d] eqn:E; [lia |].
      cbn. destruct d; cbn; symmetry; apply nth_error_None; lia. }
  assert (Hsrc : srcPose pc = Some root).
  { unfold pc, Pose.cloned, root; cbn. destruct (srcPose this); reflexivity. }
  exists h1, (length h), pc. repeat split.
  - unfold Pose.clone. rewrite Hself. reflexivity.
  - apply nth_error_None. lia.
  - exact Hc.
  - exact Hold.
  - exact Hsrc.
  - exists (h1 ++ [Pose.cloned (length h) pc]), (length h1),
      (Pose.cloned (length h) pc).
    repeat split.
    + unfold Pose.clone. rewrite Hc. reflexivity.
    + rewrite nth_error_app2 by lia. rewrite Nat.sub_diag. reflexivity.
    + unfold Pose.cloned; cbn [srcPose]. rewrite Hsrc. reflexivity.
  - unfold Pose.reset. rewrite Hc, Hsrc. unfold bind.
    pose proof (reset_loop_console (length h) root (length (joints pc)) 0 h1)
      as C.
    destruct (Pose.reset_loop (length h) root 0 (length (joints pc)) h1)
      as [st cs [[] | e |]]; cbn in *; subst; reflexivity.
  - intros rt Hrt Hlen.
    assert (Hroot : root <> length h).
    { apply nth_error_in_range in Hrt. lia. }
    assert (Hjl : length (joints pc) = length (joints this)).
    { unfold pc, Pose.cloned; cbn. apply length_map. }
    destruct (reset_from_source h1 (length h) root pc rt Hc Hsrc)
      as (h3 & pc' & Hrun & Hc' & _ & Hoth & _ & _ & _ & _ & _ & Hjs).
    + rewrite Hold by exact Hroot. exact Hrt.
    + lia.
    + exists h3, pc'. repeat split; auto.
      * intros o Ho. rewrite (Hoth o Ho). apply Hold, Ho.
      * intros k j Hk.
        destruct (Hjs k (Joint.clone j)) as (rj & Hrj & Hj').
        { unfold pc, Pose.cloned; cbn [joints].
          rewrite nth_error_map, Hk. reflexivity. }
        exists rj, (Joint.with_local (Joint.clone j) (local rj)).
        split; [exact Hrj |]. split; [exact Hj' |].
        repeat split; reflexivity.
Qed.

(** The amended C10 on the working pose of [studio], a clone of the bind
    pose that has been turned since: its clone has the bind pose as
    source, and [reset] gives the joint of that clone the local transform
    of the bind pose. *)
Lemma clone_srcPose_witness :
  nth_error studio 1%nat = Some posed_clone /\
  exists h1 c pc h3 pc' j,
    Pose.clone studio 1%nat = Some (h1, c) /\ nth_error h1 c = Some pc /\
    srcPose pc = Some 0%nat /\
    Pose.reset c h1 = mkCall h3 [] (Returns (Some c)) /\
    nth_error h3 c = Some pc' /\
    nth_error (joints pc') 0 = Some j /\ local j = doubled_turn.
Proof.
  split; [reflexivity |].
  destruct (clone_srcPose studio 1%nat posed_clone eq_refl)
    as (h1 & c & pc & H1 & _ & H2 & _ & H3 & _ & _ & H4).
  destruct (H4 lone_pose eq_refl (le_n 1%nat)) as (h3 & pc' & H5 & H6 & _ & H7).
  destruct (H7 0%nat (chain_joint "hips" 0 (-1) turned) eq_refl)
    as (rj & j' & H8 & H9 & _ & H10 & _).
  injection H8 as <-.
  exists h1, c, pc, h3, pc', j'.
  repeat (split; [eassumption |]). exact H10.
Defined.

(** ** Chain operators *)

Lemma with_local_eta (j : Joint) :
  Joint.with_local j
    (mkTransform (rot (local j)) (pos (local j)) (scl (local j))) = j.
Proof. destruct j as [? ? ? ? ? [] ? ?]. reflexivity. Qed.

Lemma only_rot_of_refl (target : option Z) (p : Pose) :
  only_rot_of target p p.
Proof.
  repeat split. intros k j H. exists (rot (local j)).
  rewrite with_local_eta. auto.
Qed.

(** [setRot] writes the local rotation of the joint [i] and nothing else. *)
Lemma setRot_frame (i : Z) (q : Quat) (p : Pose) :
  only_rot_of (Some i) p (state (Pose.setRot i q p)).
Proof.
  unfold Pose.setRot. destruct (array_get (joints p) i) as [j |] eqn:E;
    [| apply only_rot_of_refl].
  cbn [state]. destruct (array_get_some _ _ _ E) as [Hi Hn].
  repeat split; cbn [joints srcPose nameIdx rootOffset poseOffset Pose.with_joints].
  - apply length_array_set.
  - intros k jk Hk. destruct (array_get_some _ _ _ Hk) as [Hk0 Hkn].
    destruct (Z.eq_dec k i) as [-> | Hne].
    + rewrite E in Hk. injection Hk as <-.
      exists (mkQuat (qx q) (qy q) (qz q) (qw q)). split; [| tauto].
      unfold array_get. destruct (Z.ltb_spec i 0); [lia |].
      apply nth_error_array_set_eq. eapply nth_error_in_range; eauto.
    + exists (rot (local jk)). rewrite with_local_eta. split; [| auto].
      unfold array_get. destruct (Z.ltb_spec k 0); [lia |].
      rewrite nth_error_array_set_neq; [exact Hkn |].
      intros Heq. apply Hne. apply Z2Nat.inj in Heq; lia.
Qed.

Lemma retargeter_frame_refl (target : option Z) (rt : Retargeter) :
  retargeter_frame target rt rt.
Proof.
  split; [reflexivity |]. destruct (pose rt); [apply only_rot_of_refl | exact I].
Qed.

Lemma on_pose_setRot_frame (i : Z) (q : Quat) (rt : Retargeter) :
  retargeter_frame (Some i) rt (state (Retargeter.on_pose (Pose.setRot i q) rt)).
Proof.
  unfold Retargeter.on_pose. destruct (pose rt) as [p |] eqn:E; cbn [state].
  - split; [reflexivity |]. cbn [pose]. rewrite E. apply setRot_frame.
  - apply retargeter_frame_refl.
Qed.

Lemma read_only_ret {S A : Type} (a : A) : read_only (@ret S A a).
Proof. intros s. reflexivity. Qed.

Lemma read_only_throw {S A : Type} (e : JsError) : read_only (@throw S A e).
Proof. intros s. reflexivity. Qed.

Lemma read_only_defined {S A : Type} (o : option A) :
  read_only (@Retargeter.defined S A o).
Proof. intros s. destruct o; reflexivity. Qed.

Lemma read_only_on_pose {A : Type} (m : M Pose A) :
  read_only m -> read_only (Retargeter.on_pose m).
Proof.
  intros H [rig [p |]]; unfold Retargeter.on_pose; cbn; [| reflexivity].
  rewrite H. reflexivity.
Qed.

Lemma read_only_pose_getWorld (i : Z) :
  read_only (Retargeter.pose_getWorld i).
Proof. apply read_only_on_pose. intros p. reflexivity. Qed.

Lemma read_only_pose_joint_local (i : Z) :
  read_only (Retargeter.pose_joint_local i).
Proof.
  apply read_only_on_pose. intros p. destruct (array_get (joints p) i); reflexivity.
Qed.

(** A call that only reads, followed by calls within a frame, is within
    the frame. *)
Lemma bind_frame {S A B : Type} (R : S -> S -> Prop) (m : M S A)
  (k : A -> M S B) (s : S) :
  read_only m -> R s s ->
  (forall a, result (m s) = Returns a -> R s (state (k a s))) ->
  R s (state (bind m k s)).
Proof.
  intros Hm Hr Hk. unfold bind. specialize (Hm s).
  destruct (m s) as [st c [a | e |]]; cbn in *; subst st; auto.
Qed.

Ltac frame_step :=
  apply bind_frame;
  [ first [ apply read_only_defined | apply read_only_pose_getWorld
          | apply read_only_pose_joint_local | apply read_only_ret
          | apply read_only_throw ]
  | apply retargeter_frame_refl
  | let a := fresh "a" in
    let H := fresh "H" in
    intros a H; try (injection H as <-); try clear H ].

Lemma ChainTwistAdditive_frame (op : ChainTwistAdditive.t) (rt : Retargeter) :
  retargeter_frame (first_joint (tarRig rt) (ChainTwistAdditive.chainName op))
    rt (state (ChainTwistAdditive.apply op rt)).
Proof.
  unfold ChainTwistAdditive.apply.
  destruct (Req_dec_T _ _); [apply retargeter_frame_refl |].
  destruct (tarRig rt) as [rig |] eqn:Hrig; [| apply retargeter_frame_refl].
  unfold first_joint.
  destruct (Retargeter.chains_get _ _) as [ch |]; [| apply retargeter_frame_refl].
  destruct (pose rt) eqn:Hp; [| apply retargeter_frame_refl].
  destruct ch as [| itm0 ch'].
  - apply retargeter_frame_refl.
  - change (array_get (itm0 :: ch') 0) with (Some itm0).
    do 5 frame_step.
    apply on_pose_setRot_frame.
Qed.

Lemma AxisAdditive_frame (op : AxisAdditive.t) (rt : Retargeter) :
  retargeter_frame (first_joint (tarRig rt) (AxisAdditive.chainName op))
    rt (state (AxisAdditive.apply op rt)).
Proof.
  unfold AxisAdditive.apply.
  destruct (Req_dec_T _ _); [apply retargeter_frame_refl |].
  destruct (tarRig rt) as [rig |] eqn:Hrig; [| apply retargeter_frame_refl].
  unfold first_joint.
  destruct (Retargeter.chains_get _ _) as [ch |]; [| apply retargeter_frame_refl].
  apply bind_frame;
    [ intros s; destruct (pose rt); reflexivity
    | apply retargeter_frame_refl | intros _ _ ].
  destruct ch as [| itm ch'].
  - apply retargeter_frame_refl.
  - change (array_get (itm :: ch') 0) with (Some itm).
    do 3 frame_step.
    destruct (String.eqb _ _); [apply on_pose_setRot_frame |].
    apply retargeter_frame_refl.
Qed.

Lemma retargeter_frame_pose (target : option Z) (rig : option Rig) (p : Pose)
  (rt' : Retargeter) :
  retargeter_frame target (mkRetargeter rig (Some p)) rt' ->
  exists p', rt' = mkRetargeter rig (Some p') /\ only_rot_of target p p'.
Proof.
  destruct rt' as [rig' [p' |]]; unfold retargeter_frame;
    cbn [tarRig pose]; intros [E H]; [| contradiction].
  exists p'. subst. split; [reflexivity | exact H].
Qed.

(** C5: with the angle 0 both chain operators return at once and leave the
    retargeter, hence every joint of the pose, as it is.  With any angle,
    the pose after [apply] is the pose before it up to the local rotation
    of the first joint of the chain: every other joint has the same local
    transform, and the first joint has the same local position and scale.
    This also holds when [apply] throws or gives up. *)
Theorem chain_operators_frame (rig : option Rig) (p : Pose) :
  let rt := mkRetargeter rig (Some p) in
  (forall name,
     ChainTwistAdditive.apply (ChainTwistAdditive.mk name 0) rt =
     mkCall rt [] (Returns tt)) /\
  (forall name axis,
     AxisAdditive.apply (AxisAdditive.mk name axis 0) rt =
     mkCall rt [] (Returns tt)) /\
  (forall op, exists p',
     state (ChainTwistAdditive.apply op rt) = mkRetargeter rig (Some p') /\
     only_rot_of (first_joint rig (ChainTwistAdditive.chainName op)) p p') /\
  (forall op, exists p',
     state (AxisAdditive.apply op rt) = mkRetargeter rig (Some p') /\
     only_rot_of (first_joint rig (AxisAdditive.chainName op)) p p').
Proof.
  intros rt. repeat split.
  - intros name. unfold ChainTwistAdditive.apply; cbn [ChainTwistAdditive.angle].
    destruct (Req_dec_T 0 0) as [_ | N]; [reflexivity | tauto].
  - intros name axis. unfold AxisAdditive.apply; cbn [AxisAdditive.angle].
    destruct (Req_dec_T 0 0) as [_ | N]; [reflexivity | tauto].
  - intros op. apply retargeter_frame_pose.
    apply (ChainTwistAdditive_frame op rt).
  - intros op. apply retargeter_frame_pose.
    apply (AxisAdditive_frame op rt).
Qed.

(** ** World transforms *)

Lemma with_world_eta (j : Joint) : Joint.with_world j (world j) = j.
Proof. destruct j. reflexivity. Qed.

Lemma same_locals_refl (p : Pose) : same_locals p p.
Proof.
  repeat split. intros k j H. exists (world j). rewrite with_world_eta. exact H.
Qed.

Lemma same_locals_ordered (p q : Pose) :
  same_locals p q -> ordered (joints p) -> ordered (joints q).
Proof.
  intros (_ & _ & _ & _ & L & H) O k j Hk.
  destruct (nth_error_exists (joints p) k) as [j0 Hj0].
  { rewrite <- L. eapply nth_error_in_range; eauto. }
  destruct (H k j0 Hj0) as [w Hw]. rewrite Hw in Hk. injection Hk as <-.
  apply (O k j0 Hj0).
Qed.

Lemma same_locals_rigid (p q : Pose) :
  same_locals p q -> rigid_pose p -> rigid_pose q.
Proof.
  intros (_ & _ & E1 & E2 & L & H) (R1 & R2 & R3).
  split; [rewrite E1; exact R1 |]. split; [rewrite E2; exact R2 |].
  intros k j Hk.
  destruct (nth_error_exists (joints p) k) as [j0 Hj0].
  { rewrite <- L. eapply nth_error_in_range; eauto. }
  destruct (H k j0 Hj0) as [w Hw]. rewrite Hw in Hk. injection Hk as <-.
  apply (R3 k j0 Hj0).
Qed.

(** Writing the cache of the joint [m] keeps the earlier joints consistent:
    their parents come before them. *)
Lemma consistent_at_set (p : Pose) (m k : nat) (v : Joint) :
  ordered (joints p) -> (k < m)%nat -> consistent_at p k ->
  consistent_at (Pose.with_joints p (array_set (joints p) m v)) k.
Proof.
  intros O Hk C j Hj. cbn [joints Pose.with_joints] in Hj.
  rewrite nth_error_array_set_neq in Hj by lia.
  specialize (C j Hj). destruct (O k j Hj) as [E | Hp].
  - rewrite E in *. exact C.
  - destruct (Z.eqb_spec (pindex j) (-1)) as [E | _]; [exact C |].
    destruct C as (pj & Hpj & W). exists pj. split; [| exact W].
    cbn [joints Pose.with_joints].
    destruct (array_get_some _ _ _ Hpj) as [_ Hn].
    unfold array_get. destruct (Z.ltb_spec (pindex j) 0); [lia |].
    rewrite nth_error_array_set_neq by lia. exact Hn.
Qed.

Lemma updateWorld_step_spec (m : nat) (p : Pose) :
  ordered (joints p) -> (m < length (joints p))%nat ->
  (forall k, (k < m)%nat -> consistent_at p k) ->
  exists j w,
    nth_error (joints p) m = Some j /\
    Pose.updateWorld_step m p =
      mkCall (Pose.with_joints p (array_set (joints p) m (Joint.with_world j w)))
             [] (Returns tt) /\
    (forall k, (k < S m)%nat ->
       consistent_at
         (Pose.with_joints p (array_set (joints p) m (Joint.with_world j w))) k).
Proof.
  intros O Hm C. destruct (nth_error_exists _ _ Hm) as [j Hj].
  unfold Pose.updateWorld_step. rewrite Hj.
  destruct (Z.eqb_spec (pindex j) (-1)) as [E | N]; cbn [negb].
  - eexists j, _. split; [reflexivity |]. split; [reflexivity |].
    intros k Hk. destruct (Nat.eq_dec k m) as [-> | Hne].
    + intros j' Hj'. cbn [joints Pose.with_joints] in Hj'.
      rewrite nth_error_array_set_eq in Hj' by exact Hm.
      injection Hj' as <-. cbn [pindex Joint.with_world]. rewrite E.
      reflexivity.
    + apply consistent_at_set; auto. lia. apply C. lia.
  - destruct (O m j Hj) as [E | Hp]; [tauto |].
    destruct (nth_error_exists (joints p) (Z.to_nat (pindex j))) as [pj Hpj];
      [lia |].
    assert (Hget : array_get (joints p) (pindex j) = Some pj).
    { unfold array_get. destruct (Z.ltb_spec (pindex j) 0); [lia | exact Hpj]. }
    rewrite Hget. eexists j, _. split; [reflexivity |]. split; [reflexivity |].
    intros k Hk. destruct (Nat.eq_dec k m) as [-> | Hne].
    + intros j' Hj'. cbn [joints Pose.with_joints] in Hj'.
      rewrite nth_error_array_set_eq in Hj' by exact Hm.
      injection Hj' as <-. cbn [pindex Joint.with_world].
      destruct (Z.eqb_spec (pindex j) (-1)) as [E | _]; [tauto |].
      exists pj. split; [| reflexivity].
      cbn [joints Pose.with_joints]. unfold array_get.
      destruct (Z.ltb_spec (pindex j) 0); [lia |].
      rewrite nth_error_array_set_neq by lia. exact Hpj.
    + apply consistent_at_set; auto. lia. apply C. lia.
Qed.

Lemma same_locals_step (p0 p : Pose) (m : nat) (j : Joint) (w : Transform) :
  same_locals p0 p -> nth_error (joints p) m = Some j ->
  same_locals p0
    (Pose.with_joints p (array_set (joints p) m (Joint.with_world j w))).
Proof.
  intros (E1 & E2 & E3 & E4 & L & H) Hj.
  repeat split; cbn [srcPose nameIdx rootOffset poseOffset joints Pose.with_joints];
    auto.
  - rewrite length_array_set. exact L.
  - intros k j0 Hk. destruct (H k j0 Hk) as [w0 Hw0].
    destruct (Nat.eq_dec m k) as [-> | Hne].
    + exists w. rewrite nth_error_array_set_eq
        by (eapply nth_error_in_range; eauto).
      rewrite Hw0 in Hj. injection Hj as <-. destruct j0; reflexivity.
    + exists w0. rewrite nth_error_array_set_neq by exact Hne. exact Hw0.
Qed.

(** [updateWorld] returns, keeps the local transforms, and leaves a cache
    in which every joint is consistent with its parent. *)
Lemma updateWorld_loop_spec (p0 : Pose) :
  ordered (joints p0) ->
  forall (n m : nat) (p : Pose),
    same_locals p0 p -> (m + n = length (joints p0))%nat ->
    (forall k, (k < m)%nat -> consistent_at p k) ->
    exists p',
      Pose.updateWorld_loop (seq m n) p = mkCall p' [] (Returns tt) /\
      same_locals p0 p' /\
      (forall k, (k < m + n)%nat -> consistent_at p' k).
Proof.
  intros O. induction n as [| n IH]; intros m p Hs L C.
  - exists p. split; [reflexivity |]. split; [exact Hs |].
    intros k Hk. apply C. lia.
  - assert (Lp : length (joints p) = length (joints p0)) by apply Hs.
    destruct (updateWorld_step_spec m p) as (j & w & Hj & Hstep & C1); auto.
    { eapply same_locals_ordered; eauto. }
    { lia. }
    destruct (IH (S m) _ (same_locals_step p0 p m j w Hs Hj)) as (p' & Hrun & S' & C');
      [lia | exact C1 |].
    exists p'. split; [| split; [exact S' |]].
    + change (Pose.updateWorld_loop (seq m (S n)) p) with
        (bind (Pose.updateWorld_step m)
              (fun _ => Pose.updateWorld_loop (seq (S m) n)) p).
      rewrite (bind_returns (Pose.updateWorld_step m)
                 (fun _ => Pose.updateWorld_loop (seq (S m) n)) p _ tt Hstep).
      exact Hrun.
    + intros k Hk. apply C'. lia.
Qed.

Lemma rigid_identity : rigid Transform.identity.
Proof.
  split; [| split; reflexivity].
  unfold unitq, norm2, Transform.identity; cbn [rot qx qy qz qw]. ring.
Qed.

(** The walk of [getWorld] from the joint at [k]: when the transform under
    construction is [local j] applied to some [X], the transform returned
    at the end is the cached [world j] applied to [X]. *)
Lemma getWorld_walk_spec (p : Pose) :
  ordered (joints p) -> rigid_pose p -> (forall k, consistent_at p k) ->
  forall k j, nth_error (joints p) k = Some j ->
    rigid (world j) /\
    forall fuel X, (k < fuel)%nat ->
      exists out',
        Pose.getWorld_walk fuel p j (Transform.fromMul (local j) X) =
          mkCall out' [] (Returns tt) /\
        Transform.fromMul (rootOffset p) (Transform.fromMul (poseOffset p) out')
          = Transform.fromMul (world j) X.
Proof.
  intros O (Rr & Rp & Rl) C.
  induction k as [k IH] using lt_wf_ind. intros j Hj.
  pose proof (C k j Hj) as Cj. pose proof (Rl k j Hj) as [Uj Sj].
  destruct (O k j Hj) as [E | Hp].
  - rewrite E in Cj. cbn in Cj. rewrite mul_fromMul in Cj.
    assert (Rw : rigid (world j)).
    { rewrite Cj. apply rigid_fromMul; [apply rigid_fromMul; assumption |].
      split; assumption. }
    split; [exact Rw |]. intros fuel X Hf.
    exists (Transform.fromMul (local j) X). split.
    + destruct fuel; cbn [Pose.getWorld_walk]; rewrite E; reflexivity.
    + rewrite Cj.
      rewrite (fromMul_assoc_rigid _ (local j) X);
        [| apply (rigid_fromMul _ _ Rr Rp) | exact Uj
         | apply (rigid_fromMul _ _ Rr Rp)].
      apply eq_sym, fromMul_assoc_rigid; [apply Rr | apply Rp | apply Rr].
  - destruct (Z.eqb_spec (pindex j) (-1)) as [E | N]; [lia |].
    destruct Cj as (pj & Hpj & W).
    destruct (array_get_some _ _ _ Hpj) as [_ Hn].
    destruct (IH (Z.to_nat (pindex j)) ltac:(lia) pj Hn) as [Rpj Hwalk].
    assert (Rw : rigid (world j)).
    { rewrite W. apply rigid_fromMul; [exact Rpj | split; assumption]. }
    split; [exact Rw |]. intros fuel X Hf.
    destruct fuel as [| fuel]; [lia |].
    destruct (Hwalk fuel (Transform.fromMul (local j) X) ltac:(lia))
      as (out' & Hrun & Hout).
    exists out'. split.
    + cbn [Pose.getWorld_walk].
      destruct (Z.eqb_spec (pindex j) (-1)) as [E | _]; [tauto |].
      cbn [negb]. rewrite Hpj. unfold bind, get, put.
      cbn [state result console app]. rewrite pmul_fromMul, Hrun.
      reflexivity.
    + rewrite Hout, W. apply eq_sym, fromMul_assoc_rigid.
      * apply Rpj.
      * exact Uj.
      * apply Rpj.
Qed.

(** [getWorld (-1)] is [rootOffset] composed with [poseOffset]. *)
Lemma getWorld_root (p : Pose) (out : Transform) :
  Pose.getWorld p (-1) out =
  mkCall (Transform.fromMul (rootOffset p) (poseOffset p)) [] (Returns tt).
Proof. reflexivity. Qed.

Lemma getWorld_consistent (p : Pose) :
  ordered (joints p) -> rigid_pose p -> (forall k, consistent_at p k) ->
  forall i j, array_get (joints p) i = Some j ->
    Pose.getWorld_new p i = Returns (world j).
Proof.
  intros O R C i j Hi. destruct (array_get_some _ _ _ Hi) as [Hi0 Hn].
  destruct (getWorld_walk_spec p O R C _ j Hn) as [_ Hwalk].
  destruct (Hwalk (length (joints p)) Transform.identity)
    as (out' & Hrun & Hout).
  { eapply nth_error_in_range; eauto. }
  rewrite !fromMul_identity_r in *.
  unfold Pose.getWorld_new, Pose.getWorld.
  destruct (Z.eqb_spec i (-1)) as [E | _]; [lia |].
  unfold Pose.getJoint, Pose.joints_at. rewrite Hi.
  unfold bind, get, put. cbn [state result console app].
  rewrite copy_id, Hrun. cbn [state result console app].
  rewrite !pmul_fromMul, Hout. reflexivity.
Qed.

Lemma updateWorld_step_root (k : nat) (p : Pose) (j : Joint) :
  nth_error (joints p) k = Some j -> pindex j = (-1)%Z ->
  Pose.updateWorld_step k p =
  mkCall
    (Pose.with_joints p
       (array_set (joints p) k
          (Joint.with_world j
             (Transform.mul
                (Transform.fromMul (rootOffset p) (poseOffset p)) (local j)))))
    [] (Returns tt).
Proof.
  intros Hj E. unfold Pose.updateWorld_step. rewrite Hj, E. reflexivity.
Qed.

Lemma updateWorld_step_child (k : nat) (p : Pose) (j pj : Joint) :
  nth_error (joints p) k = Some j -> pindex j <> (-1)%Z ->
  array_get (joints p) (pindex j) = Some pj ->
  Pose.updateWorld_step k p =
  mkCall
    (Pose.with_joints p
       (array_set (joints p) k
          (Joint.with_world j (Transform.fromMul (world pj) (local j)))))
    [] (Returns tt).
Proof.
  intros Hj N Hp. unfold Pose.updateWorld_step. rewrite Hj.
  destruct (Z.eqb_spec (pindex j) (-1)) as [E | _]; [tauto |].
  cbn [negb]. rewrite Hp. reflexivity.
Qed.

Lemma updateWorld_loop_cons (k : nat) (ks : list nat) (p p1 : Pose) :
  Pose.updateWorld_step k p = mkCall p1 [] (Returns tt) ->
  Pose.updateWorld_loop (k :: ks) p = Pose.updateWorld_loop ks p1.
Proof.
  intros H.
  apply (bind_returns (Pose.updateWorld_step k)
           (fun _ => Pose.updateWorld_loop ks) p p1 tt H).
Qed.

(** The cache that [updateWorld] writes in [sheared_pose]. *)
Lemma updateWorld_sheared :
  Pose.updateWorld sheared_pose = mkCall sheared_pose_updated [] (Returns tt).
Proof.
  assert (W0 : Transform.mul
                 (Transform.fromMul Transform.identity Transform.identity)
                 stretch_x = stretch_x).
  { rewrite fromMul_identity_r, mul_fromMul. unfold stretch_x. transform_lra. }
  pose proof fromMul_stretch_turned as W1.
  pose proof fromMul_stretched_step as W2.
  unfold Pose.updateWorld.
  change (seq 0 (length (joints sheared_pose))) with [0; 1; 2; 3]%nat.
  erewrite updateWorld_loop_cons.
  2: { erewrite updateWorld_step_root; [| reflexivity | reflexivity].
       cbn [rootOffset poseOffset sheared_pose local chain_joint].
       rewrite W0. reflexivity. }
  erewrite updateWorld_loop_cons.
  2: { erewrite updateWorld_step_child;
         [| reflexivity | discriminate | reflexivity].
       cbn [world local chain_joint Joint.with_world]. rewrite W1.
       reflexivity. }
  erewrite updateWorld_loop_cons.
  2: { erewrite updateWorld_step_child;
         [| reflexivity | discriminate | reflexivity].
       cbn [world local chain_joint Joint.with_world]. rewrite W2.
       reflexivity. }
  erewrite updateWorld_loop_cons.
  2: { erewrite updateWorld_step_child;
         [| reflexivity | discriminate | reflexivity].
       cbn [world local chain_joint Joint.with_world]. rewrite W2.
       reflexivity. }
  reflexivity.
Qed.

(** What [getWorld (2)] returns in that pose. *)
Lemma getWorld_sheared :
  Pose.getWorld_new sheared_pose_updated 2 = Returns sheared_near.
Proof.
  transitivity
    (Returns
       (Transform.pmul
          (Transform.pmul
             (Transform.pmul
                (Transform.pmul (Transform.copy step_x) turned) stretch_x)
             Transform.identity)
          Transform.identity)).
  - reflexivity.
  - rewrite !pmul_fromMul, copy_id, !fromMul_identity_l.
    rewrite fromMul_turned_step, fromMul_stretch_turned_step. reflexivity.
Qed.

(** C1, as stated, fails: in a pose of four joints on three levels whose
    root is stretched along X, the cache written by [updateWorld] puts the
    joint 2 at (0, 2, 0), and [getWorld (2)] puts it at (0, 1, 0). *)
Lemma getWorld_updateWorld_differ :
  exists p' j w,
    Pose.updateWorld sheared_pose = mkCall p' [] (Returns tt) /\
    array_get (joints p') 2 = Some j /\
    Pose.getWorld_new p' 2 = Returns w /\
    pos (world j) = mkVec3 0 2 0 /\ pos w = mkVec3 0 1 0 /\
    ~ transform_close tolerance w (world j).
Proof.
  exists sheared_pose_updated,
    (cached_joint "head" 2 1 step_x sheared_far), sheared_near.
  split; [exact updateWorld_sheared |]. split; [reflexivity |].
  split; [exact getWorld_sheared |]. split; [reflexivity |].
  split; [reflexivity |].
  exact sheared_not_close.
Qed.

(** C1, amended: in a pose whose joints come after their parents and whose
    offsets and local transforms are rotations by unit quaternions with a
    uniform scale, [updateWorld] returns and, for every joint index [i],
    [getWorld (i)] returns the world transform that [updateWorld] cached for
    that joint (the one of the root joints being
    [fromMul (rootOffset, poseOffset).mul (local)] and the one of the other
    joints [fromMul (parent.world, local)]), in exact arithmetic; and
    [getWorld (-1)] is [fromMul (rootOffset, poseOffset)] in every pose. *)
Theorem getWorld_agrees_with_updateWorld (p : Pose) :
  ordered (joints p) -> rigid_pose p ->
  exists p',
    Pose.updateWorld p = mkCall p' [] (Returns tt) /\
    same_locals p p' /\
    (forall k, consistent_at p' k) /\
    (forall i j, array_get (joints p') i = Some j ->
       Pose.getWorld_new p' i = Returns (world j)) /\
    Pose.getWorld_new p' (-1) =
      Returns (Transform.fromMul (rootOffset p) (poseOffset p)).
Proof.
  intros O R.
  destruct (updateWorld_loop_spec p O (length (joints p)) 0 p)
    as (p' & Hrun & Hs & C); [apply same_locals_refl | lia | intros k Hk; lia |].
  assert (C' : forall k, consistent_at p' k).
  { intros k. destruct (Nat.lt_ge_cases k (length (joints p))) as [Hk | Hk].
    - apply C. lia.
    - intros j Hj. apply nth_error_in_range in Hj.
      destruct Hs as (_ & _ & _ & _ & L & _). lia. }
  exists p'. split; [exact Hrun |]. split; [exact Hs |]. split; [exact C' |].
  split.
  - apply getWorld_consistent; auto.
    + eapply same_locals_ordered; eauto.
    + eapply same_locals_rigid; eauto.
  - unfold Pose.getWorld_new. rewrite getWorld_root. cbn [result state].
    destruct Hs as (_ & _ & -> & -> & _). reflexivity.
Qed.

Lemma unitq_turn_xyz : unitq turn_xyz.
Proof. unfold unitq, norm2, turn_xyz; cbn [qx qy qz qw]. lra. Qed.

Lemma rigid_chain_pose_ordered : ordered (joints rigid_chain_pose).
Proof.
  intros [| [| [| [| k]]]] j H; cbn in H; try (injection H as <-); cbn;
    try lia. destruct k; discriminate.
Qed.

Lemma rigid_chain_pose_rigid : rigid_pose rigid_chain_pose.
Proof.
  split; [apply rigid_identity |]. split; [apply rigid_identity |].
  intros [| [| [| [| k]]]] j H; cbn in H; try (injection H as <-).
  - split; [apply unitq_turn_xyz | split; reflexivity].
  - split; [apply unitq_turn_xyz | split; reflexivity].
  - apply rigid_identity.
  - apply rigid_identity.
  - destruct k; discriminate.
Qed.

(** The amended C1 on four joints with rigid transforms. *)
Lemma getWorld_agrees_with_updateWorld_witness :
  ordered (joints rigid_chain_pose) /\ rigid_pose rigid_chain_pose /\
  exists p',
    Pose.updateWorld rigid_chain_pose = mkCall p' [] (Returns tt) /\
    forall i j, array_get (joints p') i = Some j ->
      Pose.getWorld_new p' i = Returns (world j).
Proof.
  split; [exact rigid_chain_pose_ordered |].
  split; [exact rigid_chain_pose_rigid |].
  destruct (getWorld_agrees_with_updateWorld rigid_chain_pose
              rigid_chain_pose_ordered rigid_chain_pose_rigid)
    as (p' & H1 & _ & _ & H2 & _).
  exists p'. split; [exact H1 | exact H2].
Defined.

(** ** Bone names *)

(** C4, on the code: [normalize_bone_name] is written to remove the side
    indicators of a bone whose side is known, so that paired bones get
    the same name; its comment gives [arm_left] and [arm_right], which
    both are to become [arm].  It does not: [LeftUpperArm] and
    [RightUpperArm], classified as arms on the left and on the right,
    keep their side and become [leftupperarm] and [rightupperarm], and
    the names of the comment come back as they are.  The pattern
    [\b(left|right|l|r)\b] needs a word boundary on both sides of the
    side, and neither a letter nor [_] makes one; [determine_bone_side]
    finds the side in all four names.  Only a side that stands alone
    at an end, as in [L_UpperArm], is removed. *)
Theorem side_indicator_not_removed :
  BoneAutoMapper.create_bone_metadata "LeftUpperArm" None =
    mkBoneMetadata "LeftUpperArm" "leftupperarm" Left Arms None /\
  BoneAutoMapper.create_bone_metadata "RightUpperArm" None =
    mkBoneMetadata "RightUpperArm" "rightupperarm" Right Arms None /\
  normalized_name (BoneAutoMapper.create_bone_metadata "LeftUpperArm" None)
    <> normalized_name
         (BoneAutoMapper.create_bone_metadata "RightUpperArm" None) /\
  BoneAutoMapper.create_bone_metadata "arm_left" None =
    mkBoneMetadata "arm_left" "arm_left" Left Arms None /\
  BoneAutoMapper.create_bone_metadata "arm_right" None =
    mkBoneMetadata "arm_right" "arm_right" Right Arms None /\
  BoneAutoMapper.create_bone_metadata "L_UpperArm" None =
    mkBoneMetadata "L_UpperArm" "upperarm" Left Arms None /\
  BoneAutoMapper.create_bone_metadata "R_UpperArm" None =
    mkBoneMetadata "R_UpperArm" "upperarm" Right Arms None.
Proof.
  split; [vm_compute; reflexivity |]. split; [vm_compute; reflexivity |].
  split; [vm_compute; discriminate |].
  repeat split; vm_compute; reflexivity.
Qed.

(** * Further properties of the sources *)

(** ** Quat.ts: products, inverses and normalisation *)

Lemma quat_eq (a b : Quat) :
  qx a = qx b -> qy a = qy b -> qz a = qz b -> qw a = qw b -> a = b.
Proof. destruct a, b; cbn; congruence. Qed.

Lemma vec3_eq (a b : Vec3) :
  vx a = vx b -> vy a = vy b -> vz a = vz b -> a = b.
Proof. destruct a, b; cbn; congruence. Qed.

Lemma invert_fst (q : Quat) : fst (Quat.invert q) = Transform.qInvert q.
Proof.
  unfold Quat.invert, Transform.qInvert; cbv zeta.
  destruct (Req_dec_T _ 0); reflexivity.
Qed.

Lemma fromInvert_qInvert (q : Quat) : Quat.fromInvert q = Transform.qInvert q.
Proof. reflexivity. Qed.

Lemma norm2_nonneg (q : Quat) : 0 <= norm2 q.
Proof. unfold norm2. nra. Qed.

Lemma norm2_qdiv_conjugate (q : Quat) :
  norm2 q <> 0 -> norm2 (qdiv (conjugate q) (norm2 q)) = 1 / norm2 q.
Proof.
  intros H. destruct q as [x y z w]. unfold norm2, qdiv, conjugate in *.
  cbn [qx qy qz qw] in *. field. exact H.
Qed.

Lemma qMul_qInvert_r (q : Quat) :
  norm2 q <> 0 -> Transform.qMul q (Transform.qInvert q) = Quat.identity.
Proof.
  intros H. rewrite (qInvert_nonzero q H).
  destruct q as [x y z w]. unfold norm2, qdiv, conjugate, Transform.qMul,
    Quat.identity in *. cbn [qx qy qz qw] in *.
  f_equal; field; exact H.
Qed.

Lemma qMul_qInvert_l (q : Quat) :
  norm2 q <> 0 -> Transform.qMul (Transform.qInvert q) q = Quat.identity.
Proof.
  intros H. rewrite (qInvert_nonzero q H).
  destruct q as [x y z w]. unfold norm2, qdiv, conjugate, Transform.qMul,
    Quat.identity in *. cbn [qx qy qz qw] in *.
  f_equal; field; exact H.
Qed.

Lemma qInvert_involutive (q : Quat) :
  norm2 q <> 0 -> Transform.qInvert (Transform.qInvert q) = q.
Proof.
  intros H. rewrite (qInvert_nonzero q H).
  assert (Hn : norm2 (qdiv (conjugate q) (norm2 q)) <> 0).
  { rewrite (norm2_qdiv_conjugate q H). unfold Rdiv. rewrite Rmult_1_l.
    apply Rinv_neq_0_compat. exact H. }
  rewrite (qInvert_nonzero _ Hn), (norm2_qdiv_conjugate q H).
  destruct q as [x y z w]. unfold norm2, qdiv, conjugate in *.
  cbn [qx qy qz qw] in *. f_equal; field; exact H.
Qed.

Lemma qMul_identity_l (q : Quat) : Transform.qMul Quat.identity q = q.
Proof. destruct q. unfold Transform.qMul, Quat.identity; cbn. f_equal; ring. Qed.

Lemma qMul_identity_r (q : Quat) : Transform.qMul q Quat.identity = q.
Proof. destruct q. unfold Transform.qMul, Quat.identity; cbn. f_equal; ring. Qed.

(** X1.  The quaternions that are not zero form a group under [mul]:
    the product is associative with [new Quat()] as its unit, the squared
    magnitude of a product is the product of the squared magnitudes (so
    that unit quaternions stay unit), [pmul] and [fromMul] are [mul] with
    the operands in the other order and in the same order, and, for a
    quaternion that is not zero, [invert] gives the inverse on both sides
    without a word on the console; inverting twice gives the quaternion
    back, and [fromInvert] computes what [invert] computes. *)
Theorem quat_group_laws (a b c q : Quat) :
  Quat.mul (Quat.mul a b) c = Quat.mul a (Quat.mul b c) /\
  Quat.mul Quat.identity a = a /\ Quat.mul a Quat.identity = a /\
  norm2 (Quat.mul a b) = norm2 a * norm2 b /\
  Quat.pmul a b = Quat.mul b a /\
  Quat.fromMul a b = Quat.mul a b /\
  Quat.fromInvert q = fst (Quat.invert q) /\
  (norm2 q <> 0 ->
   Quat.mul q (fst (Quat.invert q)) = Quat.identity /\
   Quat.mul (fst (Quat.invert q)) q = Quat.identity /\
   fst (Quat.invert (fst (Quat.invert q))) = q /\
   snd (Quat.invert q) = []).
Proof.
  split; [apply qMul_assoc |]. split; [apply qMul_identity_l |].
  split; [apply qMul_identity_r |]. split; [apply norm2_qMul |].
  split; [reflexivity |]. split; [reflexivity |].
  rewrite !invert_fst. split; [reflexivity |].
  intros H. split; [apply qMul_qInvert_r, H |].
  split; [apply qMul_qInvert_l, H |].
  split; [apply qInvert_involutive, H |].
  unfold Quat.invert; cbv zeta.
  destruct (Req_dec_T _ 0) as [E | _]; [| reflexivity].
  rewrite dot_norm2 in E. contradiction.
Qed.

Lemma quat_group_laws_witness :
  norm2 (mkQuat 0 0 0 2) <> 0 /\
  Quat.mul (mkQuat 0 0 0 2) (fst (Quat.invert (mkQuat 0 0 0 2))) =
  Quat.identity.
Proof.
  assert (H : norm2 (mkQuat 0 0 0 2) <> 0) by (unfold norm2; cbn; lra).
  split; [exact H |].
  destruct (quat_group_laws turn_xyz turn_xyz turn_xyz (mkQuat 0 0 0 2))
    as (_ & _ & _ & _ & _ & _ & _ & G).
  exact (proj1 (G H)).
Defined.

Lemma pmulInvert_pmul (this q : Quat) :
  Quat.pmulInvert this q = Transform.qMul (Transform.qInvert q) this.
Proof.
  unfold Quat.pmulInvert, Transform.qInvert, Transform.qMul; cbv zeta.
  destruct (Req_dec_T _ 0); reflexivity.
Qed.

(** X2.  In exact arithmetic, [pmulInvert (q)] is [pmul] by the inverse
    of [q]; when [q] is not zero it undoes [pmul (q)] and is undone by
    it: this is the step "to local space" of the chain operators.  On
    binary64 numbers the test is made on the computed sum of squares:
    for [q = (2^-600, 0, 0, 0)], which is not zero, [pmulInvert (q)]
    sends the identity to the zero quaternion, and [pmul (q)] does not
    bring it back. *)
Theorem pmulInvert_undoes_pmul (this q : Quat) :
  Quat.pmulInvert this q = Quat.pmul this (fst (Quat.invert q)) /\
  (norm2 q <> 0 ->
   Quat.pmul (Quat.pmulInvert this q) q = this /\
   Quat.pmulInvert (Quat.pmul this q) q = this) /\
  Binary64.Quat.pmulInvert identity64 tiny_quat = zero64 /\
  Binary64.Quat.pmul (Binary64.Quat.pmulInvert identity64 tiny_quat)
    tiny_quat = zero64.
Proof.
  split; [| split].
  - rewrite invert_fst. apply pmulInvert_pmul.
  - intros H. rewrite !pmulInvert_pmul.
    change (Transform.qMul q (Transform.qMul (Transform.qInvert q) this) = this
            /\ Transform.qMul (Transform.qInvert q) (Transform.qMul q this)
               = this).
    rewrite <- !qMul_assoc, (qMul_qInvert_r q H), (qMul_qInvert_l q H),
      qMul_identity_l.
    split; reflexivity.
  - split; vm_compute; reflexivity.
Qed.

Lemma pmulInvert_undoes_pmul_witness :
  norm2 (mkQuat 0 0 0 2) <> 0 /\
  Quat.pmul (Quat.pmulInvert turn_xyz (mkQuat 0 0 0 2)) (mkQuat 0 0 0 2) =
  turn_xyz.
Proof.
  assert (H : norm2 (mkQuat 0 0 0 2) <> 0) by (unfold norm2; cbn; lra).
  split; [exact H |].
  exact (proj1 (proj1 (proj2 (pmulInvert_undoes_pmul turn_xyz
                                (mkQuat 0 0 0 2))) H)).
Defined.

Lemma quat_norm_scaled (q : Quat) :
  norm2 q <> 0 -> Quat.norm q = qscale (1 / sqrt (norm2 q)) q.
Proof.
  intros H. unfold Quat.norm; cbv zeta.
  change (qx q ^ 2 + qy q ^ 2 + qz q ^ 2 + qw q ^ 2) with (norm2 q).
  destruct (Rlt_dec 0 (norm2 q)) as [_ | N].
  - unfold qscale. f_equal; ring.
  - pose proof (norm2_nonneg q). lra.
Qed.

Lemma quat_norm_zero (q : Quat) : norm2 q = 0 -> Quat.norm q = q.
Proof.
  intros H. unfold Quat.norm; cbv zeta.
  change (qx q ^ 2 + qy q ^ 2 + qz q ^ 2 + qw q ^ 2) with (norm2 q).
  destruct (Rlt_dec 0 (norm2 q)) as [P | _]; [lra | reflexivity].
Qed.

Lemma norm2_qscale (k : R) (q : Quat) : norm2 (qscale k q) = k * k * norm2 q.
Proof. unfold norm2, qscale; cbn. ring. Qed.

Lemma quat_norm_unit (q : Quat) : norm2 q <> 0 -> unitq (Quat.norm q).
Proof.
  intros H. unfold unitq. rewrite (quat_norm_scaled q H), norm2_qscale.
  pose proof (norm2_nonneg q) as Hp.
  assert (Hs : sqrt (norm2 q) * sqrt (norm2 q) = norm2 q)
    by (apply sqrt_sqrt, Hp).
  assert (Hz : sqrt (norm2 q) <> 0).
  { intros E. rewrite E in Hs. lra. }
  rewrite <- Hs at 3. field. exact Hz.
Qed.

Lemma quat_norm_of_unit (q : Quat) : unitq q -> Quat.norm q = q.
Proof.
  intros H. rewrite quat_norm_scaled by (rewrite H; lra).
  rewrite H, sqrt_1. destruct q. unfold qscale; cbn. f_equal; field.
Qed.

(** X3.  In exact arithmetic, [norm] turns every quaternion that is not
    zero into a unit quaternion and leaves the zero quaternion as it is;
    normalising twice is normalising once.  On binary64 numbers the test
    [len > 0] is made on the computed sum of squares: [norm] leaves
    [(2^-600, 0, 0, 0)] as it is, its squares being 0, and turns
    [(2^600, 0, 0, 0)] into the zero quaternion, the sum being infinite
    and the factor [1 / Math.sqrt (len)] being 0. *)
Theorem quat_norm_spec (q : Quat) :
  (norm2 q <> 0 -> unitq (Quat.norm q)) /\
  (norm2 q = 0 -> Quat.norm q = q) /\
  Quat.norm (Quat.norm q) = Quat.norm q /\
  Binary64.Quat.norm tiny_quat = tiny_quat /\
  Binary64.Quat.norm huge_quat = zero64.
Proof.
  split; [apply quat_norm_unit |]. split; [apply quat_norm_zero |].
  split; [| split; vm_compute; reflexivity].
  destruct (Req_dec_T (norm2 q) 0) as [E | N].
  - rewrite (quat_norm_zero q E). apply quat_norm_zero, E.
  - apply quat_norm_of_unit, quat_norm_unit, N.
Qed.

Lemma quat_norm_spec_witness :
  norm2 (mkQuat 0 3 0 4) <> 0 /\ unitq (Quat.norm (mkQuat 0 3 0 4)) /\
  norm2 zero_quat = 0 /\ Quat.norm zero_quat = zero_quat.
Proof.
  assert (H : norm2 (mkQuat 0 3 0 4) <> 0) by (unfold norm2; cbn; lra).
  assert (Z : norm2 zero_quat = 0) by (unfold norm2, zero_quat; cbn; lra).
  split; [exact H |]. split.
  - exact (proj1 (quat_norm_spec (mkQuat 0 3 0 4)) H).
  - split; [exact Z |]. exact (proj1 (proj2 (quat_norm_spec zero_quat)) Z).
Defined.

(** ** Quat.ts and Vec3.ts: rotations *)

Lemma transformQuat_qTransform (v : Vec3) (q : Quat) :
  Vec3.transformQuat v q = Transform.qTransform q v.
Proof. reflexivity. Qed.

Lemma fromQuat_qTransform (q : Quat) (v : Vec3) :
  Vec3.fromQuat q (Some v) = Transform.qTransform q v.
Proof. reflexivity. Qed.

Lemma len_one_lenSqr (v : Vec3) : Vec3.len v = 1 -> Vec3.lenSqr v = 1.
Proof. intros H. rewrite <- len_sqr, H. ring. Qed.

Lemma sin_cos_half (rad : R) :
  sin rad = 2 * sin (rad * 0.5) * cos (rad * 0.5) /\
  cos rad = 1 - 2 * sin (rad * 0.5) * sin (rad * 0.5) /\
  sin (rad * 0.5) * sin (rad * 0.5) + cos (rad * 0.5) * cos (rad * 0.5) = 1.
Proof.
  repeat split.
  - rewrite <- sin_2a. f_equal. lra.
  - rewrite <- cos_2a_sin. f_equal. lra.
  - pose proof (sin2_cos2 (rad * 0.5)) as H. unfold Rsqr in H. exact H.
Qed.

Lemma fromAxisAngle_unit (axis : Vec3) (rad : R) :
  Vec3.lenSqr axis = 1 -> unitq (Quat.fromAxisAngle axis rad).
Proof.
  intros H. destruct (sin_cos_half rad) as (_ & _ & Hsc).
  destruct axis as [x y z].
  unfold unitq, norm2, Quat.fromAxisAngle, Vec3.lenSqr in *.
  cbn [qx qy qz qw vx vy vz] in *.
  set (s := sin (rad * 0.5)) in *. set (c := cos (rad * 0.5)) in *.
  replace ((x * s) ^ 2 + (y * s) ^ 2 + (z * s) ^ 2 + c ^ 2)
    with ((x ^ 2 + y ^ 2 + z ^ 2) * (s * s) + c * c) by ring.
  rewrite H. lra.
Qed.

Lemma rot_axes (q : Quat) (rad : R) :
  Quat.rotX q rad = Quat.mul q (Quat.fromAxisAngle axis_x rad) /\
  Quat.rotY q rad = Quat.mul q (Quat.fromAxisAngle axis_y rad) /\
  Quat.rotZ q rad = Quat.mul q (Quat.fromAxisAngle axis_z rad).
Proof.
  destruct q.
  unfold Quat.rotX, Quat.rotY, Quat.rotZ, Quat.mul, Quat.fromAxisAngle,
    axis_x, axis_y, axis_z; cbn [qx qy qz qw vx vy vz].
  repeat split; f_equal; ring.
Qed.

Lemma lenSqr_axes :
  Vec3.lenSqr axis_x = 1 /\ Vec3.lenSqr axis_y = 1 /\ Vec3.lenSqr axis_z = 1.
Proof.
  unfold Vec3.lenSqr, axis_x, axis_y, axis_z; cbn [vx vy vz].
  repeat split; ring.
Qed.

(** X4.  [fromAxisAngle] with a unit axis gives a unit quaternion that
    leaves the axis where it is; a turn of angle zero is the identity;
    [pmulAxisAngle] is [pmul] by the quaternion of [fromAxisAngle]; and
    [rotX], [rotY] and [rotZ] multiply the receiver on the right by the
    turn of [fromAxisAngle] about the X, Y and Z axis, which keeps the
    magnitude of the receiver. *)
Theorem fromAxisAngle_axis_fixed (axis : Vec3) (rad : R) :
  Vec3.len axis = 1 ->
  unitq (Quat.fromAxisAngle axis rad) /\
  Vec3.transformQuat axis (Quat.fromAxisAngle axis rad) = axis /\
  Quat.fromAxisAngle axis 0 = Quat.identity /\
  forall q,
    Quat.pmulAxisAngle q axis rad =
      Quat.pmul q (Quat.fromAxisAngle axis rad) /\
    (Quat.rotX q rad = Quat.mul q (Quat.fromAxisAngle axis_x rad) /\
     Quat.rotY q rad = Quat.mul q (Quat.fromAxisAngle axis_y rad) /\
     Quat.rotZ q rad = Quat.mul q (Quat.fromAxisAngle axis_z rad)) /\
    (norm2 (Quat.rotX q rad) = norm2 q /\
     norm2 (Quat.rotY q rad) = norm2 q /\
     norm2 (Quat.rotZ q rad) = norm2 q).
Proof.
  intros H. apply len_one_lenSqr in H.
  split; [apply fromAxisAngle_unit, H |]. split; [| split].
  - destruct axis as [x y z].
    unfold Vec3.transformQuat, Quat.fromAxisAngle.
    cbn [qx qy qz qw vx vy vz]. f_equal; ring.
  - unfold Quat.fromAxisAngle, Quat.identity.
    replace (0 * 0.5) with 0 by lra. rewrite sin_0, cos_0.
    f_equal; ring.
  - intros q. split; [reflexivity |].
    destruct (rot_axes q rad) as (Ex & Ey & Ez).
    destruct lenSqr_axes as (Hx & Hy & Hz).
    split; [auto |].
    rewrite Ex, Ey, Ez.
    change Quat.mul with Transform.qMul. rewrite !norm2_qMul.
    rewrite (fromAxisAngle_unit axis_x rad Hx),
      (fromAxisAngle_unit axis_y rad Hy), (fromAxisAngle_unit axis_z rad Hz).
    repeat split; ring.
Qed.

Lemma fromAxisAngle_axis_fixed_witness :
  Vec3.len axis_z = 1 /\
  Vec3.transformQuat axis_z (Quat.fromAxisAngle axis_z 1) = axis_z.
Proof.
  assert (H : Vec3.len axis_z = 1).
  { unfold Vec3.len, axis_z; cbn [vx vy vz].
    replace (0 ^ 2 + 0 ^ 2 + 1 ^ 2) with 1 by ring. apply sqrt_1. }
  split; [exact H |].
  exact (proj1 (proj2 (fromAxisAngle_axis_fixed axis_z 1 H))).
Defined.

Lemma rodrigues (v axis : Vec3) (rad : R) :
  Vec3.lenSqr axis = 1 ->
  Vec3.axisAngle v axis rad =
  Vec3.transformQuat v (Quat.fromAxisAngle axis rad).
Proof.
  intros H.
  destruct (sin_cos_half rad) as (Hs & Hc & _).
  destruct axis as [x y z], v as [v1 v2 v3].
  unfold Vec3.axisAngle, Vec3.transformQuat, Quat.fromAxisAngle,
    Vec3.fromCross, Vec3.dot, Vec3.lenSqr in *.
  cbn [qx qy qz qw vx vy vz] in *. rewrite Hs, Hc.
  set (s := sin (rad * 0.5)). set (c := cos (rad * 0.5)).
  f_equal; apply Rminus_diag_uniq.
  - match goal with |- ?e = 0 =>
      replace e with (2 * s * s * v1 * ((x ^ 2 + y ^ 2 + z ^ 2) - 1)) by ring
    end.
    rewrite H. ring.
  - match goal with |- ?e = 0 =>
      replace e with (2 * s * s * v2 * ((x ^ 2 + y ^ 2 + z ^ 2) - 1)) by ring
    end.
    rewrite H. ring.
  - match goal with |- ?e = 0 =>
      replace e with (2 * s * s * v3 * ((x ^ 2 + y ^ 2 + z ^ 2) - 1)) by ring
    end.
    rewrite H. ring.
Qed.

(** X5.  For a unit axis, the formula of Rodrigues of [Vec3.axisAngle]
    and the rotation by the quaternion of [Quat.fromAxisAngle] move a
    vector to the same place. *)
Theorem axisAngle_is_fromAxisAngle (v axis : Vec3) (rad : R) :
  Vec3.len axis = 1 ->
  Vec3.axisAngle v axis rad =
  Vec3.transformQuat v (Quat.fromAxisAngle axis rad).
Proof. intros H. apply rodrigues, len_one_lenSqr, H. Qed.

Lemma axisAngle_is_fromAxisAngle_witness :
  Vec3.len axis_z = 1 /\
  Vec3.axisAngle axis_x axis_z 1 =
  Vec3.transformQuat axis_x (Quat.fromAxisAngle axis_z 1).
Proof.
  assert (H : Vec3.len axis_z = 1).
  { unfold Vec3.len, axis_z; cbn [vx vy vz].
    replace (0 ^ 2 + 0 ^ 2 + 1 ^ 2) with 1 by ring. apply sqrt_1. }
  split; [exact H |].
  exact (axisAngle_is_fromAxisAngle axis_x axis_z 1 H).
Defined.

Lemma qTransform_qscale (k : R) (q : Quat) (v : Vec3) :
  Transform.qTransform (qscale k q) v =
  vadd v (vscale (k * k) (vsub (Transform.qTransform q v) v)).
Proof.
  destruct q, v. unfold Transform.qTransform, qscale, vadd, vscale, vsub.
  cbn [qx qy qz qw vx vy vz]. f_equal; ring.
Qed.

(** The quaternion of the general case of [fromSwing], before [norm]. *)
Lemma swing_norm2 (a b : Vec3) :
  Vec3.lenSqr a = 1 -> Vec3.lenSqr b = 1 ->
  norm2 (mkQuat (vx (Vec3.cross a b)) (vy (Vec3.cross a b))
                (vz (Vec3.cross a b)) (1 + Vec3.dot a b)) =
  2 * (1 + Vec3.dot a b).
Proof.
  intros Ha Hb. destruct a as [a1 a2 a3], b as [b1 b2 b3].
  unfold norm2, Vec3.cross, Vec3.dot, Vec3.lenSqr in *.
  cbn [qx qy qz qw vx vy vz] in *.
  apply Rminus_diag_uniq.
  match goal with |- ?e = 0 =>
    replace e with
      ((a1 ^ 2 + a2 ^ 2 + a3 ^ 2) * (b1 ^ 2 + b2 ^ 2 + b3 ^ 2) - 1) by ring
  end.
  rewrite Ha, Hb. ring.
Qed.

Lemma swing_moves (a b : Vec3) :
  Vec3.lenSqr a = 1 -> Vec3.lenSqr b = 1 ->
  vsub (Transform.qTransform
          (mkQuat (vx (Vec3.cross a b)) (vy (Vec3.cross a b))
                  (vz (Vec3.cross a b)) (1 + Vec3.dot a b)) a) a =
  vscale (2 * (1 + Vec3.dot a b)) (vsub b a).
Proof.
  intros Ha Hb. destruct a as [a1 a2 a3], b as [b1 b2 b3].
  unfold Transform.qTransform, Vec3.cross, Vec3.dot, Vec3.lenSqr, vsub,
    vscale in *.
  cbn [qx qy qz qw vx vy vz] in *.
  set (A := a1 ^ 2 + a2 ^ 2 + a3 ^ 2) in *.
  set (B := b1 ^ 2 + b2 ^ 2 + b3 ^ 2) in *.
  set (d := a1 * b1 + a2 * b2 + a3 * b3).
  f_equal; apply Rminus_diag_uniq.
  - match goal with |- ?e = 0 =>
      replace e with
        (2 * ((1 + d) * ((A - 1) * b1) + (1 - A * B) * a1))
    end.
    + rewrite Ha, Hb. ring.
    + unfold A, B, d. ring.
  - match goal with |- ?e = 0 =>
      replace e with
        (2 * ((1 + d) * ((A - 1) * b2) + (1 - A * B) * a2))
    end.
    + rewrite Ha, Hb. ring.
    + unfold A, B, d. ring.
  - match goal with |- ?e = 0 =>
      replace e with
        (2 * ((1 + d) * ((A - 1) * b3) + (1 - A * B) * a3))
    end.
    + rewrite Ha, Hb. ring.
    + unfold A, B, d. ring.
Qed.

(** X6.  [fromSwing (a, b)] on unit vectors that are neither opposite nor
    the same up to the thresholds of the code: the result is a unit
    quaternion and it turns [a] onto [b] exactly.  Above the upper
    threshold the result is the identity. *)
Theorem fromSwing_turns_a_onto_b (a b : Vec3) :
  Vec3.len a = 1 -> Vec3.len b = 1 ->
  -0.999999 <= Vec3.dot a b ->
  unitq (Quat.fromSwing a b) /\
  (Vec3.dot a b <= 0.999999 ->
   Vec3.transformQuat a (Quat.fromSwing a b) = b) /\
  (0.999999 < Vec3.dot a b -> Quat.fromSwing a b = Quat.identity).
Proof.
  intros Ha Hb Hd.
  apply len_one_lenSqr in Ha. apply len_one_lenSqr in Hb.
  pose proof (swing_norm2 a b Ha Hb) as Hn.
  pose proof (swing_moves a b Ha Hb) as Hm.
  unfold Quat.fromSwing; cbv zeta.
  destruct (Rlt_dec (Vec3.dot a b) (-0.999999)) as [L | _]; [lra |].
  destruct (Rlt_dec 0.999999 (Vec3.dot a b)) as [G | NG].
  - repeat split.
    + unfold unitq, norm2; cbn. ring.
    + intros. lra.
  - set (q0 := mkQuat (vx (Vec3.cross a b)) (vy (Vec3.cross a b))
                      (vz (Vec3.cross a b)) (1 + Vec3.dot a b)) in *.
    assert (Hz : norm2 q0 <> 0) by (rewrite Hn; lra).
    split; [apply quat_norm_unit, Hz |]. split; [| intros; lra].
    intros _.
    rewrite transformQuat_qTransform, (quat_norm_scaled q0 Hz),
      qTransform_qscale, Hm, Hn.
    assert (Hp : 0 <= 2 * (1 + Vec3.dot a b)) by lra.
    assert (Hs : sqrt (2 * (1 + Vec3.dot a b)) *
                 sqrt (2 * (1 + Vec3.dot a b)) = 2 * (1 + Vec3.dot a b))
      by (apply sqrt_sqrt, Hp).
    set (r := sqrt (2 * (1 + Vec3.dot a b))) in *.
    assert (Hr : r <> 0) by (intros E; rewrite E in Hs; lra).
    rewrite <- Hs.
    destruct a as [a1 a2 a3], b as [b1 b2 b3].
    unfold vadd, vscale, vsub; cbn [vx vy vz].
    f_equal; field; exact Hr.
Qed.

Lemma fromSwing_turns_a_onto_b_witness :
  Vec3.len axis_x = 1 /\ Vec3.len axis_y = 1 /\
  Vec3.transformQuat axis_x (Quat.fromSwing axis_x axis_y) = axis_y.
Proof.
  assert (Hx : Vec3.len axis_x = 1).
  { unfold Vec3.len, axis_x; cbn [vx vy vz].
    replace (1 ^ 2 + 0 ^ 2 + 0 ^ 2) with 1 by ring. apply sqrt_1. }
  assert (Hy : Vec3.len axis_y = 1).
  { unfold Vec3.len, axis_y; cbn [vx vy vz].
    replace (0 ^ 2 + 1 ^ 2 + 0 ^ 2) with 1 by ring. apply sqrt_1. }
  assert (Hd : Vec3.dot axis_x axis_y = 0)
    by (unfold Vec3.dot, axis_x, axis_y; cbn [vx vy vz]; ring).
  split; [exact Hx |]. split; [exact Hy |].
  apply (fromSwing_turns_a_onto_b axis_x axis_y Hx Hy); rewrite Hd; lra.
Defined.

Lemma qTransform_qscale_sign (k : R) (q : Quat) (v : Vec3) :
  k * k = 1 -> Transform.qTransform (qscale k q) v = Transform.qTransform q v.
Proof.
  intros H. rewrite qTransform_qscale, H.
  destruct (Transform.qTransform q v), v.
  unfold vadd, vscale, vsub; cbn [vx vy vz]. f_equal; ring.
Qed.

Lemma qMul_qscale_l (k : R) (a b : Quat) :
  Transform.qMul (qscale k a) b = qscale k (Transform.qMul a b).
Proof.
  destruct a, b. unfold Transform.qMul, qscale; cbn [qx qy qz qw].
  f_equal; ring.
Qed.

Lemma qscale_1 (q : Quat) : qscale 1 q = q.
Proof. destruct q. unfold qscale; cbn [qx qy qz qw]. f_equal; ring. Qed.

Lemma pmulAxisAngle_pmul (this : Quat) (axis : Vec3) (rad : R) :
  Quat.pmulAxisAngle this axis rad =
  Quat.pmul this (Quat.fromAxisAngle axis rad).
Proof. reflexivity. Qed.

Lemma dotNegate_sign (this chk : Quat) :
  exists k, (k = 1 \/ k = -1) /\ Quat.dotNegate this chk = qscale k this.
Proof.
  unfold Quat.dotNegate; cbv zeta. destruct (Rlt_dec _ 0).
  - exists (-1). split; [right; reflexivity |].
    destruct this; unfold qscale; cbn [qx qy qz qw]. f_equal; ring.
  - exists 1. split; [left; reflexivity |]. symmetry. apply qscale_1.
Qed.

Lemma Rlt_dec_same (x y : R) (A : Type) (u v : A) :
  x = y -> (if Rlt_dec x 0 then u else v) = (if Rlt_dec y 0 then u else v).
Proof. intros ->. reflexivity. Qed.

Lemma pmulSwing_dotNegate (this : Quat) (a b : Vec3) :
  Quat.pmulSwing this a b = Quat.pmul this (Quat.fromSwing a b) \/
  Quat.pmulSwing this a b =
    Quat.pmul this (Quat.dotNegate (Quat.fromSwing a b) this).
Proof.
  unfold Quat.pmulSwing, Quat.fromSwing; cbv zeta.
  destruct (Rlt_dec (Vec3.dot a b) (-0.999999)).
  - left. reflexivity.
  - destruct (Rlt_dec 0.999999 (Vec3.dot a b)).
    + left. destruct this.
      unfold Quat.pmul; cbn [qx qy qz qw]. f_equal; ring.
    + right. unfold Quat.dotNegate; cbv zeta.
      set (nq := Quat.norm _).
      change (if Rlt_dec 0 _ then _ else _) with nq.
      rewrite (Rlt_dec_same
                 (qx nq * qx this + qy nq * qy this + qz nq * qz this +
                  qw nq * qw this)
                 (qx this * qx nq + qy this * qy nq + qz this * qz nq +
                  qw this * qw nq)) by ring.
      destruct (Rlt_dec _ 0); reflexivity.
Qed.

Lemma quat_dot_dotNegate (q chk : Quat) :
  0 <= quat_dot (Quat.dotNegate q chk) chk.
Proof.
  unfold Quat.dotNegate; cbv zeta.
  change (qx q * qx chk + qy q * qy chk + qz q * qz chk + qw q * qw chk)
    with (quat_dot q chk).
  destruct (Rlt_dec (quat_dot q chk) 0) as [L | G].
  - unfold quat_dot in *; cbn [qx qy qz qw]. lra.
  - lra.
Qed.

(** X7.  [pmulSwing (a, b)] is [pmul] by the quaternion of
    [fromSwing (a, b)], with the sign that [dotNegate] gives it against
    the receiver when the vectors are neither the same nor opposite; a
    quaternion and its opposite are the same rotation, so that the
    result turns every vector to the same place as [pmul] by
    [fromSwing (a, b)].  [dotNegate] returns the receiver or its
    opposite, the one whose dot product with the argument is not
    negative. *)
Theorem pmulSwing_is_pmul_fromSwing (this : Quat) (a b v : Vec3) :
  (Quat.pmulSwing this a b = Quat.pmul this (Quat.fromSwing a b) \/
   Quat.pmulSwing this a b =
     Quat.pmul this (Quat.dotNegate (Quat.fromSwing a b) this)) /\
  Vec3.transformQuat v (Quat.pmulSwing this a b) =
    Vec3.transformQuat v (Quat.pmul this (Quat.fromSwing a b)) /\
  forall q chk,
    (Quat.dotNegate q chk = q \/ Quat.dotNegate q chk = qscale (-1) q) /\
    0 <= quat_dot (Quat.dotNegate q chk) chk.
Proof.
  split; [apply pmulSwing_dotNegate |]. split.
  - destruct (pmulSwing_dotNegate this a b) as [-> | ->]; [reflexivity |].
    destruct (dotNegate_sign (Quat.fromSwing a b) this) as (k & Hk & ->).
    change (Quat.pmul this (qscale k (Quat.fromSwing a b)))
      with (Transform.qMul (qscale k (Quat.fromSwing a b)) this).
    rewrite qMul_qscale_l, !transformQuat_qTransform.
    apply qTransform_qscale_sign. destruct Hk as [-> | ->]; ring.
  - intros q chk. split; [| apply quat_dot_dotNegate].
    destruct (dotNegate_sign q chk) as (k & [-> | ->] & ->);
      [left; apply qscale_1 | right; reflexivity].
Qed.

(** ** Vec3.ts *)

Lemma len_zero_lenSqr (v : Vec3) : Vec3.len v = 0 -> Vec3.lenSqr v = 0.
Proof. intros H. rewrite <- len_sqr, H. ring. Qed.

Lemma vec3_norm_zero (v : Vec3) : Vec3.len v = 0 -> Vec3.norm v = v.
Proof.
  intros H. unfold Vec3.norm; cbv zeta.
  change (sqrt (vx v ^ 2 + vy v ^ 2 + vz v ^ 2)) with (Vec3.len v).
  destruct (Req_dec_T (Vec3.len v) 0); [reflexivity | contradiction].
Qed.

Lemma vec3_norm_len (v : Vec3) : Vec3.len v <> 0 -> Vec3.len (Vec3.norm v) = 1.
Proof.
  intros H. rewrite len_sqrt, (norm_unit v H). apply sqrt_1.
Qed.

Lemma vec3_norm_of_unit (v : Vec3) : Vec3.len v = 1 -> Vec3.norm v = v.
Proof.
  intros H. rewrite norm_scaled by (rewrite H; lra). rewrite H.
  destruct v. unfold vscale; cbn [vx vy vz]. f_equal; field.
Qed.

Lemma fromNorm_norm (this v : Vec3) :
  Vec3.fromNorm this v =
  if Req_dec_T (Vec3.len v) 0 then this else Vec3.norm v.
Proof.
  unfold Vec3.fromNorm, Vec3.norm; cbv zeta.
  change (sqrt (vx v ^ 2 + vy v ^ 2 + vz v ^ 2)) with (Vec3.len v).
  destruct (Req_dec_T (Vec3.len v) 0); reflexivity.
Qed.

(** X8.  In exact arithmetic, [norm] gives a vector of length 1 unless
    the length is 0, in which case the vector is left as it is;
    [fromNorm (v)] stores the normalised [v] in the receiver, and leaves
    the receiver as it is when [v] has length 0.  Normalising twice is
    normalising once.  On binary64 numbers the test is made on the
    computed length: [(2^-600, 0, 0)], whose square is 0, is left as it
    is by [norm] and leaves the receiver of [fromNorm] as it is, and
    [(2^600, 0, 0)], whose computed length is infinite, becomes the zero
    vector. *)
Theorem vec3_norm_spec (this v : Vec3) (this64 : Binary64.Vec3) :
  (Vec3.len v <> 0 ->
   Vec3.len (Vec3.norm v) = 1 /\ Vec3.fromNorm this v = Vec3.norm v) /\
  (Vec3.len v = 0 -> Vec3.norm v = v /\ Vec3.fromNorm this v = this) /\
  Vec3.norm (Vec3.norm v) = Vec3.norm v /\
  Binary64.Vec3.norm tiny_vec = tiny_vec /\
  Binary64.Vec3.fromNorm this64 tiny_vec = this64 /\
  Binary64.Vec3.norm huge_vec = Binary64.mkVec3 0 0 0 /\
  Binary64.Vec3.fromNorm this64 huge_vec = Binary64.mkVec3 0 0 0.
Proof.
  rewrite fromNorm_norm.
  split; [| split; [| split; [| repeat split; vm_compute; reflexivity]]].
  - intros H. split; [apply vec3_norm_len; assumption |].
    destruct (Req_dec_T (Vec3.len v) 0); [contradiction | reflexivity].
  - intros H. split; [apply vec3_norm_zero; assumption |].
    destruct (Req_dec_T (Vec3.len v) 0); [reflexivity | contradiction].
  - destruct (Req_dec_T (Vec3.len v) 0) as [E | N].
    + rewrite (vec3_norm_zero v E). apply vec3_norm_zero, E.
    + apply vec3_norm_of_unit, vec3_norm_len, N.
Qed.

Lemma len_3_0_4 : Vec3.len (mkVec3 3 0 4) = 5.
Proof.
  unfold Vec3.len; cbn [vx vy vz].
  replace (3 ^ 2 + 0 ^ 2 + 4 ^ 2) with (5 * 5) by ring.
  apply sqrt_square. lra.
Qed.

Lemma vec3_norm_spec_witness :
  Vec3.len (mkVec3 3 0 4) <> 0 /\
  Vec3.len (Vec3.norm (mkVec3 3 0 4)) = 1 /\
  Vec3.len Vec3.zero = 0 /\ Vec3.fromNorm axis_x Vec3.zero = axis_x.
Proof.
  assert (H : Vec3.len (mkVec3 3 0 4) <> 0) by (rewrite len_3_0_4; lra).
  assert (Z : Vec3.len Vec3.zero = 0).
  { unfold Vec3.len, Vec3.zero; cbn [vx vy vz].
    replace (0 ^ 2 + 0 ^ 2 + 0 ^ 2) with 0 by ring. apply sqrt_0. }
  split; [exact H |]. split.
  - exact (proj1 (proj1 (vec3_norm_spec axis_x (mkVec3 3 0 4) tiny_vec) H)).
  - split; [exact Z |].
    exact (proj2 (proj1 (proj2 (vec3_norm_spec axis_x Vec3.zero tiny_vec))
                    Z)).
Defined.

(** X9.  [fromPlaneSnap] with a unit normal: the result lies on the
    plane through [planePos], it differs from the point by a multiple of
    the normal, snapping it again leaves it where it is, and a point of
    the plane is not moved.  A null point stands for the receiver and an
    omitted [planePos] for the origin. *)
Theorem fromPlaneSnap_on_plane (this pnt planeNorm planePos : Vec3) :
  Vec3.len planeNorm = 1 ->
  let s := Vec3.fromPlaneSnap this (Some pnt) planeNorm (Some planePos) in
  Vec3.dot (Vec3.fromSub s planePos) planeNorm = 0 /\
  Vec3.fromSub pnt s =
    vscale (Vec3.dot (Vec3.fromSub pnt planePos) planeNorm) planeNorm /\
  Vec3.fromPlaneSnap this (Some s) planeNorm (Some planePos) = s /\
  (Vec3.dot (Vec3.fromSub pnt planePos) planeNorm = 0 -> s = pnt) /\
  Vec3.fromPlaneSnap pnt None planeNorm (Some planePos) = s /\
  Vec3.fromPlaneSnap this (Some pnt) planeNorm None =
    Vec3.fromPlaneSnap this (Some pnt) planeNorm (Some Vec3.zero).
Proof.
  intros H s. apply len_one_lenSqr in H.
  destruct pnt as [p1 p2 p3], planeNorm as [n1 n2 n3],
    planePos as [o1 o2 o3].
  unfold Vec3.fromPlaneSnap, Vec3.dot, Vec3.fromSub, Vec3.lenSqr, vscale,
    Vec3.zero in *.
  cbn [vx vy vz] in *.
  set (d := (p1 - o1) * n1 + (p2 - o2) * n2 + (p3 - o3) * n3) in *.
  assert (D : (p1 - d * n1 - o1) * n1 + (p2 - d * n2 - o2) * n2 +
              (p3 - d * n3 - o3) * n3 = 0).
  { replace ((p1 - d * n1 - o1) * n1 + (p2 - d * n2 - o2) * n2 +
             (p3 - d * n3 - o3) * n3)
      with (d - d * (n1 ^ 2 + n2 ^ 2 + n3 ^ 2)) by (unfold d; ring).
    rewrite H. ring. }
  subst s; cbn [vx vy vz]. repeat split.
  - exact D.
  - f_equal; ring.
  - rewrite D. f_equal; ring.
  - intros E. rewrite E. f_equal; ring.
Qed.

Lemma fromPlaneSnap_on_plane_witness :
  Vec3.len axis_y = 1 /\
  Vec3.dot
    (Vec3.fromSub
       (Vec3.fromPlaneSnap Vec3.zero (Some (mkVec3 1 2 3)) axis_y
          (Some Vec3.zero))
       Vec3.zero)
    axis_y = 0.
Proof.
  assert (Hy : Vec3.len axis_y = 1).
  { unfold Vec3.len, axis_y; cbn [vx vy vz].
    replace (0 ^ 2 + 1 ^ 2 + 0 ^ 2) with 1 by ring. apply sqrt_1. }
  split; [exact Hy |].
  exact (proj1 (fromPlaneSnap_on_plane Vec3.zero (mkVec3 1 2 3) axis_y
                  Vec3.zero Hy)).
Defined.

(** X10.  The cross product of [fromCross] (and of the static [cross],
    which is the same function) is orthogonal to its two operands, changes
    sign when they are exchanged, and satisfies the identity of Lagrange,
    so that it is zero on parallel vectors only. *)
Theorem fromCross_orthogonal (a b : Vec3) :
  Vec3.dot (Vec3.fromCross a b) a = 0 /\
  Vec3.dot (Vec3.fromCross a b) b = 0 /\
  Vec3.fromCross b a = Vec3.negate (Vec3.fromCross a b) /\
  Vec3.lenSqr (Vec3.fromCross a b) =
    Vec3.lenSqr a * Vec3.lenSqr b - Vec3.dot a b ^ 2 /\
  Vec3.cross a b = Vec3.fromCross a b.
Proof.
  destruct a, b.
  unfold Vec3.dot, Vec3.fromCross, Vec3.cross, Vec3.negate, Vec3.lenSqr.
  cbn [vx vy vz]. repeat split; try ring. f_equal; ring.
Qed.

Lemma dot_sandwich (q : Quat) (u v : Vec3) :
  Vec3.dot (sandwich q u) (sandwich q v) =
  norm2 q * norm2 q * Vec3.dot u v.
Proof.
  destruct q, u, v. unfold Vec3.dot, sandwich, norm2.
  cbn [qx qy qz qw vx vy vz]. ring.
Qed.

Lemma lenSqr_dot (v : Vec3) : Vec3.lenSqr v = Vec3.dot v v.
Proof. unfold Vec3.lenSqr, Vec3.dot. ring. Qed.

(** X11.  Turning vectors by a unit quaternion ([transformQuat], and
    [fromQuat], which is the same function on another receiver) keeps
    their dot products and their lengths, and turning by [a] after [b]
    is turning by the product [a.mul (b)]. *)
Theorem transformQuat_isometry (q : Quat) (u v : Vec3) :
  unitq q ->
  Vec3.dot (Vec3.transformQuat u q) (Vec3.transformQuat v q) = Vec3.dot u v /\
  Vec3.len (Vec3.transformQuat v q) = Vec3.len v /\
  Vec3.fromQuat q (Some v) = Vec3.transformQuat v q /\
  forall p, unitq p ->
    Vec3.transformQuat (Vec3.transformQuat v q) p =
    Vec3.transformQuat v (Quat.mul p q).
Proof.
  intros H. repeat split.
  - rewrite !transformQuat_qTransform, !(qTransform_unit q _ H), dot_sandwich.
    rewrite H. ring.
  - rewrite !len_sqrt, !lenSqr_dot.
    rewrite !transformQuat_qTransform, !(qTransform_unit q _ H), dot_sandwich.
    rewrite H. f_equal. ring.
  - intros p Hp. rewrite !transformQuat_qTransform.
    change (Quat.mul p q) with (Transform.qMul p q).
    symmetry. apply qTransform_qMul; assumption.
Qed.

Lemma transformQuat_isometry_witness :
  unitq turn_xyz /\
  Vec3.len (Vec3.transformQuat axis_x turn_xyz) = Vec3.len axis_x.
Proof.
  split; [exact unitq_turn_xyz |].
  exact (proj1 (proj2
           (transformQuat_isometry turn_xyz axis_x axis_x unitq_turn_xyz))).
Defined.

(** ** Transform.ts: points, inverses and local space *)

(** The image of a point is the position of the product with a transform
    placed at that point. *)
Lemma transformVec3_pos (t c : Transform) :
  Transform.transformVec3 t (pos c) = pos (Transform.fromMul t c).
Proof.
  destruct t as [[] [] []], c as [? [] ?].
  unfold Transform.transformVec3, Transform.fromMul, Transform.qTransform.
  cbn [rot pos scl qx qy qz qw vx vy vz]. f_equal; ring.
Qed.

Lemma transformVec3_identity (v : Vec3) :
  Transform.transformVec3 Transform.identity v = v.
Proof.
  change v with (pos (placed v)) at 1.
  rewrite transformVec3_pos, fromMul_identity_l. reflexivity.
Qed.

Lemma transformVec3_fromMul (A B : Transform) (v : Vec3) :
  unitq (rot A) -> unitq (rot B) -> uniform (scl A) ->
  Transform.transformVec3 (Transform.fromMul A B) v =
  Transform.transformVec3 A (Transform.transformVec3 B v).
Proof.
  intros Ha Hb Hu.
  change v with (pos (placed v)).
  rewrite !transformVec3_pos. apply f_equal.
  apply fromMul_assoc_rigid; assumption.
Qed.

(** X12.  [transformVec3] of a product is the composition: with unit
    rotations and a uniform scale of the parent, the transform
    [fromMul (A, B)] moves a point where [A] moves its image by [B].
    The identity transform moves no point. *)
Theorem transformVec3_composes (A B : Transform) (v : Vec3) :
  unitq (rot A) -> unitq (rot B) -> uniform (scl A) ->
  Transform.transformVec3 (Transform.fromMul A B) v =
    Transform.transformVec3 A (Transform.transformVec3 B v) /\
  Transform.transformVec3 Transform.identity v = v /\
  Transform.transformVec3 A (pos B) = pos (Transform.fromMul A B).
Proof.
  intros Ha Hb Hu. repeat split.
  - apply transformVec3_fromMul; assumption.
  - apply transformVec3_identity.
  - apply transformVec3_pos.
Qed.

Lemma transformVec3_composes_witness :
  unitq (rot doubled_turn) /\ unitq (rot turned) /\
  uniform (scl doubled_turn) /\
  Transform.transformVec3 (Transform.fromMul doubled_turn turned) axis_x =
  Transform.transformVec3 doubled_turn
    (Transform.transformVec3 turned axis_x).
Proof.
  assert (U : uniform (scl doubled_turn)) by (split; reflexivity).
  split; [exact unitq_turn_xyz |]. split; [exact unitq_turn_xyz |].
  split; [exact U |].
  exact (proj1 (transformVec3_composes doubled_turn turned axis_x
                  unitq_turn_xyz unitq_turn_xyz U)).
Defined.

Lemma toLocalPos_fromInvert (t : Transform) (wp : Vec3) :
  Transform.toLocalPos t wp =
  Transform.transformVec3 (Transform.fromInvert t) wp.
Proof.
  unfold Transform.toLocalPos, Transform.fromInvert, Transform.transformVec3.
  cbv zeta. cbn [rot pos scl vx vy vz].
  set (qi := Transform.qInvert (rot t)).
  destruct qi, t as [? [] []], wp.
  unfold Transform.qTransform. cbn [rot pos scl qx qy qz qw vx vy vz].
  f_equal; ring.
Qed.

Lemma rigid_fromInvert (t : Transform) :
  unitq (rot t) -> uniform (scl t) -> vx (scl t) <> 0 ->
  unitq (rot (Transform.fromInvert t)) /\
  uniform (scl (Transform.fromInvert t)) /\
  vx (scl (Transform.fromInvert t)) <> 0.
Proof.
  intros Hq [E1 E2] Hs. unfold Transform.fromInvert; cbv zeta.
  cbn [rot pos scl vx vy vz]. repeat split.
  - rewrite (qInvert_unit _ Hq). apply unitq_conjugate, Hq.
  - cbn [vx vy]. rewrite E1. reflexivity.
  - cbn [vy vz]. rewrite E2. reflexivity.
  - unfold Rdiv. rewrite Rmult_1_l. apply Rinv_neq_0_compat, Hs.
Qed.

Lemma fromInvert_left (t : Transform) :
  unitq (rot t) -> uniform (scl t) -> vx (scl t) <> 0 ->
  Transform.fromMul (Transform.fromInvert t) t = Transform.identity /\
  Transform.fromInvert (Transform.fromInvert t) = t.
Proof.
  intros Hq Hu Hs.
  destruct (rigid_fromInvert t Hq Hu Hs) as (Hq' & Hu' & Hs').
  set (t' := Transform.fromInvert t) in *.
  set (t'' := Transform.fromInvert t').
  assert (R1 : Transform.fromMul t t' = Transform.identity)
    by (apply fromInvert_rigid; assumption).
  assert (R2 : Transform.fromMul t' t'' = Transform.identity)
    by (apply fromInvert_rigid; assumption).
  assert (I : t'' = t).
  { rewrite <- (fromMul_identity_l t''), <- R1.
    rewrite (fromMul_assoc_rigid t t' t'' Hq Hq' Hu), R2.
    apply fromMul_identity_r. }
  split; [| exact I].
  replace (Transform.fromMul t' t) with (Transform.fromMul t' t'')
    by (rewrite I; reflexivity).
  exact R2.
Qed.

Lemma transformVec3_eq (t : Transform) (v : Vec3) :
  Transform.transformVec3 t v =
  vadd (Transform.qTransform (rot t) (hadamard v (scl t))) (pos t).
Proof.
  destruct t as [[] [] []], v.
  unfold Transform.transformVec3, Transform.qTransform, vadd, hadamard.
  cbn [rot pos scl qx qy qz qw vx vy vz]. f_equal; ring.
Qed.

Lemma transformVec3Rev_eq (t : Transform) (v : Vec3) :
  Transform.transformVec3Rev t v =
  hadamard (Transform.qTransform (rot t) (vadd v (pos t))) (scl t).
Proof.
  destruct t as [[] [] []], v.
  unfold Transform.transformVec3Rev, Transform.qTransform, vadd, hadamard.
  cbn [rot pos scl qx qy qz qw vx vy vz]. f_equal; ring.
Qed.

Lemma qTransform_qInvert (q : Quat) (v : Vec3) :
  unitq q ->
  Transform.qTransform (Transform.qInvert q) (Transform.qTransform q v) = v.
Proof.
  intros H.
  assert (N : norm2 q <> 0) by (rewrite H; lra).
  assert (U : unitq (Transform.qInvert q)).
  { rewrite (qInvert_unit q H). apply unitq_conjugate, H. }
  rewrite <- (qTransform_qMul _ _ _ U H), (qMul_qInvert_l q N).
  apply qTransform_identity.
Qed.

Lemma transformVec3Rev_reversed (t : Transform) (v : Vec3) :
  unitq (rot t) -> vx (scl t) <> 0 -> vy (scl t) <> 0 -> vz (scl t) <> 0 ->
  Transform.transformVec3Rev (reversed t) (Transform.transformVec3 t v) = v.
Proof.
  intros H Sx Sy Sz. rewrite transformVec3Rev_eq, transformVec3_eq.
  unfold reversed. cbn [rot pos scl].
  replace (vadd (vadd (Transform.qTransform (rot t) (hadamard v (scl t)))
                   (pos t)) (Vec3.negate (pos t)))
    with (Transform.qTransform (rot t) (hadamard v (scl t))).
  - rewrite (qTransform_qInvert _ _ H).
    destruct v, t as [? ? []]. unfold hadamard.
    cbn [rot pos scl vx vy vz] in *. f_equal; field; assumption.
  - destruct (Transform.qTransform (rot t) (hadamard v (scl t))), (pos t).
    unfold vadd, Vec3.negate; cbn [vx vy vz]. f_equal; ring.
Qed.

(** X13.  From the world to the local space, in exact arithmetic.
    [toLocalPos] is [transformVec3] by the transform of [fromInvert];
    with a unit rotation and a uniform scale that is not zero it is the
    inverse of [transformVec3], on both sides.  [toLocalRot] multiplies
    by the inverse of the rotation: when that rotation is not zero, it
    gives back the local rotation [q] from the world rotation
    [rot * q].  [transformVec3Rev], with the opposite translation, the
    inverse rotation and the inverse scale, undoes [transformVec3]
    whenever the rotation is a unit quaternion and no component of the
    scale is zero.  On binary64 numbers [qInvert] tests the computed sum
    of squares, and a rotation that is not zero can be too small for
    [toLocalRot]: with the rotation [(2^-600, 0, 0, 0)] it sends the
    identity to the zero quaternion, and with [(2^-537, 0, 0, 0)] to
    four NaN. *)
Theorem toLocal_inverts_world (t : Transform) (v : Vec3) (q : Quat) :
  Transform.toLocalPos t v =
    Transform.transformVec3 (Transform.fromInvert t) v /\
  (unitq (rot t) -> uniform (scl t) -> vx (scl t) <> 0 ->
   Transform.toLocalPos t (Transform.transformVec3 t v) = v /\
   Transform.transformVec3 t (Transform.toLocalPos t v) = v) /\
  (norm2 (rot t) <> 0 ->
   Transform.toLocalRot t (Transform.qMul (rot t) q) = q /\
   Transform.qMul (rot t) (Transform.toLocalRot t q) = q) /\
  (unitq (rot t) ->
   vx (scl t) <> 0 -> vy (scl t) <> 0 -> vz (scl t) <> 0 ->
   Transform.transformVec3Rev (reversed t) (Transform.transformVec3 t v) = v) /\
  Binary64.Transform.toLocalRot
    (Binary64.mkTransform tiny_quat (Binary64.mkVec3 0 0 0)
       (Binary64.mkVec3 1 1 1)) identity64 = zero64 /\
  Binary64.Transform.toLocalRot
    (Binary64.mkTransform small_quat (Binary64.mkVec3 0 0 0)
       (Binary64.mkVec3 1 1 1)) identity64 =
    Binary64.mkQuat nan nan nan nan.
Proof.
  split; [apply toLocalPos_fromInvert |].
  split; [| split; [| split; [| split; vm_compute; reflexivity]]].
  - intros Hq Hu Hs.
    destruct (rigid_fromInvert t Hq Hu Hs) as (Hq' & Hu' & Hs').
    destruct (fromInvert_left t Hq Hu Hs) as (L & _).
    rewrite !toLocalPos_fromInvert.
    rewrite <- !transformVec3_fromMul by assumption.
    rewrite L, (fromInvert_rigid t Hq Hu Hs).
    split; apply transformVec3_identity.
  - intros H. unfold Transform.toLocalRot. rewrite <- !qMul_assoc.
    rewrite (qMul_qInvert_l _ H), (qMul_qInvert_r _ H), qMul_identity_l.
    split; reflexivity.
  - apply transformVec3Rev_reversed.
Qed.

Lemma toLocal_inverts_world_witness :
  unitq (rot doubled_turn) /\ uniform (scl doubled_turn) /\
  vx (scl doubled_turn) <> 0 /\
  Transform.toLocalPos doubled_turn
    (Transform.transformVec3 doubled_turn axis_x) = axis_x.
Proof.
  assert (U : uniform (scl doubled_turn)) by (split; reflexivity).
  assert (N : vx (scl doubled_turn) <> 0) by (cbn; lra).
  split; [exact unitq_turn_xyz |]. split; [exact U |]. split; [exact N |].
  exact (proj1 (proj1 (proj2 (toLocal_inverts_world doubled_turn axis_x
                                turn_xyz))
                  unitq_turn_xyz U N)).
Defined.

(** X14.  On a transform with a unit rotation and a uniform scale that
    is not zero, [fromInvert] gives an inverse on the left as well,
    inverting twice gives the transform back, and the inverse has again
    a unit rotation and a uniform scale. *)
Theorem fromInvert_left_inverse (t : Transform) :
  unitq (rot t) -> uniform (scl t) -> vx (scl t) <> 0 ->
  Transform.fromMul (Transform.fromInvert t) t = Transform.identity /\
  Transform.fromInvert (Transform.fromInvert t) = t /\
  rigid (Transform.fromInvert t).
Proof.
  intros Hq Hu Hs.
  destruct (fromInvert_left t Hq Hu Hs) as (L & I).
  destruct (rigid_fromInvert t Hq Hu Hs) as (Hq' & Hu' & _).
  split; [exact L |]. split; [exact I |]. split; assumption.
Qed.

Lemma fromInvert_left_inverse_witness :
  unitq (rot doubled_turn) /\ uniform (scl doubled_turn) /\
  vx (scl doubled_turn) <> 0 /\
  Transform.fromMul (Transform.fromInvert doubled_turn) doubled_turn =
  Transform.identity.
Proof.
  assert (U : uniform (scl doubled_turn)) by (split; reflexivity).
  assert (N : vx (scl doubled_turn) <> 0) by (cbn; lra).
  split; [exact unitq_turn_xyz |]. split; [exact U |]. split; [exact N |].
  exact (proj1 (fromInvert_left_inverse doubled_turn unitq_turn_xyz U N)).
Defined.

(** ** Pose.ts: [getWorld] *)

Lemma getWorld_walk_console (p : Pose) :
  forall fuel j out, console (Pose.getWorld_walk fuel p j out) = [].
Proof.
  induction fuel as [| fuel IH]; intros j out; cbn [Pose.getWorld_walk];
    destruct (negb (pindex j =? -1)%Z); try reflexivity.
  destruct (array_get (joints p) (pindex j)) as [pj |]; [| reflexivity].
  unfold bind, get, put. cbn [state result console app].
  match goal with
  | |- context [Pose.getWorld_walk fuel p pj ?o] =>
      pose proof (IH pj o) as C;
      destruct (Pose.getWorld_walk fuel p pj o) as [s c r]
  end.
  cbn [state result console] in *. subst c. destruct r; reflexivity.
Qed.

Lemma same_locals_get (p q : Pose) (i : Z) :
  same_locals p q ->
  match array_get (joints p) i with
  | Some j => exists w, array_get (joints q) i = Some (Joint.with_world j w)
  | None => array_get (joints q) i = None
  end.
Proof.
  intros (_ & _ & _ & _ & L & H). unfold array_get.
  destruct (i <? 0)%Z; [reflexivity |].
  destruct (nth_error (joints p) (Z.to_nat i)) as [j |] eqn:E.
  - apply H, E.
  - apply nth_error_None. rewrite L. apply nth_error_None, E.
Qed.

Lemma getWorld_walk_same_locals (p q : Pose) :
  same_locals p q ->
  forall fuel j w out,
    Pose.getWorld_walk fuel q (Joint.with_world j w) out =
    Pose.getWorld_walk fuel p j out.
Proof.
  intros S. induction fuel as [| fuel IH]; intros j w out;
    cbn [Pose.getWorld_walk Joint.with_world pindex];
    destruct (negb (pindex j =? -1)%Z); try reflexivity.
  pose proof (same_locals_get p q (pindex j) S) as G.
  destruct (array_get (joints p) (pindex j)) as [pj |].
  - destruct G as [w' ->]. unfold bind, get, put.
    cbn [state result console app Joint.with_world local].
    rewrite IH. reflexivity.
  - rewrite G. reflexivity.
Qed.

Lemma getWorld_same_locals (p q : Pose) (i : Z) (out : Transform) :
  same_locals p q -> Pose.getWorld q i out = Pose.getWorld p i out.
Proof.
  intros S. pose proof S as (_ & _ & Er & Ep & L & _).
  unfold Pose.getWorld. rewrite Er, Ep, L.
  destruct (i =? -1)%Z; [reflexivity |].
  unfold Pose.getJoint, Pose.joints_at.
  pose proof (same_locals_get p q i S) as G.
  destruct (array_get (joints p) i) as [j |].
  - destruct G as [w ->]. unfold bind.
    cbn [put state result console app Joint.with_world local].
    rewrite (getWorld_walk_same_locals p q S). reflexivity.
  - rewrite G. reflexivity.
Qed.

Lemma getWorld_console (p : Pose) (i : Z) (out : Transform) :
  console (Pose.getWorld p i out) = [].
Proof.
  unfold Pose.getWorld. destruct (i =? -1)%Z; [reflexivity |].
  unfold Pose.getJoint, Pose.joints_at.
  destruct (array_get (joints p) i) as [j |]; [| reflexivity].
  unfold bind, put, get. cbn [state result console app].
  pose proof (getWorld_walk_console p (length (joints p)) j
                (Transform.copy (local j))) as C.
  destruct (Pose.getWorld_walk _ p j _) as [s c r].
  cbn [state result console] in *. subst c. destruct r; reflexivity.
Qed.

(** X15.  [getWorld] reads the local transforms and the links only: two
    poses that differ by their cached world transforms give the same
    result.  It never writes to the console, because [getJoint] on a
    number is never [null]: the guard of [getWorld] cannot fire. *)
Theorem getWorld_reads_locals_only (p q : Pose) (i : Z) (out : Transform) :
  same_locals p q ->
  Pose.getWorld q i out = Pose.getWorld p i out /\
  console (Pose.getWorld p i out) = [] /\
  Pose.getJoint p (ByIndex i) <> JsNull.
Proof.
  intros S. split; [apply getWorld_same_locals, S |].
  split; [apply getWorld_console |].
  unfold Pose.getJoint, Pose.joints_at.
  destruct (array_get (joints p) i); discriminate.
Qed.

Lemma same_locals_sheared : same_locals sheared_pose sheared_pose_updated.
Proof.
  repeat split.
  intros [| [| [| [| k]]]] j H; cbn in H; try (injection H as <-).
  - exists stretch_x. reflexivity.
  - exists stretched_turned. reflexivity.
  - exists sheared_far. reflexivity.
  - exists sheared_far. reflexivity.
  - destruct k; discriminate.
Qed.

Lemma getWorld_reads_locals_only_witness :
  same_locals sheared_pose sheared_pose_updated /\
  Pose.getWorld sheared_pose_updated 2 Transform.identity =
  Pose.getWorld sheared_pose 2 Transform.identity.
Proof.
  split; [exact same_locals_sheared |].
  exact (proj1 (getWorld_reads_locals_only sheared_pose sheared_pose_updated
                  2 Transform.identity same_locals_sheared)).
Defined.

Lemma getWorld_walk_returns (p : Pose) :
  ordered (joints p) ->
  forall k j, nth_error (joints p) k = Some j ->
    forall fuel out, (k < fuel)%nat ->
      exists out',
        Pose.getWorld_walk fuel p j out = mkCall out' [] (Returns tt).
Proof.
  intros O. induction k as [k IH] using lt_wf_ind. intros j Hj fuel out Hf.
  destruct fuel as [| fuel]; [lia |]. cbn [Pose.getWorld_walk].
  destruct (O k j Hj) as [E | B].
  - rewrite E. cbn [Z.eqb negb]. exists out. reflexivity.
  - destruct (Z.eqb_spec (pindex j) (-1)) as [E | _]; [lia |]. cbn [negb].
    destruct (nth_error_exists (joints p) (Z.to_nat (pindex j)))
      as [pj Hpj].
    { apply nth_error_in_range in Hj. lia. }
    assert (G : array_get (joints p) (pindex j) = Some pj).
    { unfold array_get. destruct (Z.ltb_spec (pindex j) 0); [lia | exact Hpj]. }
    rewrite G. unfold bind, get, put. cbn [state result console app].
    destruct (IH (Z.to_nat (pindex j)) ltac:(lia) pj Hpj fuel
                (Transform.pmul out (local pj)) ltac:(lia)) as [out' ->].
    exists out'. reflexivity.
Qed.

(** X16.  In a pose whose joints come after their parents, whatever the
    transforms are, [getWorld (i)] returns for every joint index [i]; the
    transform it returns does not depend on the content of the transform
    passed as [out_transform].  For a joint without parent it is the local
    transform multiplied by [poseOffset], then by [rootOffset]. *)
Theorem getWorld_returns_on_ordered (p : Pose) (i : Z) (j : Joint) :
  ordered (joints p) -> array_get (joints p) i = Some j ->
  exists t,
    (forall out, Pose.getWorld p i out = mkCall t [] (Returns tt)) /\
    Pose.getWorld_new p i = Returns t /\
    (pindex j = (-1)%Z ->
     t = Transform.fromMul (rootOffset p)
           (Transform.fromMul (poseOffset p) (local j))).
Proof.
  intros O Hi. destruct (array_get_some _ _ _ Hi) as [Hi0 Hn].
  destruct (getWorld_walk_returns p O _ j Hn (length (joints p))
              (Transform.copy (local j))) as [out' Hw].
  { eapply nth_error_in_range; eauto. }
  assert (G : forall out,
             Pose.getWorld p i out =
             mkCall (Transform.pmul (Transform.pmul out' (poseOffset p))
                       (rootOffset p)) [] (Returns tt)).
  { intros out. unfold Pose.getWorld.
    destruct (Z.eqb_spec i (-1)) as [E | _]; [lia |].
    unfold Pose.getJoint, Pose.joints_at. rewrite Hi.
    unfold bind, get, put. cbn [state result console app].
    rewrite Hw. reflexivity. }
  eexists. split; [exact G |]. split.
  - unfold Pose.getWorld_new. rewrite G. reflexivity.
  - intros E. revert Hw. destruct (length (joints p)); cbn [Pose.getWorld_walk];
      rewrite E; cbn [Z.eqb negb]; unfold ret; intros [= <-];
      rewrite !pmul_fromMul, copy_id; reflexivity.
Qed.

Lemma sheared_pose_ordered : ordered (joints sheared_pose).
Proof.
  intros [| [| [| [| k]]]] j H; cbn in H; try (injection H as <-); cbn;
    try lia. destruct k; discriminate.
Qed.

Lemma getWorld_returns_on_ordered_witness :
  ordered (joints sheared_pose) /\
  array_get (joints sheared_pose) 2 =
    Some (chain_joint "head" 2 1 step_x) /\
  exists t, Pose.getWorld_new sheared_pose 2 = Returns t.
Proof.
  split; [exact sheared_pose_ordered |]. split; [reflexivity |].
  destruct (getWorld_returns_on_ordered sheared_pose 2
              (chain_joint "head" 2 1 step_x) sheared_pose_ordered eq_refl)
    as (t & _ & H & _).
  exists t. exact H.
Defined.

Lemma getWorld_walk_cycle (p : Pose) (C : Joint -> Prop) :
  (forall j, C j ->
     pindex j <> (-1)%Z /\
     exists pj, array_get (joints p) (pindex j) = Some pj /\ C pj) ->
  forall fuel j out, C j ->
    result (Pose.getWorld_walk fuel p j out) = Diverges.
Proof.
  intros H. induction fuel as [| fuel IH]; intros j out Cj;
    destruct (H j Cj) as (N & pj & G & Cp); cbn [Pose.getWorld_walk];
    destruct (Z.eqb_spec (pindex j) (-1)) as [E | _];
    try contradiction; cbn [negb].
  - reflexivity.
  - rewrite G. unfold bind, get, put. cbn [state result console app].
    pose proof (IH pj (Transform.pmul out (local pj)) Cp) as D.
    destruct (Pose.getWorld_walk fuel p pj _) as [s c r].
    cbn [result] in *. rewrite D. reflexivity.
Qed.

(** X17.  When the parent links form a cycle (a set of joints, none of
    them a root, that contains the parent of each of its joints), the
    loop of [getWorld] started from a joint of the cycle never ends: the
    walk runs out of any amount of fuel, and [getWorld] does not
    return. *)
Theorem getWorld_diverges_on_cycle (p : Pose) (C : Joint -> Prop)
  (i : Z) (j : Joint) :
  (forall j, C j ->
     pindex j <> (-1)%Z /\
     exists pj, array_get (joints p) (pindex j) = Some pj /\ C pj) ->
  i <> (-1)%Z -> array_get (joints p) i = Some j -> C j ->
  (forall fuel out, result (Pose.getWorld_walk fuel p j out) = Diverges) /\
  (forall out, result (Pose.getWorld p i out) = Diverges) /\
  Pose.getWorld_new p i = Diverges.
Proof.
  intros H N Hi Cj.
  assert (W : forall fuel out,
             result (Pose.getWorld_walk fuel p j out) = Diverges)
    by (intros; apply (getWorld_walk_cycle p C H); exact Cj).
  assert (G : forall out, result (Pose.getWorld p i out) = Diverges).
  { intros out. unfold Pose.getWorld.
    destruct (Z.eqb_spec i (-1)) as [E | _]; [tauto |].
    unfold Pose.getJoint, Pose.joints_at. rewrite Hi.
    unfold bind, put. cbn [state result console app].
    rewrite W. reflexivity. }
  split; [exact W |]. split; [exact G |].
  unfold Pose.getWorld_new. rewrite G. reflexivity.
Qed.

Lemma getWorld_diverges_on_cycle_witness :
  array_get (joints looped_pose) 0 = Some (chain_joint "hips" 0 0 turned) /\
  Pose.getWorld_new looped_pose 0 = Diverges.
Proof.
  split; [reflexivity |].
  refine (proj2 (proj2
            (getWorld_diverges_on_cycle looped_pose
               (fun j => j = chain_joint "hips" 0 0 turned) 0
               (chain_joint "hips" 0 0 turned) _ _ eq_refl eq_refl))).
  - intros j ->. split; [cbn; lia |].
    exists (chain_joint "hips" 0 0 turned). split; reflexivity.
  - lia.
Defined.

(** ** Pose.ts: [updateWorld], the setters and [reset] *)

Lemma array_set_same {A : Type} (l : list A) (i : nat) (v : A) :
  nth_error l i = Some v -> array_set l i v = l.
Proof.
  revert i. induction l as [| a l IH]; intros [| i] H; cbn in *;
    try discriminate.
  - congruence.
  - rewrite IH by exact H. reflexivity.
Qed.

Lemma with_joints_same (p : Pose) : Pose.with_joints p (joints p) = p.
Proof. destruct p. reflexivity. Qed.

Lemma updateWorld_step_fixed (p : Pose) (k : nat) :
  consistent_at p k ->
  Pose.updateWorld_step k p = mkCall p [] (Returns tt).
Proof.
  intros C. unfold Pose.updateWorld_step, consistent_at in *.
  destruct (nth_error (joints p) k) as [j |] eqn:Hj; [| reflexivity].
  specialize (C j eq_refl).
  destruct (pindex j =? -1)%Z; cbn [negb].
  - rewrite <- C, with_world_eta, (array_set_same _ _ _ Hj), with_joints_same.
    reflexivity.
  - destruct C as (pj & -> & W).
    rewrite <- W, with_world_eta, (array_set_same _ _ _ Hj), with_joints_same.
    reflexivity.
Qed.

Lemma updateWorld_loop_fixed (p : Pose) :
  (forall k, consistent_at p k) ->
  forall ks, Pose.updateWorld_loop ks p = mkCall p [] (Returns tt).
Proof.
  intros C. induction ks as [| k ks IH]; [reflexivity |].
  rewrite (updateWorld_loop_cons k ks p p (updateWorld_step_fixed p k (C k))).
  exact IH.
Qed.

(** X18.  In a pose whose joints come after their parents, [updateWorld]
    returns without a word on the console, changes nothing but the cached
    world transforms, and a second [updateWorld] changes nothing at
    all. *)
Theorem updateWorld_idempotent (p : Pose) :
  ordered (joints p) ->
  exists p',
    Pose.updateWorld p = mkCall p' [] (Returns tt) /\
    same_locals p p' /\
    Pose.updateWorld p' = mkCall p' [] (Returns tt).
Proof.
  intros O.
  destruct (updateWorld_loop_spec p O (length (joints p)) 0 p)
    as (p' & Hrun & Hs & C); [apply same_locals_refl | lia | intros k Hk; lia |].
  exists p'. split; [exact Hrun |]. split; [exact Hs |].
  apply updateWorld_loop_fixed. intros k.
  destruct (Nat.lt_ge_cases k (length (joints p))) as [Hk | Hk].
  - apply C. lia.
  - intros j Hj. apply nth_error_in_range in Hj.
    destruct Hs as (_ & _ & _ & _ & L & _). lia.
Qed.

Lemma updateWorld_idempotent_witness :
  ordered (joints sheared_pose) /\
  exists p',
    Pose.updateWorld sheared_pose = mkCall p' [] (Returns tt) /\
    Pose.updateWorld p' = mkCall p' [] (Returns tt).
Proof.
  split; [exact sheared_pose_ordered |].
  destruct (updateWorld_idempotent sheared_pose sheared_pose_ordered)
    as (p' & H1 & _ & H2).
  exists p'. split; [exact H1 | exact H2].
Defined.

Lemma updateWorld_step_cases (p0 p : Pose) (k : nat) :
  same_locals p0 p ->
  Pose.updateWorld_step k p = mkCall p [] (Throws TypeError) \/
  exists p', Pose.updateWorld_step k p = mkCall p' [] (Returns tt) /\
             same_locals p0 p'.
Proof.
  intros S. unfold Pose.updateWorld_step.
  destruct (nth_error (joints p) k) as [j |] eqn:Hj.
  - destruct (negb (pindex j =? -1)%Z).
    + destruct (array_get (joints p) (pindex j)) as [pj |].
      * right. eexists. split; [reflexivity |].
        apply same_locals_step; assumption.
      * left. reflexivity.
    + right. eexists. split; [reflexivity |].
      apply same_locals_step; assumption.
  - right. exists p. split; [reflexivity | exact S].
Qed.

Lemma updateWorld_step_dangling (p0 p : Pose) (k : nat) (j : Joint) :
  same_locals p0 p ->
  nth_error (joints p0) k = Some j -> pindex j <> (-1)%Z ->
  array_get (joints p0) (pindex j) = None ->
  Pose.updateWorld_step k p = mkCall p [] (Throws TypeError).
Proof.
  intros S Hj N G. pose proof S as (_ & _ & _ & _ & _ & H).
  destruct (H k j Hj) as [w Hq].
  pose proof (same_locals_get p0 p (pindex j) S) as G'. rewrite G in G'.
  unfold Pose.updateWorld_step. rewrite Hq.
  cbn [Joint.with_world pindex].
  destruct (Z.eqb_spec (pindex j) (-1)) as [E | _]; [contradiction |].
  cbn [negb]. rewrite G'. reflexivity.
Qed.

Lemma updateWorld_loop_dangling (p0 : Pose) (k : nat) (j : Joint) :
  nth_error (joints p0) k = Some j -> pindex j <> (-1)%Z ->
  array_get (joints p0) (pindex j) = None ->
  forall ks p, In k ks -> same_locals p0 p ->
    result (Pose.updateWorld_loop ks p) = Throws TypeError /\
    console (Pose.updateWorld_loop ks p) = [] /\
    same_locals p0 (state (Pose.updateWorld_loop ks p)).
Proof.
  intros Hj N G. induction ks as [| k0 ks IH]; intros p I S; [destruct I |].
  cbn [Pose.updateWorld_loop].
  destruct (Nat.eq_dec k0 k) as [-> | D].
  - unfold bind.
    rewrite (updateWorld_step_dangling p0 p k j S Hj N G).
    cbn [state result console]. auto.
  - destruct I as [E | I]; [contradiction |].
    destruct (updateWorld_step_cases p0 p k0 S) as [T | (p' & R & S')].
    + unfold bind. rewrite T. cbn [state result console]. auto.
    + rewrite (bind_returns (Pose.updateWorld_step k0)
                 (fun _ => Pose.updateWorld_loop ks) p p' tt R).
      apply IH; assumption.
Qed.

(** X19.  When a joint names a parent index at which the pose has no
    joint, [updateWorld] throws a [TypeError]; nothing is written to the
    console, and the pose is left with its local transforms and links as
    they were (the caches of the joints before the failure may be
    new). *)
Theorem updateWorld_dangling_parent_throws (p : Pose) (k : nat) (j : Joint) :
  nth_error (joints p) k = Some j -> pindex j <> (-1)%Z ->
  array_get (joints p) (pindex j) = None ->
  result (Pose.updateWorld p) = Throws TypeError /\
  console (Pose.updateWorld p) = [] /\
  same_locals p (state (Pose.updateWorld p)).
Proof.
  intros Hj N G. unfold Pose.updateWorld.
  apply (updateWorld_loop_dangling p k j Hj N G).
  - apply in_seq. apply nth_error_in_range in Hj. lia.
  - apply same_locals_refl.
Qed.

Lemma updateWorld_dangling_parent_throws_witness :
  nth_error (joints dangling_pose) 1 = Some (chain_joint "spine" 1 7 step_x) /\
  array_get (joints dangling_pose) 7 = None /\
  result (Pose.updateWorld dangling_pose) = Throws TypeError.
Proof.
  split; [reflexivity |]. split; [reflexivity |].
  refine (proj1 (updateWorld_dangling_parent_throws dangling_pose 1
                   (chain_joint "spine" 1 7 step_x) eq_refl _ eq_refl)).
  cbn. lia.
Defined.

Lemma array_get_set_eq {A : Type} (l : list A) (i : Z) (a v : A) :
  array_get l i = Some a ->
  array_get (array_set l (Z.to_nat i) v) i = Some v.
Proof.
  intros H. destruct (array_get_some _ _ _ H) as [H0 Hn].
  unfold array_get. destruct (Z.ltb_spec i 0); [lia |].
  apply nth_error_array_set_eq. eapply nth_error_in_range; eauto.
Qed.

Lemma array_get_set_neq {A : Type} (l : list A) (i k : Z) (a v : A) :
  array_get l i = Some a -> k <> i ->
  array_get (array_set l (Z.to_nat i) v) k = array_get l k.
Proof.
  intros H N. destruct (array_get_some _ _ _ H) as [H0 Hn].
  unfold array_get. destruct (Z.ltb_spec k 0); [reflexivity |].
  apply nth_error_array_set_neq. lia.
Qed.

Lemma vec3_eta (v : Vec3) : mkVec3 (vx v) (vy v) (vz v) = v.
Proof. destruct v. reflexivity. Qed.

Lemma quat_eta (q : Quat) : mkQuat (qx q) (qy q) (qz q) (qw q) = q.
Proof. destruct q. reflexivity. Qed.

Lemma setters_written (p : Pose) (i : Z) (j : Joint)
  (q : Quat) (v : Vec3) (s : R) :
  array_get (joints p) i = Some j ->
  let written (l : Transform) :=
    mkCall (Pose.with_joints p
              (array_set (joints p) (Z.to_nat i) (Joint.with_local j l)))
           [] (Returns tt) in
  (Pose.setRot i q p =
     written (mkTransform q (pos (local j)) (scl (local j))) /\
   Pose.setPos i v p =
     written (mkTransform (rot (local j)) v (scl (local j))) /\
   Pose.setScl i v p =
     written (mkTransform (rot (local j)) (pos (local j)) v) /\
   Pose.setScalar i s p = Pose.setScl i (mkVec3 s s s) p) /\
  forall l,
    array_get
      (joints (state (written l))) i = Some (Joint.with_local j l) /\
    (forall k, k <> i ->
       array_get (joints (state (written l))) k = array_get (joints p) k) /\
    length (joints (state (written l))) = length (joints p).
Proof.
  intros H written. split.
  - unfold Pose.setRot, Pose.setPos, Pose.setScl, Pose.setScalar.
    rewrite H. cbv zeta. cbn [vx vy vz].
    rewrite quat_eta, !vec3_eta. repeat split.
  - intros l. unfold written. cbn [state joints Pose.with_joints].
    split; [eapply array_get_set_eq; eauto |]. split.
    + intros k N. eapply array_get_set_neq; eauto.
    + apply length_array_set.
Qed.

(** X20.  The four setters write one component of the local transform of
    the joint at [i] and nothing else: the other components, the cache and
    the links of that joint and all the other joints are as before.
    [setScalar (i, s)] is [setScl] with the three components equal to
    [s].  Called with an index at which the pose has no joint, a setter
    throws a [TypeError] and leaves the pose as it is. *)
Theorem setters_write_one_component (p : Pose) (i : Z)
  (q : Quat) (v : Vec3) (s : R) :
  (forall j, array_get (joints p) i = Some j ->
     let written (l : Transform) :=
       mkCall (Pose.with_joints p
                 (array_set (joints p) (Z.to_nat i) (Joint.with_local j l)))
              [] (Returns tt) in
     (Pose.setRot i q p =
        written (mkTransform q (pos (local j)) (scl (local j))) /\
      Pose.setPos i v p =
        written (mkTransform (rot (local j)) v (scl (local j))) /\
      Pose.setScl i v p =
        written (mkTransform (rot (local j)) (pos (local j)) v) /\
      Pose.setScalar i s p = Pose.setScl i (mkVec3 s s s) p) /\
     forall l,
       array_get
         (joints (state (written l))) i = Some (Joint.with_local j l) /\
       (forall k, k <> i ->
          array_get (joints (state (written l))) k =
          array_get (joints p) k) /\
       length (joints (state (written l))) = length (joints p)) /\
  (array_get (joints p) i = None ->
   Pose.setRot i q p = mkCall p [] (Throws TypeError) /\
   Pose.setPos i v p = mkCall p [] (Throws TypeError) /\
   Pose.setScl i v p = mkCall p [] (Throws TypeError) /\
   Pose.setScalar i s p = mkCall p [] (Throws TypeError)).
Proof.
  split.
  - intros j H. apply setters_written, H.
  - intros H. unfold Pose.setRot, Pose.setPos, Pose.setScl, Pose.setScalar.
    rewrite H. repeat split.
Qed.

Lemma setters_write_one_component_witness :
  array_get (joints lone_pose) 0 =
    Some (chain_joint "hips" 0 (-1) doubled_turn) /\
  Pose.setPos 0 axis_y lone_pose =
    mkCall (Pose.with_joints lone_pose
              [chain_joint "hips" 0 (-1)
                 (mkTransform turn_xyz axis_y (mkVec3 2 2 2))])
           [] (Returns tt) /\
  array_get (joints lone_pose) 5 = None /\
  Pose.setScalar 5 2 lone_pose = mkCall lone_pose [] (Throws TypeError).
Proof.
  split; [reflexivity |]. split.
  - exact (proj1 (proj2 (proj1
             (proj1 (setters_write_one_component lone_pose 0
                       turn_xyz axis_y 1)
                (chain_joint "hips" 0 (-1) doubled_turn) eq_refl)))).
  - split; [reflexivity |].
    exact (proj2 (proj2 (proj2
             (proj2 (setters_write_one_component lone_pose 5
                       turn_xyz axis_x 2) eq_refl)))).
Defined.

Lemma reset_loop_short (self src : PoseRef) (s : Pose) :
  self <> src ->
  forall (n i : nat) (h : Heap) (t : Pose),
    nth_error h self = Some t -> nth_error h src = Some s ->
    (i <= length (joints s))%nat ->
    (length (joints s) < i + n)%nat ->
    (i + n <= length (joints t))%nat ->
    result (Pose.reset_loop self src i n h) = Throws TypeError /\
    console (Pose.reset_loop self src i n h) = [].
Proof.
  intros D. induction n as [| n IH]; intros i h t Ht Hs Hi Hn Hl; [lia |].
  cbn [Pose.reset_loop].
  destruct (nth_error_exists (joints t) i ltac:(lia)) as [j Hj].
  destruct (nth_error (joints s) i) as [js |] eqn:Hjs.
  - assert (Hstep :
      Pose.reset_step self src i h =
      mkCall
        (array_set h self
           (Pose.with_joints t
              (array_set (joints t) i
                 (Joint.with_local j (Transform.copy (local js))))))
        [] (Returns tt)).
    { unfold Pose.reset_step. rewrite Ht, Hs, Hj, Hjs. reflexivity. }
    rewrite (bind_returns (Pose.reset_step self src i)
               (fun _ => Pose.reset_loop self src (S i) n) h _ tt Hstep).
    apply nth_error_in_range in Hjs.
    eapply IH.
    + apply nth_error_array_set_eq. eapply nth_error_in_range; eauto.
    + rewrite nth_error_array_set_neq by exact D. exact Hs.
    + lia.
    + lia.
    + cbn [joints Pose.with_joints]. rewrite length_array_set. lia.
  - assert (Hstep :
      Pose.reset_step self src i h = mkCall h [] (Throws TypeError)).
    { unfold Pose.reset_step. rewrite Ht, Hs, Hj, Hjs. reflexivity. }
    unfold bind. rewrite Hstep. cbn [state result console]. auto.
Qed.

(** X21.  [reset] on a working pose that has more joints than its source
    throws a [TypeError]: the loop reads a joint that the source does not
    have.  Nothing is written to the console. *)
Theorem reset_short_source_throws (h : Heap) (self src : PoseRef)
  (this s : Pose) :
  nth_error h self = Some this -> srcPose this = Some src ->
  nth_error h src = Some s ->
  (length (joints s) < length (joints this))%nat ->
  result (Pose.reset self h) = Throws TypeError /\
  console (Pose.reset self h) = [].
Proof.
  intros Ht Hsrc Hs L.
  assert (D : self <> src).
  { intros ->. rewrite Ht in Hs. injection Hs as ->. lia. }
  destruct (reset_loop_short self src s D (length (joints this)) 0 h this
              Ht Hs ltac:(lia) ltac:(lia) ltac:(lia)) as [R C].
  unfold Pose.reset. rewrite Ht, Hsrc. unfold bind.
  destruct (Pose.reset_loop self src 0 (length (joints this)) h)
    as [st c r].
  cbn [state result console] in *. subst. auto.
Qed.

Lemma reset_short_source_throws_witness :
  nth_error short_studio 1%nat = Some long_clone /\
  nth_error short_studio 0%nat = Some lone_pose /\
  result (Pose.reset 1%nat short_studio) = Throws TypeError.
Proof.
  split; [reflexivity |]. split; [reflexivity |].
  refine (proj1 (reset_short_source_throws short_studio 1%nat 0%nat
                   long_clone lone_pose eq_refl eq_refl eq_refl _)).
  cbn. lia.
Defined.

(** ** AxisAdditive.js: an axis that is not implemented *)

Lemma bind_returns_inv {S A B : Type} (m : M S A) (k : A -> M S B)
  (s : S) (b : B) :
  result (bind m k s) = Returns b ->
  exists a,
    result (m s) = Returns a /\
    result (k a (state (m s))) = Returns b /\
    console (bind m k s) = console (m s) ++ console (k a (state (m s))).
Proof.
  unfold bind. destruct (m s) as [s1 c1 [a | e |]];
    cbn [state result console]; intros H; try discriminate.
  exists a. auto.
Qed.

Lemma pose_getWorld_console (i : Z) (rt : Retargeter) :
  console (Retargeter.pose_getWorld i rt) = [].
Proof.
  unfold Retargeter.pose_getWorld, Retargeter.on_pose.
  destruct (pose rt) as [p |]; [| reflexivity].
  cbn [console]. apply getWorld_console.
Qed.

Lemma pose_joint_local_console (i : Z) (rt : Retargeter) :
  console (Retargeter.pose_joint_local i rt) = [].
Proof.
  unfold Retargeter.pose_joint_local, Retargeter.on_pose.
  destruct (pose rt) as [p |]; [| reflexivity].
  destruct (array_get (joints p) i); reflexivity.
Qed.

Lemma defined_console {S A : Type} (o : option A) (s : S) :
  console (@Retargeter.defined S A o s) = [].
Proof. destruct o; reflexivity. Qed.

Lemma pose_getWorld_returns (rig : option Rig) (p : Pose) (i : Z)
  (t : Transform) :
  Pose.getWorld_new p i = Returns t ->
  Retargeter.pose_getWorld i (mkRetargeter rig (Some p)) =
  mkCall (mkRetargeter rig (Some p)) [] (Returns t).
Proof.
  intros H. unfold Retargeter.pose_getWorld, Retargeter.on_pose.
  cbn [pose tarRig state console result].
  rewrite getWorld_console. unfold Pose.getWorld_new in H. rewrite H.
  reflexivity.
Qed.

Lemma pose_joint_local_returns (rig : option Rig) (p : Pose) (i : Z)
  (j : Joint) :
  array_get (joints p) i = Some j ->
  Retargeter.pose_joint_local i (mkRetargeter rig (Some p)) =
  mkCall (mkRetargeter rig (Some p)) [] (Returns (local j)).
Proof.
  intros H. unfold Retargeter.pose_joint_local, Retargeter.on_pose.
  cbn [pose tarRig]. rewrite H. reflexivity.
Qed.

Lemma on_pose_setRot_returns (rig : option Rig) (p : Pose) (i : Z)
  (j : Joint) (q : Quat) :
  array_get (joints p) i = Some j ->
  Retargeter.on_pose (Pose.setRot i q) (mkRetargeter rig (Some p)) =
  mkCall (mkRetargeter rig (Some (state (Pose.setRot i q p)))) []
         (Returns tt).
Proof.
  intros H. unfold Retargeter.on_pose. cbn [pose tarRig].
  unfold Pose.setRot. rewrite H. reflexivity.
Qed.

(** X22.  [AxisAdditive.apply] with an axis other than ['y'] never
    changes the retargeter, its rig or its pose; when the call returns
    and the angle is not zero, the console holds one line: the message
    that the axis is not implemented, a space, and the axis. *)
Theorem AxisAdditive_other_axis (op : AxisAdditive.t) (rt : Retargeter) :
  AxisAdditive.onAxis op <> "y"%string ->
  state (AxisAdditive.apply op rt) = rt /\
  (AxisAdditive.angle op <> 0 ->
   result (AxisAdditive.apply op rt) = Returns tt ->
   console (AxisAdditive.apply op rt) =
     [ConsoleLog ("ERROR : AxisAdditive - Axis not implemented " ++
                  AxisAdditive.onAxis op)]).
Proof.
  intros Hy. apply String.eqb_neq in Hy.
  unfold AxisAdditive.apply.
  destruct (Req_dec_T (AxisAdditive.angle op) 0) as [Z | NZ].
  { split; [reflexivity | contradiction]. }
  destruct (tarRig rt) as [rig |]; [| split; [reflexivity | discriminate]].
  destruct (Retargeter.chains_get (chains rig) (AxisAdditive.chainName op))
    as [ch |]; [| split; [reflexivity | discriminate]].
  rewrite Hy. split.
  - apply (bind_frame (fun s s' => s' = s)); [| reflexivity |].
    { intros s. destruct (pose rt); reflexivity. }
    intros _ _.
    apply (bind_frame (fun s s' => s' = s));
      [apply read_only_defined | reflexivity |]. intros itm _.
    apply (bind_frame (fun s s' => s' = s));
      [apply read_only_pose_getWorld | reflexivity |]. intros ptran _.
    apply (bind_frame (fun s s' => s' = s));
      [apply read_only_pose_joint_local | reflexivity |]. intros l _.
    reflexivity.
  - intros _ R.
    apply bind_returns_inv in R. destruct R as (u & R1 & R & ->).
    assert (S1 : state (match pose rt with
                        | Some _ => ret tt
                        | None => throw TypeError
                        end rt) = rt) by (destruct (pose rt); reflexivity).
    assert (C1 : console (match pose rt with
                          | Some _ => @ret Retargeter unit tt
                          | None => throw TypeError
                          end rt) = []) by (destruct (pose rt); reflexivity).
    rewrite C1, S1 in *. clear S1 C1 R1.
    apply bind_returns_inv in R. destruct R as (itm & _ & R & ->).
    rewrite defined_console, read_only_defined in *.
    apply bind_returns_inv in R. destruct R as (ptran & _ & R & ->).
    rewrite pose_getWorld_console, read_only_pose_getWorld in *.
    apply bind_returns_inv in R. destruct R as (l & _ & R & ->).
    rewrite pose_joint_local_console, read_only_pose_joint_local in *.
    reflexivity.
Qed.

(** X22 on the chain of [spine_rig] and the axis ['x']: the line on the
    console is the message followed by [x]. *)
Lemma AxisAdditive_other_axis_witness :
  AxisAdditive.onAxis (AxisAdditive.mk "hips" "x" 1) <> "y"%string /\
  AxisAdditive.angle (AxisAdditive.mk "hips" "x" 1) <> 0 /\
  result (AxisAdditive.apply (AxisAdditive.mk "hips" "x" 1)
            (mkRetargeter (Some spine_rig) (Some lone_pose))) = Returns tt /\
  state (AxisAdditive.apply (AxisAdditive.mk "hips" "x" 1)
           (mkRetargeter (Some spine_rig) (Some lone_pose))) =
    mkRetargeter (Some spine_rig) (Some lone_pose) /\
  console (AxisAdditive.apply (AxisAdditive.mk "hips" "x" 1)
             (mkRetargeter (Some spine_rig) (Some lone_pose))) =
    [ConsoleLog "ERROR : AxisAdditive - Axis not implemented x"].
Proof.
  assert (H : AxisAdditive.onAxis (AxisAdditive.mk "hips" "x" 1)
              <> "y"%string) by (cbn; discriminate).
  assert (N : AxisAdditive.angle (AxisAdditive.mk "hips" "x" 1) <> 0)
    by (cbn; lra).
  assert (R : result (AxisAdditive.apply (AxisAdditive.mk "hips" "x" 1)
                        (mkRetargeter (Some spine_rig) (Some lone_pose))) =
              Returns tt).
  { unfold AxisAdditive.apply.
    cbn [AxisAdditive.angle AxisAdditive.chainName AxisAdditive.onAxis].
    destruct (Req_dec_T 1 0) as [E | _]; [lra |].
    set (rt := mkRetargeter (Some spine_rig) (Some lone_pose)).
    cbn [tarRig pose rt].
    change (Retargeter.chains_get (chains spine_rig) "hips")
      with (Some [RigItem.mk 0 (-1) (Some axis_y)]).
    cbv iota. unfold rt at 1. cbn [tarRig pose]. fold rt.
    change (array_get [RigItem.mk 0 (-1) (Some axis_y)] 0)
      with (Some (RigItem.mk 0 (-1) (Some axis_y))).
    rewrite (bind_returns _ _ rt rt tt eq_refl).
    rewrite (bind_returns _ _ rt rt (RigItem.mk 0 (-1) (Some axis_y)) eq_refl).
    rewrite (bind_returns _ _ rt rt
               (Transform.fromMul Transform.identity Transform.identity)
               (pose_getWorld_returns (Some spine_rig) lone_pose (-1)
                  (Transform.fromMul Transform.identity Transform.identity)
                  eq_refl)).
    rewrite (bind_returns _ _ rt rt doubled_turn
               (pose_joint_local_returns (Some spine_rig) lone_pose 0
                  (chain_joint "hips" 0 (-1) doubled_turn) eq_refl)).
    reflexivity. }
  split; [exact H |]. split; [exact N |]. split; [exact R |].
  split.
  - exact (proj1 (AxisAdditive_other_axis (AxisAdditive.mk "hips" "x" 1)
                    (mkRetargeter (Some spine_rig) (Some lone_pose)) H)).
  - exact (proj2 (AxisAdditive_other_axis (AxisAdditive.mk "hips" "x" 1)
                    (mkRetargeter (Some spine_rig) (Some lone_pose)) H) N R).
Defined.

(** ** The chain operators: what they do to the rotation *)

Lemma to_local_space (world parent : Quat) :
  norm2 parent <> 0 ->
  Quat.mul parent (Quat.pmulInvert world parent) = world.
Proof.
  intros H. rewrite pmulInvert_pmul.
  change (Transform.qMul parent
            (Transform.qMul (Transform.qInvert parent) world) = world).
  rewrite <- qMul_assoc, (qMul_qInvert_r parent H). apply qMul_identity_l.
Qed.

Lemma qTransform_len (q : Quat) (v : Vec3) :
  unitq q -> Vec3.len (Transform.qTransform q v) = Vec3.len v.
Proof.
  intros H. rewrite !len_sqrt, !lenSqr_dot.
  rewrite !(qTransform_unit q _ H), dot_sandwich, H. f_equal. ring.
Qed.

Lemma fromQuat_twist (q : Quat) (tw : option Vec3) :
  Vec3.fromQuat q tw = Transform.qTransform q (twist_of tw).
Proof. destruct tw; reflexivity. Qed.

Lemma fromSub_len_zero (a b : Vec3) :
  Vec3.len (Vec3.fromSub a b) = 0 -> a = b.
Proof.
  intros H. apply len_zero_lenSqr in H. destruct a as [x y z], b as [u v w].
  unfold Vec3.lenSqr, Vec3.fromSub in H. cbn [vx vy vz] in H.
  pose proof (pow2_ge_0 (x - u)) as Px.
  pose proof (pow2_ge_0 (y - v)) as Py.
  pose proof (pow2_ge_0 (z - w)) as Pz.
  assert (Z : forall r, r ^ 2 = 0 -> r = 0).
  { intros r E. destruct (Req_dec r 0) as [-> | D]; [reflexivity |].
    apply (pow_nonzero _ 2) in D. contradiction. }
  f_equal; apply Rminus_diag_uniq, Z; lra.
Qed.

Lemma norm_fromSub_same (a : Vec3) :
  Vec3.norm (Vec3.fromSub a a) = Vec3.zero.
Proof.
  assert (Z : Vec3.fromSub a a = Vec3.zero).
  { unfold Vec3.fromSub, Vec3.zero. f_equal; ring. }
  rewrite Z. apply vec3_norm_zero.
  unfold Vec3.len, Vec3.zero; cbn [vx vy vz].
  replace (0 ^ 2 + 0 ^ 2 + 0 ^ 2) with 0 by ring. apply sqrt_0.
Qed.

Lemma fromAxisAngle_zero (rad : R) (q : Quat) :
  Quat.mul (Quat.fromAxisAngle Vec3.zero rad) q = qscale (cos (rad * 0.5)) q.
Proof.
  destruct q. unfold Quat.mul, Quat.fromAxisAngle, Vec3.zero, qscale.
  cbn [qx qy qz qw vx vy vz]. f_equal; ring.
Qed.

Lemma cos_half_PI : cos (PI * 0.5) = 0.
Proof. replace (PI * 0.5) with (PI / 2) by lra. apply cos_PI2. Qed.

Lemma pmulInvert_zero (q : Quat) : Quat.pmulInvert zero_quat q = zero_quat.
Proof.
  rewrite pmulInvert_pmul. destruct (Transform.qInvert q).
  unfold Transform.qMul, zero_quat; cbn [qx qy qz qw]. f_equal; ring.
Qed.

Lemma qscale_zero (q : Quat) : qscale 0 q = zero_quat.
Proof. unfold qscale, zero_quat. f_equal; ring. Qed.

(** A turn of the world rotation [w] by [rad] about a unit axis: the
    product with the quaternion of [fromAxisAngle] is a unit quaternion
    that moves every vector where [w] and then the formula of Rodrigues
    move it. *)
Lemma turned_about_axis (axis : Vec3) (rad : R) (w : Quat) (v : Vec3) :
  Vec3.len axis = 1 -> unitq w ->
  unitq (Quat.mul (Quat.fromAxisAngle axis rad) w) /\
  Vec3.transformQuat v (Quat.mul (Quat.fromAxisAngle axis rad) w) =
  Vec3.axisAngle (Vec3.transformQuat v w) axis rad.
Proof.
  intros Ha Hw. apply len_one_lenSqr in Ha.
  pose proof (fromAxisAngle_unit axis rad Ha) as Ht.
  split; [apply unitq_qMul; assumption |].
  rewrite (rodrigues _ axis rad Ha), !transformQuat_qTransform.
  apply qTransform_qMul; assumption.
Qed.

(** X23.  What the two chain operators do when everything they read is
    there, in exact arithmetic.  With an angle that is not zero,
    [AxisAdditive] with the axis ['y'] and [ChainTwistAdditive] return
    without a word on the console and set the local rotation of the
    first joint of the chain, by [setRot], to a quaternion [q]; when the
    world rotation of the parent is not zero, the parent's world rotation
    times [q] is the quaternion of [fromAxisAngle] times the world
    rotation [w] that the joint had.

    That product is a turn when the axis has length 1 and the rotations
    are unit quaternions: it is then a unit quaternion, and it moves
    every vector where [w] followed by the rotation of Rodrigues by the
    angle about the axis moves it.  The axis of [AxisAdditive] is the
    twist direction of the rig item turned by [w], of length 1 when the
    twist direction is.  The axis of [ChainTwistAdditive] is the
    normalised direction from the start of the chain to the world
    position of its last joint, of length 1 when the two positions
    differ.

    When the two positions are the same, as for a chain of one joint in
    a pose like [lone_pose], the axis of [ChainTwistAdditive] is the zero
    vector: the joint is not turned, its world rotation is multiplied by
    the cosine of half the angle, and for the angle [PI] the rotation
    that is set is the zero quaternion. *)
Theorem chain_operators_turn_in_world_space (rig : Rig) (p : Pose)
  (name : string) (angle : R) (itm : RigItem.t) (tl : list RigItem.t)
  (ptran : Transform) (j : Joint) :
  angle <> 0 ->
  Retargeter.chains_get (chains rig) name = Some (itm :: tl) ->
  Pose.getWorld_new p (RigItem.pidx itm) = Returns ptran ->
  array_get (joints p) (RigItem.idx itm) = Some j ->
  let rt := mkRetargeter (Some rig) (Some p) in
  let ctran := Transform.fromMul ptran (local j) in
  let done (axis : Vec3) (q : Quat) (c : call Retargeter unit) :=
    c = mkCall
          (mkRetargeter (Some rig)
             (Some (state (Pose.setRot (RigItem.idx itm) q p))))
          [] (Returns tt) /\
    (norm2 (rot ptran) <> 0 ->
     Quat.mul (rot ptran) q =
     Quat.mul (Quat.fromAxisAngle axis angle) (rot ctran)) in
  let turned (axis : Vec3) (q : Quat) :=
    Vec3.len axis = 1 /\
    unitq (Quat.mul (rot ptran) q) /\
    forall v,
      Vec3.transformQuat v (Quat.mul (rot ptran) q) =
      Vec3.axisAngle (Vec3.transformQuat v (rot ctran)) axis angle in
  (exists q,
     done (Vec3.fromQuat (rot ctran) (RigItem.twist itm)) q
          (AxisAdditive.apply (AxisAdditive.mk name "y" angle) rt) /\
     (unitq (rot ptran) -> unitq (rot (local j)) ->
      Vec3.len (twist_of (RigItem.twist itm)) = 1 ->
      turned (Vec3.fromQuat (rot ctran) (RigItem.twist itm)) q)) /\
  (forall last etran,
     array_get (itm :: tl) (Z.of_nat (length (itm :: tl)) - 1) = Some last ->
     Pose.getWorld_new p (RigItem.idx last) = Returns etran ->
     exists q,
       done (Vec3.norm (Vec3.fromSub (pos etran) (pos ctran))) q
            (ChainTwistAdditive.apply (ChainTwistAdditive.mk name angle) rt) /\
       (unitq (rot ptran) -> unitq (rot (local j)) ->
        pos etran <> pos ctran ->
        turned (Vec3.norm (Vec3.fromSub (pos etran) (pos ctran))) q) /\
       (pos etran = pos ctran ->
        Vec3.norm (Vec3.fromSub (pos etran) (pos ctran)) = Vec3.zero /\
        (norm2 (rot ptran) <> 0 ->
         Quat.mul (rot ptran) q = qscale (cos (angle * 0.5)) (rot ctran)) /\
        (angle = PI -> q = zero_quat))).
Proof.
  intros Na Hc Hp Hj rt ctran done turned.
  assert (Wu : unitq (rot ptran) -> unitq (rot (local j)) ->
               unitq (rot ctran)).
  { intros U1 U2. unfold ctran. rewrite fromMul_rot.
    apply unitq_qMul; assumption. }
  assert (T : forall axis,
            Vec3.len axis = 1 -> unitq (rot ptran) ->
            unitq (rot (local j)) ->
            turned axis
              (Quat.pmulInvert
                 (Quat.mul (Quat.fromAxisAngle axis angle) (rot ctran))
                 (rot ptran))).
  { intros axis Ha U1 U2. unfold turned.
    assert (Np : norm2 (rot ptran) <> 0) by (rewrite U1; lra).
    rewrite (to_local_space _ _ Np).
    split; [exact Ha |]. split.
    - apply (turned_about_axis axis angle (rot ctran) Vec3.zero Ha (Wu U1 U2)).
    - intros v.
      apply (turned_about_axis axis angle (rot ctran) v Ha (Wu U1 U2)). }
  split.
  - eexists. split; [unfold done; split |].
    + unfold AxisAdditive.apply.
      cbn [AxisAdditive.angle AxisAdditive.chainName AxisAdditive.onAxis].
      destruct (Req_dec_T angle 0) as [E | _]; [contradiction |].
      unfold rt at 1 2. cbn [tarRig pose]. rewrite Hc.
      rewrite (bind_returns _ _ rt rt tt eq_refl).
      rewrite (bind_returns _ _ rt rt itm eq_refl).
      rewrite (bind_returns _ _ rt rt ptran
                 (pose_getWorld_returns (Some rig) p _ ptran Hp)).
      rewrite (bind_returns _ _ rt rt (local j)
                 (pose_joint_local_returns (Some rig) p _ j Hj)).
      cbn [String.eqb Ascii.eqb Bool.eqb].
      apply (on_pose_setRot_returns (Some rig) p _ j _ Hj).
    + intros Hn. apply to_local_space, Hn.
    + intros U1 U2 Ht. apply T; [| exact U1 | exact U2].
      rewrite fromQuat_twist, (qTransform_len _ _ (Wu U1 U2)). exact Ht.
  - intros last etran Hl He. eexists. split; [unfold done; split | split].
    + unfold ChainTwistAdditive.apply.
      cbn [ChainTwistAdditive.angle ChainTwistAdditive.chainName].
      destruct (Req_dec_T angle 0) as [E | _]; [contradiction |].
      unfold rt at 1 2. cbn [tarRig pose]. rewrite Hc, Hl.
      rewrite (bind_returns _ _ rt rt itm eq_refl).
      rewrite (bind_returns _ _ rt rt ptran
                 (pose_getWorld_returns (Some rig) p _ ptran Hp)).
      rewrite (bind_returns _ _ rt rt (local j)
                 (pose_joint_local_returns (Some rig) p _ j Hj)).
      rewrite (bind_returns _ _ rt rt last eq_refl).
      rewrite (bind_returns _ _ rt rt etran
                 (pose_getWorld_returns (Some rig) p _ etran He)).
      apply (on_pose_setRot_returns (Some rig) p _ j _ Hj).
    + intros Hn. apply to_local_space, Hn.
    + intros U1 U2 Hd. apply T; [| exact U1 | exact U2].
      apply vec3_norm_len. intros Z. apply Hd, fromSub_len_zero, Z.
    + intros E. fold ctran. rewrite E, norm_fromSub_same.
      split; [reflexivity |]. split.
      * intros Hn. rewrite (to_local_space _ _ Hn). apply fromAxisAngle_zero.
      * intros ->. rewrite fromAxisAngle_zero, cos_half_PI, qscale_zero.
        apply pmulInvert_zero.
Qed.

(** X23 on the chain of one joint of [spine_rig] and [lone_pose], with
    the angle [PI]: the start and the end of the chain are at the same
    place, and [ChainTwistAdditive] sets the rotation of the joint to the
    zero quaternion. *)
Lemma chain_operators_turn_in_world_space_witness :
  PI <> 0 /\
  Retargeter.chains_get (chains spine_rig) "hips" =
    Some [RigItem.mk 0 (-1) (Some axis_y)] /\
  array_get (joints lone_pose) 0 =
    Some (chain_joint "hips" 0 (-1) doubled_turn) /\
  ChainTwistAdditive.apply (ChainTwistAdditive.mk "hips" PI)
    (mkRetargeter (Some spine_rig) (Some lone_pose)) =
  mkCall
    (mkRetargeter (Some spine_rig)
       (Some (state (Pose.setRot 0 zero_quat lone_pose))))
    [] (Returns tt).
Proof.
  assert (N : PI <> 0) by apply PI_neq0.
  split; [exact N |]. split; [reflexivity |]. split; [reflexivity |].
  destruct (proj2 (chain_operators_turn_in_world_space spine_rig lone_pose
              "hips" PI (RigItem.mk 0 (-1) (Some axis_y)) []
              (Transform.fromMul Transform.identity Transform.identity)
              (chain_joint "hips" 0 (-1) doubled_turn)
              N eq_refl eq_refl eq_refl)
             (RigItem.mk 0 (-1) (Some axis_y))
             (Transform.pmul
                (Transform.pmul (Transform.copy doubled_turn)
                   Transform.identity)
                Transform.identity)
             eq_refl eq_refl) as (q & (H & _) & _ & D).
  assert (E : pos (Transform.pmul
                     (Transform.pmul (Transform.copy doubled_turn)
                        Transform.identity)
                     Transform.identity) =
              pos (Transform.fromMul
                     (Transform.fromMul Transform.identity Transform.identity)
                     (local (chain_joint "hips" 0 (-1) doubled_turn)))).
  { unfold Transform.pmul, Transform.fromMul, Transform.copy,
      Transform.qTransform, Transform.qMul, Transform.identity, Vec3.zero,
      doubled_turn, turn_xyz, chain_joint.
    cbn [rot pos scl qx qy qz qw vx vy vz local]. f_equal; lra. }
  destruct (D E) as (_ & _ & Z). rewrite (Z eq_refl) in H. exact H.
Defined.

(** ** MixamoMapper.ts and Mesh2MotionMapper.ts *)

Lemma distinct_NoDup (l : list string) : distinct l = true -> NoDup l.
Proof.
  induction l as [| x l IH]; cbn; intros H; constructor.
  - apply andb_prop in H. destruct H as [H _].
    intros I. apply negb_true_iff in H.
    assert (E : existsb (String.eqb x) l = true).
    { apply existsb_exists. exists x. split; [exact I | apply String.eqb_refl]. }
    congruence.
  - apply IH. apply andb_prop in H. tauto.
Qed.

Lemma own_property_In (o : list (string * string)) (k v : string) :
  MixamoMapper.own_property o k = Some v -> In (k, v) o.
Proof.
  induction o as [| [k' v'] o IH]; cbn; [discriminate |].
  destruct (String.eqb_spec k' k) as [-> | _].
  - intros [= ->]. left. reflexivity.
  - intros H. right. apply IH, H.
Qed.

Lemma BONE_MAP_get_In (s t : string) :
  MixamoMapper.BONE_MAP_get s = PropString t -> In (s, t) MixamoMapper.BONE_MAP.
Proof.
  unfold MixamoMapper.BONE_MAP_get.
  destruct (MixamoMapper.own_property MixamoMapper.BONE_MAP s) as [v |] eqn:E.
  - intros [= ->]. apply own_property_In, E.
  - destruct (existsb _ _); discriminate.
Qed.

Lemma NoDup_snd_injective (l : list (string * string)) (a b t : string) :
  NoDup (map snd l) -> In (a, t) l -> In (b, t) l -> a = b.
Proof.
  induction l as [| [k v] l IH]; cbn; [tauto |].
  intros N [Ha | Ha] [Hb | Hb]; inversion N as [| ? ? Nin N']; subst.
  - congruence.
  - injection Ha as -> ->. exfalso. apply Nin.
    change t with (snd (b, t)). apply in_map, Hb.
  - injection Hb as -> ->. exfalso. apply Nin.
    change t with (snd (a, t)). apply in_map, Ha.
  - apply IH; assumption.
Qed.

Lemma BONE_MAP_values_distinct : NoDup (map snd MixamoMapper.BONE_MAP).
Proof. apply distinct_NoDup. vm_compute. reflexivity. Qed.

Lemma BONE_MAP_injective (a b t : string) :
  MixamoMapper.BONE_MAP_get a = PropString t ->
  MixamoMapper.BONE_MAP_get b = PropString t -> a = b.
Proof.
  intros Ha Hb.
  apply (NoDup_snd_injective MixamoMapper.BONE_MAP a b t
           BONE_MAP_values_distinct);
    apply BONE_MAP_get_In; assumption.
Qed.

Lemma BONE_MAP_values_mixamo (s t : string) :
  In (s, t) MixamoMapper.BONE_MAP ->
  t <> ""%string /\
  JsString.includes (JsString.toLowerCase t) "mixamorig" = true.
Proof.
  intros H.
  assert (F : forallb
                (fun e : string * string =>
                   negb (String.eqb (snd e) "") &&
                   JsString.includes (JsString.toLowerCase (snd e))
                     "mixamorig")
                MixamoMapper.BONE_MAP = true) by (vm_compute; reflexivity).
  rewrite forallb_forall in F. specialize (F _ H). cbn [snd] in F.
  apply andb_prop in F. destruct F as [F1 F2]. split; [| exact F2].
  apply negb_true_iff in F1. apply String.eqb_neq, F1.
Qed.

Lemma JsMap_set_In (m : JsMap) (k v k' v' : string) :
  In (k', v') (JsMap.set m k v) -> (k', v') = (k, v) \/ In (k', v') m.
Proof.
  induction m as [| [a b] m IH]; cbn.
  - intros [H | []]. left. congruence.
  - destruct (String.eqb_spec a k) as [-> | _]; cbn.
    + intros [H | H]; [left; congruence | right; right; exact H].
    + intros [H | H]; [right; left; exact H |].
      destruct (IH H); [left | right; right]; assumption.
Qed.

Lemma JsMap_set_keys (m : JsMap) (k v k' : string) :
  In k' (map fst (JsMap.set m k v)) <-> k' = k \/ In k' (map fst m).
Proof.
  induction m as [| [a b] m IH]; cbn.
  - split; [intros [H | []]; left; congruence | intros [H | []]; left; congruence].
  - destruct (String.eqb_spec a k) as [-> | N]; cbn.
    + split; [intros [H | H]; [left; congruence | right; right; exact H] |].
      intros [H | [H | H]]; [left; congruence | left; exact H | right; exact H].
    + rewrite IH. tauto.
Qed.

Lemma JsMap_set_NoDup (m : JsMap) (k v : string) :
  NoDup (map fst m) -> NoDup (map fst (JsMap.set m k v)).
Proof.
  induction m as [| [a b] m IH]; cbn; intros N.
  - constructor; [intros [] | constructor].
  - inversion N as [| ? ? Nin N']; subst.
    destruct (String.eqb_spec a k) as [-> | D]; cbn.
    + constructor; assumption.
    + constructor; [| apply IH, N'].
      rewrite JsMap_set_keys. intros [E | I]; [congruence | contradiction].
Qed.

Lemma JsMap_key_entry (m : JsMap) (k : string) :
  In k (map fst m) -> exists v, In (k, v) m.
Proof.
  intros H. apply in_map_iff in H. destruct H as ([a b] & E & I).
  cbn in E. subst a. exists b. exact I.
Qed.

Lemma existsb_eqb_In (t : string) (l : list string) :
  existsb (String.eqb t) l = true <-> In t l.
Proof.
  rewrite existsb_exists. split.
  - intros (x & I & E). apply String.eqb_eq in E. subst. exact I.
  - intros I. exists t. split; [exact I | apply String.eqb_refl].
Qed.

Lemma mapped_lines_cons (sb : BoneMetadata) (src tgt : list BoneMetadata) :
  mapped_lines (sb :: src) tgt = mapped_lines [sb] tgt ++ mapped_lines src tgt.
Proof. unfold mapped_lines. cbn [flat_map]. rewrite app_nil_r. reflexivity. Qed.

(** What one round of the loop does. *)
Lemma map_mixamo_bone_cases (tgt : list BoneMetadata) (sb : BoneMetadata)
  (m : JsMap) :
  (MixamoMapper.map_mixamo_bone tgt sb m = mkCall m [] (Returns tt) /\
   mapped_lines [sb] tgt = [] /\
   forall t, MixamoMapper.BONE_MAP_get (bone_name sb) = PropString t ->
             ~ In t (map bone_name tgt)) \/
  (exists t,
     MixamoMapper.BONE_MAP_get (bone_name sb) = PropString t /\
     In t (map bone_name tgt) /\
     mapped_lines [sb] tgt =
       [ConsoleLog ("Mapped: " ++ t ++ " -> " ++ bone_name sb)] /\
     MixamoMapper.map_mixamo_bone tgt sb m =
       mkCall (JsMap.set m t (bone_name sb))
              [ConsoleLog ("Mapped: " ++ t ++ " -> " ++ bone_name sb)]
              (Returns tt)).
Proof.
  unfold MixamoMapper.map_mixamo_bone, mapped_lines. cbn [flat_map].
  rewrite app_nil_r.
  destruct (MixamoMapper.BONE_MAP_get (bone_name sb)) as [e | |] eqn:G;
    try (left; split; [reflexivity | split; [reflexivity | discriminate]]).
  destruct (BONE_MAP_values_mixamo _ _ (BONE_MAP_get_In _ _ G)) as [Ne _].
  destruct (String.eqb_spec e "") as [E | _]; [contradiction |].
  destruct (find _ tgt) as [tb |] eqn:F.
  - right. exists e. apply find_some in F. destruct F as [I E].
    apply String.eqb_eq in E.
    assert (It : In e (map bone_name tgt)) by (rewrite <- E; apply in_map, I).
    split; [reflexivity |]. split; [exact It |].
    rewrite (proj2 (existsb_eqb_In e (map bone_name tgt)) It).
    split; [reflexivity |]. rewrite E. reflexivity.
  - assert (Nt : ~ In e (map bone_name tgt)).
    { intros I. apply in_map_iff in I. destruct I as (tb & E & I).
      pose proof (find_none _ _ F tb I) as N. cbn in N.
      rewrite E, String.eqb_refl in N. discriminate. }
    left. split; [reflexivity |]. split.
    + destruct (existsb (String.eqb e) (map bone_name tgt)) eqn:X;
        [| reflexivity].
      apply existsb_eqb_In in X. contradiction.
    + intros t [= <-]. exact Nt.
Qed.

Lemma map_mixamo_loop_spec (tgt all : list BoneMetadata) :
  forall (src : list BoneMetadata) (m : JsMap),
    incl src all ->
    NoDup (map fst m) ->
    (forall t s, In (t, s) m ->
       MixamoMapper.BONE_MAP_get s = PropString t /\
       In t (map bone_name tgt) /\ In s (map bone_name all)) ->
    exists m',
      MixamoMapper.map_mixamo_loop tgt src m =
        mkCall m' (mapped_lines src tgt) (Returns tt) /\
      NoDup (map fst m') /\
      (forall t s, In (t, s) m' ->
         MixamoMapper.BONE_MAP_get s = PropString t /\
         In t (map bone_name tgt) /\ In s (map bone_name all)) /\
      (forall k, In k (map fst m) -> In k (map fst m')) /\
      (forall sb t, In sb src ->
         MixamoMapper.BONE_MAP_get (bone_name sb) = PropString t ->
         In t (map bone_name tgt) -> In t (map fst m')).
Proof.
  induction src as [| sb src IH]; intros m I N S.
  - exists m. split; [reflexivity |]. split; [exact N |].
    split; [exact S |]. split; [auto |]. intros sb t [].
  - assert (I' : incl src all) by (intros x Hx; apply I; right; exact Hx).
    cbn [MixamoMapper.map_mixamo_loop]. rewrite mapped_lines_cons.
    destruct (map_mixamo_bone_cases tgt sb m)
      as [(R & Ln & Nt) | (t & G & It & Ln & R)]; rewrite Ln.
    + destruct (IH m I' N S) as (m' & L & N' & S' & K' & C').
      exists m'. unfold bind. rewrite R. cbn [state result console].
      rewrite L. cbn [state result console app].
      split; [reflexivity |]. split; [exact N' |]. split; [exact S' |].
      split; [exact K' |].
      intros sb' t [<- | Hin] G It; [exfalso; eapply Nt; eauto |].
      eapply C'; eauto.
    + destruct (IH (JsMap.set m t (bone_name sb)) I'
                  (JsMap_set_NoDup m t (bone_name sb) N))
        as (m' & L & N' & S' & K' & C').
      { intros t' s' H. apply JsMap_set_In in H. destruct H as [[= -> ->] | H].
        - split; [exact G |]. split; [exact It |].
          apply in_map, I. left. reflexivity.
        - apply S, H. }
      exists m'.
      unfold bind. rewrite R. cbn [state result console].
      rewrite L. cbn [state result console app].
      split; [reflexivity |]. split; [exact N' |]. split; [exact S' |].
      split.
      * intros k Hk. apply K', JsMap_set_keys. right. exact Hk.
      * intros sb' t' [<- | Hin] G' It'.
        -- rewrite G in G'. injection G' as <-.
           apply K', JsMap_set_keys. left. reflexivity.
        -- eapply C'; eauto.
Qed.

Lemma JsMap_set_length (m : JsMap) (k v : string) :
  (length (JsMap.set m k v) <= S (length m))%nat /\
  (~ In k (map fst m) -> length (JsMap.set m k v) = S (length m)).
Proof.
  induction m as [| [a b] m [IH1 IH2]]; cbn [JsMap.set].
  - split; [cbn; lia | reflexivity].
  - destruct (String.eqb_spec a k) as [-> | D]; cbn [length map fst].
    + split; [lia |]. intros N. exfalso. apply N. left. reflexivity.
    + split; [lia |]. intros N. rewrite IH2; [reflexivity |].
      intros I. apply N. right. exact I.
Qed.

(** The entries and the lines: a round that writes a line sets one key,
    a new one when the source bones have different names. *)
Lemma map_mixamo_loop_count (tgt : list BoneMetadata) :
  forall (src : list BoneMetadata) (m : JsMap),
    (length (state (MixamoMapper.map_mixamo_loop tgt src m)) <=
     length m + length (mapped_lines src tgt))%nat /\
    (NoDup (map bone_name src) ->
     (forall t s, In (t, s) m ->
        MixamoMapper.BONE_MAP_get s = PropString t /\
        ~ In s (map bone_name src)) ->
     length (state (MixamoMapper.map_mixamo_loop tgt src m)) =
     (length m + length (mapped_lines src tgt))%nat).
Proof.
  induction src as [| sb src IH]; intros m.
  - cbn. split; [lia | intros; lia].
  - cbn [MixamoMapper.map_mixamo_loop]. rewrite mapped_lines_cons.
    rewrite length_app.
    destruct (map_mixamo_bone_cases tgt sb m)
      as [(R & Ln & Nt) | (t & G & It & Ln & R)]; rewrite Ln;
      unfold bind; rewrite R; cbn [state result console length].
    + destruct (IH m) as [Le Eq]. split; [exact Le |].
      intros D Inv. apply Eq.
      * inversion D; assumption.
      * intros t s H. destruct (Inv t s H) as [G N].
        split; [exact G |]. intros X. apply N. right. exact X.
    + destruct (IH (JsMap.set m t (bone_name sb))) as [Le Eq].
      destruct (JsMap_set_length m t (bone_name sb)) as [L1 L2].
      split; [lia |].
      intros D Inv. inversion D as [| ? ? Nin D']; subst.
      rewrite Eq.
      * rewrite L2; [lia |].
        intros K. destruct (JsMap_key_entry m t K) as [s' Hs'].
        destruct (Inv t s' Hs') as [G' N'].
        apply N'. left. apply (BONE_MAP_injective _ _ t G G').
      * exact D'.
      * intros t' s' H. apply JsMap_set_In in H.
        destruct H as [[= -> ->] | H].
        -- split; [exact G | exact Nin].
        -- destruct (Inv t' s' H) as [G' N'].
           split; [exact G' |]. intros X. apply N'. right. exact X.
Qed.

Lemma mapped_lines_In (src tgt : list BoneMetadata) (l : LogEntry) :
  In l (mapped_lines src tgt) <->
  exists t s,
    l = ConsoleLog ("Mapped: " ++ t ++ " -> " ++ s) /\
    MixamoMapper.BONE_MAP_get s = PropString t /\
    In t (map bone_name tgt) /\ In s (map bone_name src).
Proof.
  unfold mapped_lines. rewrite in_flat_map. split.
  - intros (sb & Isb & H).
    destruct (MixamoMapper.BONE_MAP_get (bone_name sb)) as [t | |] eqn:G;
      try contradiction.
    destruct (existsb (String.eqb t) (map bone_name tgt)) eqn:X;
      [| contradiction].
    destruct H as [<- | []]. exists t, (bone_name sb).
    split; [reflexivity |]. split; [exact G |].
    split; [apply existsb_eqb_In, X | apply in_map, Isb].
  - intros (t & s & -> & G & It & Is).
    apply in_map_iff in Is. destruct Is as (sb & <- & Isb).
    exists sb. split; [exact Isb |]. rewrite G.
    rewrite (proj2 (existsb_eqb_In t (map bone_name tgt)) It).
    left. reflexivity.
Qed.

(** X24.  [map_mixamo_bones] always returns.  The map it returns has one
    entry for each name of [BONE_MAP] met on both sides and no other: an
    entry [target -> source] is made of the names of a target bone and of
    a source bone that [BONE_MAP] pairs, and every such pair of names is
    an entry.  No target name is mapped twice.  The console holds the
    title, then the lines of [mapped_lines], then the count of the
    entries: one line [Mapped: target -> source] for each source bone, in
    the order of the source bones, whose name [BONE_MAP] pairs with the
    name of a target bone.  These are the lines of the entries of the
    map; there are at least as many lines as entries, and as many when
    the source bones have different names.  A target skeleton that gets
    a mapping is one that [is_target_valid_skeleton] accepts. *)
Theorem map_mixamo_bones_sound_and_complete (src tgt : list BoneMetadata) :
  exists m,
    MixamoMapper.map_mixamo_bones src tgt =
      mkCall m
        ([ConsoleLog "=== MIXAMO DIRECT MAPPING ==="] ++
         mapped_lines src tgt ++
         [ConsoleLog ("Mixamo mapping complete: " ++
                      MixamoMapper.number_string (length m) ++
                      " bones mapped")])
        (Returns m) /\
    NoDup (map fst m) /\
    (forall t s, In (t, s) m <->
       MixamoMapper.BONE_MAP_get s = PropString t /\
       In t (map bone_name tgt) /\ In s (map bone_name src)) /\
    (src = [] \/ tgt = [] -> m = []) /\
    (m <> [] ->
     MixamoMapper.is_target_valid_skeleton (map bone_name tgt) = true) /\
    (forall l, In l (mapped_lines src tgt) <->
       exists t s,
         l = ConsoleLog ("Mapped: " ++ t ++ " -> " ++ s) /\ In (t, s) m) /\
    (length m <= length (mapped_lines src tgt))%nat /\
    (NoDup (map bone_name src) ->
     length (mapped_lines src tgt) = length m).
Proof.
  destruct (map_mixamo_loop_spec tgt src src [] (incl_refl src)
              (NoDup_nil _)) as (m & L & N & S & _ & C).
  { intros t s []. }
  assert (Sound : forall t s, In (t, s) m <->
            MixamoMapper.BONE_MAP_get s = PropString t /\
            In t (map bone_name tgt) /\ In s (map bone_name src)).
  { intros t s. split; [apply S |]. intros (G & It & Is).
    apply in_map_iff in Is. destruct Is as (sb & <- & Isb).
    destruct (JsMap_key_entry m t (C sb t Isb G It)) as [s' Hs'].
    destruct (S t s' Hs') as (G' & _ & _).
    rewrite (BONE_MAP_injective (bone_name sb) s' t G G'). exact Hs'. }
  destruct (map_mixamo_loop_count tgt src []) as [Le Eq].
  rewrite L in Le, Eq. cbn [state length Nat.add] in Le, Eq.
  exists m. split.
  - unfold MixamoMapper.map_mixamo_bones, bind, log, get, ret.
    cbn [state result console app]. rewrite L.
    cbn [state result console app]. rewrite ?app_nil_r. reflexivity.
  - split; [exact N |]. split; [exact Sound |]. split; [| split; [| split]].
    + intros E. destruct m as [| [t s] m]; [reflexivity |]. exfalso.
      destruct (S t s (or_introl eq_refl)) as (_ & It & Is).
      destruct E as [-> | ->]; [destruct Is | destruct It].
    + intros Ne. destruct m as [| [t s] m]; [contradiction |].
      destruct (S t s (or_introl eq_refl)) as (G & It & _).
      apply existsb_exists. exists t. split; [exact It |].
      apply (BONE_MAP_values_mixamo s t), BONE_MAP_get_In, G.
    + intros l. rewrite mapped_lines_In. split.
      * intros (t & s & E & H). exists t, s. split; [exact E |].
        apply Sound, H.
      * intros (t & s & E & H). exists t, s. split; [exact E |].
        apply Sound, H.
    + split; [exact Le |]. intros D. symmetry. apply Eq; [exact D |].
      intros t s [].
Qed.

Lemma incl_forallb_existsb (s t : list string) :
  Mesh2MotionMapper.is_source_bones_same_as_target s t = true <->
  (forall n, In n s -> In n t).
Proof.
  unfold Mesh2MotionMapper.is_source_bones_same_as_target.
  rewrite forallb_forall. split; intros H n I.
  - specialize (H n I). apply existsb_exists in H.
    destruct H as (x & Ix & E). apply String.eqb_eq in E. subst. exact Ix.
  - apply existsb_exists. exists n. split; [apply H, I | apply String.eqb_refl].
Qed.

(** X25.  [is_source_bones_same_as_target] holds exactly when every
    source name is a target name: bones that only the target has, the
    order and the repetitions play no role.  It holds for an empty source
    and any target, and it is transitive but not symmetric. *)
Theorem is_source_bones_same_as_target_is_inclusion (s t u : list string) :
  (Mesh2MotionMapper.is_source_bones_same_as_target s t = true <->
   forall n, In n s -> In n t) /\
  Mesh2MotionMapper.is_source_bones_same_as_target [] t = true /\
  Mesh2MotionMapper.is_source_bones_same_as_target s (t ++ s ++ u) = true /\
  (Mesh2MotionMapper.is_source_bones_same_as_target s t = true ->
   Mesh2MotionMapper.is_source_bones_same_as_target t u = true ->
   Mesh2MotionMapper.is_source_bones_same_as_target s u = true) /\
  Mesh2MotionMapper.is_source_bones_same_as_target
    ["DEF-hips"]%string ["DEF-hips"; "DEF-head"]%string = true /\
  Mesh2MotionMapper.is_source_bones_same_as_target
    ["DEF-hips"; "DEF-head"]%string ["DEF-hips"]%string = false.
Proof.
  split; [apply incl_forallb_existsb |]. split; [reflexivity |]. split.
  - apply incl_forallb_existsb. intros n I.
    apply in_or_app. right. apply in_or_app. left. exact I.
  - split; [| split; reflexivity].
    rewrite !incl_forallb_existsb. auto.
Qed.

(** ** Pose.ts: [fromSkeleton] and [toSkeleton] *)

Lemma index_of_lt (s : string) (l : list string) (k : nat) :
  index_of s l = Some k -> (k < length l)%nat /\ nth_error l k = Some s.
Proof.
  revert k. induction l as [| n l IH]; cbn; intros k; [discriminate |].
  destruct (String.eqb_spec n s) as [-> | _].
  - intros [= <-]. split; [lia | reflexivity].
  - destruct (index_of s l) as [m |]; [| discriminate].
    intros [= <-]. destruct (IH m eq_refl). split; [lia | assumption].
Qed.

Lemma index_of_none (s : string) (l : list string) :
  index_of s l = None <-> ~ In s l.
Proof.
  induction l as [| n l IH]; cbn; [tauto |].
  destruct (String.eqb_spec n s) as [-> | N].
  - split; [discriminate | tauto].
  - destruct (index_of s l) as [m |].
    + split; [discriminate |]. intros H. exfalso.
      destruct (in_dec string_dec s l) as [I | NI].
      * apply H. right. exact I.
      * apply IH in NI. discriminate.
    + split; [| reflexivity]. intros _ [E | I]; [contradiction |].
      apply (proj1 IH eq_refl), I.
Qed.

Lemma index_of_nth (l : list string) (k : nat) (s : string) :
  NoDup l -> nth_error l k = Some s -> index_of s l = Some k.
Proof.
  revert k. induction l as [| n l IH]; intros [| k] N H; cbn in *;
    try discriminate.
  - injection H as ->. rewrite String.eqb_refl. reflexivity.
  - inversion N as [| ? ? Nin N']; subst.
    destruct (String.eqb_spec n s) as [-> | _].
    + exfalso. apply Nin. eapply nth_error_In; eauto.
    + rewrite (IH k N' H). reflexivity.
Qed.

Lemma index_of_app (s : string) (l l' : list string) :
  index_of s (l ++ l') =
  match index_of s l with
  | Some k => Some k
  | None =>
      match index_of s l' with
      | Some k => Some (length l + k)%nat
      | None => None
      end
  end.
Proof.
  induction l as [| n l IH]; cbn.
  - destruct (index_of s l'); reflexivity.
  - destruct (String.eqb n s); [reflexivity |]. rewrite IH.
    destruct (index_of s l); [reflexivity |].
    destruct (index_of s l'); reflexivity.
Qed.

Lemma nameIdx_get_set (m : list (string * Z)) (k : string) (v : Z)
  (s : string) :
  Pose.nameIdx_get (Pose.nameIdx_set m k v) s =
  (if String.eqb k s then Some v else Pose.nameIdx_get m s).
Proof.
  induction m as [| [a b] m IH]; cbn.
  - reflexivity.
  - destruct (String.eqb_spec a k) as [-> | N]; cbn.
    + destruct (String.eqb k s); reflexivity.
    + rewrite IH. destruct (String.eqb_spec a s) as [-> | _];
        [| reflexivity].
      destruct (String.eqb_spec k s) as [-> | _]; [contradiction |].
      reflexivity.
Qed.


Lemma nth_error_pre {A : Type} (pre tl : list A) (k : nat) (a : A) :
  nth_error (pre ++ tl) k = Some a -> (k < length pre)%nat ->
  nth_error pre k = Some a.
Proof. intros H L. rewrite nth_error_app1 in H by exact L. exact H. Qed.

Lemma joint_of_with_children (bones : list THREE.Bone) (k : nat)
  (b : THREE.Bone) (j : Joint) (c : list Z) :
  joint_of bones k b j -> joint_of bones k b (Joint.with_children j c).
Proof. intros H. exact H. Qed.

Lemma fromBone_local (b : THREE.Bone) (j : Joint) :
  local (Joint.fromBone j b) = bone_local b.
Proof.
  unfold Joint.fromBone, bone_local; cbv zeta; cbn [local].
  rewrite quat_eta, !vec3_eta. reflexivity.
Qed.

Lemma fromSkeleton_step_spec (bones pre tl : list THREE.Bone)
  (b : THREE.Bone) (p0 p : Pose) :
  bones = pre ++ b :: tl ->
  NoDup (map THREE.bone_name bones) ->
  (forall k b pb,
     nth_error bones k = Some b ->
     THREE.parent b = Some pb -> THREE.isBone pb = true ->
     exists m b',
       (m < k)%nat /\ nth_error bones m = Some b' /\
       THREE.bone_name b' = THREE.name pb) ->
  built bones pre p0 p ->
  exists p',
    Pose.fromSkeleton_step (length pre) b p = mkCall p' [] (Returns tt) /\
    built bones (pre ++ [b]) p0 p'.
Proof.
  intros E N W (Bs & Br & Bp & Bl & Bn & Bj).
  assert (Hb : nth_error bones (length pre) = Some b).
  { rewrite E, nth_error_app2, Nat.sub_diag by lia. reflexivity. }
  assert (Npre : NoDup (map THREE.bone_name pre)).
  { rewrite E, map_app in N. apply NoDup_app_remove_r in N. exact N. }
  assert (Nb : ~ In (THREE.bone_name b) (map THREE.bone_name pre)).
  { rewrite E, map_app in N. cbn [map] in N.
    apply NoDup_remove_2 in N. intros I. apply N, in_or_app. left. exact I. }
  set (j0 := Joint.with_index (Joint.fromBone Joint.new b)
               (Z.of_nat (length pre))).
  assert (Names : forall s,
            Pose.nameIdx_get
              (Pose.nameIdx_set (nameIdx p) (THREE.bone_name b)
                 (Z.of_nat (length pre))) s =
            option_map Z.of_nat
              (index_of s (map THREE.bone_name (pre ++ [b])))).
  { intros s. rewrite nameIdx_get_set, Bn, map_app, index_of_app.
    cbn [map index_of]. rewrite length_map.
    destruct (String.eqb_spec (THREE.bone_name b) s) as [<- | D].
    - apply index_of_none in Nb. rewrite Nb. cbn [option_map].
      rewrite Nat.add_0_r. reflexivity.
    - destruct (index_of s (map THREE.bone_name pre)); reflexivity. }
  assert (Old : forall (js : list Joint) k bk,
            length js = length pre ->
            (forall k bk, nth_error pre k = Some bk ->
               exists j, nth_error js k = Some j /\
                         joint_of bones k bk j /\
                         world j = Transform.identity) ->
            forall jn, joint_of bones (length pre) b jn ->
              world jn = Transform.identity ->
              nth_error (pre ++ [b]) k = Some bk ->
              exists j, nth_error (Pose.joints_store js (length pre) jn) k
                        = Some j /\
                        joint_of bones k bk j /\
                        world j = Transform.identity).
  { intros js k bk L H jn Hjn Wjn Hk. unfold Pose.joints_store.
    rewrite L, Nat.ltb_irrefl.
    destruct (Nat.lt_ge_cases k (length pre)) as [Lt | Ge].
    - rewrite nth_error_app1 in Hk by exact Lt.
      rewrite nth_error_app1 by lia. apply H, Hk.
    - rewrite nth_error_app2 in Hk by exact Ge.
      destruct (k - length pre)%nat as [| d] eqn:Ed;
        [| destruct d; discriminate].
      cbn in Hk. injection Hk as <-.
      assert (k = length pre) as -> by lia.
      rewrite nth_error_app2, L, Nat.sub_diag by lia.
      exists jn. auto. }
  unfold Pose.fromSkeleton_step; cbv zeta. fold j0.
  change (name j0) with (THREE.bone_name b).
  change (index j0) with (Z.of_nat (length pre)).
  cbn [nameIdx joints Pose.with_nameIdx].
  destruct (THREE.parent b) as [pb |] eqn:Ep.
  2: { eexists. split; [reflexivity |].
       repeat (split; [assumption || (cbn; assumption) |]).
       split.
       { cbn [joints Pose.with_joints Pose.with_nameIdx].
         unfold Pose.joints_store. rewrite Bl, Nat.ltb_irrefl.
         rewrite length_app, Bl, length_app. reflexivity. }
       split; [exact Names |].
       intros k bk Hk. cbn [joints Pose.with_joints Pose.with_nameIdx].
       apply (Old (joints p) k bk Bl Bj j0); [| reflexivity | exact Hk].
       unfold joint_of, parent_index. rewrite Ep.
       repeat split. apply fromBone_local. }
  destruct (THREE.isBone pb) eqn:Ei.
  2: { eexists. split; [reflexivity |].
       repeat (split; [assumption || (cbn; assumption) |]).
       split.
       { cbn [joints Pose.with_joints Pose.with_nameIdx].
         unfold Pose.joints_store. rewrite Bl, Nat.ltb_irrefl.
         rewrite length_app, Bl, length_app. reflexivity. }
       split; [exact Names |].
       intros k bk Hk. cbn [joints Pose.with_joints Pose.with_nameIdx].
       apply (Old (joints p) k bk Bl Bj j0); [| reflexivity | exact Hk].
       unfold joint_of, parent_index. rewrite Ep, Ei.
       repeat split. apply fromBone_local. }
  destruct (W _ b pb Hb Ep Ei) as (m & b' & Lm & Hm & Em).
  assert (Hm' : nth_error pre m = Some b').
  { rewrite E in Hm. apply (nth_error_pre _ _ _ _ Hm Lm). }
  assert (Im : index_of (THREE.name pb) (map THREE.bone_name bones)
               = Some m).
  { apply index_of_nth; [exact N |]. rewrite nth_error_map, Hm, <- Em.
    reflexivity. }
  assert (Im' : index_of (THREE.name pb) (map THREE.bone_name pre)
                = Some m).
  { apply index_of_nth; [exact Npre |]. rewrite nth_error_map, Hm', <- Em.
    reflexivity. }
  rewrite nameIdx_get_set, Bn, Im'.
  destruct (String.eqb_spec (THREE.bone_name b) (THREE.name pb)) as [Eq | _].
  { exfalso. apply Nb. rewrite Eq, <- Em.
    apply in_map. eapply nth_error_In; eauto. }
  cbn [option_map Joint.with_pindex pindex].
  destruct (Bj m b' Hm') as (pj & Hpj & Jpj & Wpj).
  assert (G : array_get (joints p) (Z.of_nat m) = Some pj).
  { unfold array_get. destruct (Z.ltb_spec (Z.of_nat m) 0); [lia |].
    rewrite Nat2Z.id. exact Hpj. }
  rewrite G. eexists. split; [reflexivity |].
  repeat (split; [assumption || (cbn; assumption) |]).
  rewrite Nat2Z.id.
  split.
  { cbn [joints Pose.with_joints Pose.with_nameIdx].
    unfold Pose.joints_store. rewrite length_array_set, Bl, Nat.ltb_irrefl.
    rewrite length_app, length_array_set, Bl, length_app. reflexivity. }
  split; [exact Names |].
  intros k bk Hk. cbn [joints Pose.with_joints Pose.with_nameIdx].
  apply Old; [rewrite length_array_set; exact Bl | | | reflexivity | exact Hk].
  - intros k' bk' Hk'.
    destruct (Nat.eq_dec m k') as [<- | D].
    + rewrite nth_error_array_set_eq by (eapply nth_error_in_range; eauto).
      rewrite Hm' in Hk'. injection Hk' as <-.
      eexists. split; [reflexivity |]. split; [exact Jpj | exact Wpj].
    + rewrite nth_error_array_set_neq by exact D. apply Bj, Hk'.
  - unfold joint_of, parent_index. rewrite Ep, Ei, Im.
    repeat split. apply fromBone_local.
Qed.

Lemma fromSkeleton_loop_spec (bones : list THREE.Bone) (p0 : Pose) :
  NoDup (map THREE.bone_name bones) ->
  (forall k b pb,
     nth_error bones k = Some b ->
     THREE.parent b = Some pb -> THREE.isBone pb = true ->
     exists m b',
       (m < k)%nat /\ nth_error bones m = Some b' /\
       THREE.bone_name b' = THREE.name pb) ->
  forall (tl pre : list THREE.Bone) (p : Pose),
    bones = pre ++ tl -> built bones pre p0 p ->
    exists p',
      Pose.fromSkeleton_loop (length pre) tl p = mkCall p' [] (Returns tt) /\
      built bones bones p0 p'.
Proof.
  intros N W. induction tl as [| b tl IH]; intros pre p E B.
  - exists p. split; [reflexivity |]. rewrite app_nil_r in E. subst pre.
    exact B.
  - destruct (fromSkeleton_step_spec bones pre tl b p0 p E N W B)
      as (p1 & R1 & B1).
    destruct (IH (pre ++ [b]) p1) as (p' & R & B').
    { rewrite <- app_assoc. exact E. }
    { exact B1. }
    exists p'. split; [| exact B'].
    cbn [Pose.fromSkeleton_loop].
    rewrite (bind_returns (Pose.fromSkeleton_step (length pre) b)
               (fun _ => Pose.fromSkeleton_loop (S (length pre)) tl)
               p p1 tt R1).
    rewrite length_app in R. cbn [length] in R.
    rewrite Nat.add_1_r in R. exact R.
Qed.


Lemma bone_eta (b : THREE.Bone) : posed_bone b (bone_local b) = b.
Proof. destruct b. reflexivity. Qed.

Lemma toSkeleton_step_spec (p : Pose) (k : nat) (bs : list THREE.Bone)
  (b : THREE.Bone) (j : Joint) :
  nth_error bs k = Some b -> nth_error (joints p) k = Some j ->
  Pose.toSkeleton_step p k bs =
  mkCall (array_set bs k (posed_bone b (local j))) [] (Returns tt).
Proof.
  intros Hb Hj. unfold Pose.toSkeleton_step. rewrite Hb, Hj. cbv zeta.
  rewrite quat_eta, !vec3_eta. reflexivity.
Qed.

Lemma toSkeleton_loop_spec (p : Pose) (bs0 : list THREE.Bone) :
  (length bs0 <= length (joints p))%nat ->
  forall (n m : nat) (bs : list THREE.Bone),
    (m + n = length bs0)%nat -> length bs = length bs0 ->
    (forall k, (m <= k)%nat -> nth_error bs k = nth_error bs0 k) ->
    exists bs',
      Pose.toSkeleton_loop p (seq m n) bs = mkCall bs' [] (Returns tt) /\
      length bs' = length bs0 /\
      forall k b, nth_error bs0 k = Some b ->
        if (k <? m)%nat then nth_error bs' k = nth_error bs k
        else exists j, nth_error (joints p) k = Some j /\
                       nth_error bs' k = Some (posed_bone b (local j)).
Proof.
  intros L. induction n as [| n IH]; intros m bs E Lb T.
  - exists bs. split; [reflexivity |]. split; [exact Lb |].
    intros k b Hb. apply nth_error_in_range in Hb.
    destruct (Nat.ltb_spec k m); [reflexivity | lia].
  - destruct (nth_error_exists bs0 m ltac:(lia)) as [b Hb].
    destruct (nth_error_exists (joints p) m ltac:(lia)) as [j Hj].
    assert (Hb' : nth_error bs m = Some b) by (rewrite T by lia; exact Hb).
    destruct (IH (S m) (array_set bs m (posed_bone b (local j))))
      as (bs' & R & L' & S').
    { lia. }
    { rewrite length_array_set. exact Lb. }
    { intros k Hk. rewrite nth_error_array_set_neq by lia. apply T. lia. }
    exists bs'. split.
    { cbn [seq Pose.toSkeleton_loop].
      rewrite (bind_returns (Pose.toSkeleton_step p m) _ bs _ tt
                 (toSkeleton_step_spec p m bs b j Hb' Hj)).
      exact R. }
    split; [exact L' |].
    intros k bk Hk. specialize (S' k bk Hk).
    destruct (Nat.ltb_spec k m) as [Lt | Ge].
    + destruct (Nat.ltb_spec k (S m)); [| lia].
      rewrite S'. apply nth_error_array_set_neq. lia.
    + destruct (Nat.ltb_spec k (S m)) as [Lt' | Ge']; [| exact S'].
      assert (k = m) as -> by lia.
      rewrite Hb in Hk. injection Hk as <-.
      exists j. split; [exact Hj |]. rewrite S'.
      apply nth_error_array_set_eq. lia.
Qed.

Lemma toSkeleton_writes (p : Pose) (bs : list THREE.Bone) :
  (length bs <= length (joints p))%nat ->
  exists bs',
    Pose.toSkeleton p bs = mkCall bs' [] (Returns tt) /\
    length bs' = length bs /\
    forall k b, nth_error bs k = Some b ->
      exists j, nth_error (joints p) k = Some j /\
                nth_error bs' k = Some (posed_bone b (local j)).
Proof.
  intros L.
  destruct (toSkeleton_loop_spec p bs L (length bs) 0 bs)
    as (bs' & R & L' & S); [lia | reflexivity | reflexivity |].
  exists bs'. split; [exact R |]. split; [exact L' |].
  intros k b Hb. exact (S k b Hb).
Qed.

Lemma nth_error_ext {A : Type} (l l' : list A) :
  length l = length l' ->
  (forall k a, nth_error l' k = Some a -> nth_error l k = Some a) -> l = l'.
Proof.
  revert l'. induction l as [| a l IH]; intros [| a' l'] L H;
    try discriminate; [reflexivity |].
  f_equal.
  - specialize (H 0%nat a' eq_refl). cbn in H. congruence.
  - apply IH; [cbn in L; lia |]. intros k x Hx. apply (H (S k) x Hx).
Qed.

Lemma toSkeleton_loop_short (p : Pose) :
  forall (n m : nat) (bs : list THREE.Bone),
    (m <= length (joints p))%nat -> (length (joints p) < m + n)%nat ->
    (m + n <= length bs)%nat ->
    result (Pose.toSkeleton_loop p (seq m n) bs) = Throws TypeError.
Proof.
  induction n as [| n IH]; intros m bs Lm Ln Lb; [lia |].
  cbn [seq Pose.toSkeleton_loop].
  destruct (nth_error_exists bs m ltac:(lia)) as [b Hb].
  destruct (nth_error (joints p) m) as [j |] eqn:Hj.
  - rewrite (bind_returns (Pose.toSkeleton_step p m) _ bs _ tt
               (toSkeleton_step_spec p m bs b j Hb Hj)).
    apply nth_error_in_range in Hj.
    apply IH; [lia | lia | rewrite length_array_set; lia].
  - unfold bind, Pose.toSkeleton_step. rewrite Hb, Hj. reflexivity.
Qed.

Lemma toSkeleton_unchanged (p : Pose) (bs : list THREE.Bone) :
  (forall k b, nth_error bs k = Some b ->
     exists j, nth_error (joints p) k = Some j /\ local j = bone_local b) ->
  Pose.toSkeleton p bs = mkCall bs [] (Returns tt).
Proof.
  intros H.
  assert (L : (length bs <= length (joints p))%nat).
  { destruct (Nat.le_gt_cases (length bs) (length (joints p)))
      as [Le | Gt]; [exact Le |].
    destruct (nth_error_exists bs (length (joints p)) Gt) as [b Hb].
    destruct (H _ b Hb) as (j & Hj & _).
    apply nth_error_in_range in Hj. lia. }
  destruct (toSkeleton_writes p bs L) as (bs' & R & L' & S).
  rewrite R. f_equal. apply nth_error_ext; [exact L' |].
  intros k b Hb. destruct (S k b Hb) as (j & Hj & ->).
  destruct (H k b Hb) as (j' & Hj' & E).
  rewrite Hj in Hj'. injection Hj' as <-. rewrite E, bone_eta.
  reflexivity.
Qed.

(** X26.  [toSkeleton] writes in each bone the local transform of the
    joint at the index of the bone, and leaves the names and the parents
    as they are; it throws a [TypeError] for a skeleton with more bones
    than the pose has joints; and it changes nothing in a skeleton whose
    bones have the local transforms of the joints already. *)
Theorem toSkeleton_writes_locals (p : Pose) (bs : list THREE.Bone) :
  ((length bs <= length (joints p))%nat ->
   exists bs',
     Pose.toSkeleton p bs = mkCall bs' [] (Returns tt) /\
     length bs' = length bs /\
     forall k b, nth_error bs k = Some b ->
       exists j, nth_error (joints p) k = Some j /\
                 nth_error bs' k = Some (posed_bone b (local j))) /\
  ((length (joints p) < length bs)%nat ->
   result (Pose.toSkeleton p bs) = Throws TypeError) /\
  ((forall k b, nth_error bs k = Some b ->
      exists j, nth_error (joints p) k = Some j /\ local j = bone_local b) ->
   Pose.toSkeleton p bs = mkCall bs [] (Returns tt)).
Proof.
  split; [apply toSkeleton_writes |]. split.
  - intros L. unfold Pose.toSkeleton.
    apply toSkeleton_loop_short; lia.
  - apply toSkeleton_unchanged.
Qed.

Lemma toSkeleton_writes_locals_witness :
  (length (THREE.bones biped) <= length (joints sheared_pose))%nat /\
  exists bs',
    Pose.toSkeleton sheared_pose (THREE.bones biped) =
    mkCall bs' [] (Returns tt).
Proof.
  assert (L : (length (THREE.bones biped)
               <= length (joints sheared_pose))%nat) by (cbn; lia).
  split; [exact L |].
  destruct (proj1 (toSkeleton_writes_locals sheared_pose (THREE.bones biped))
              L) as (bs' & R & _).
  exists bs'. exact R.
Defined.


Lemma parent_index_range (skel : THREE.Skeleton) (k : nat) (b : THREE.Bone) :
  well_formed skel -> nth_error (THREE.bones skel) k = Some b ->
  parent_index (THREE.bones skel) b = (-1)%Z \/
  (0 <= parent_index (THREE.bones skel) b < Z.of_nat k)%Z.
Proof.
  intros (N & W & _) Hb. unfold parent_index.
  destruct (THREE.parent b) as [pb |] eqn:Ep; [| left; reflexivity].
  destruct (THREE.isBone pb) eqn:Ei; [| left; reflexivity].
  destruct (W k b pb Hb Ep Ei) as (m & b' & Lm & Hm & Em).
  rewrite (index_of_nth _ m (THREE.name pb) N).
  - right. lia.
  - rewrite nth_error_map, Hm, <- Em. reflexivity.
Qed.

Lemma joint_of_with_world (bones : list THREE.Bone) (k : nat)
  (b : THREE.Bone) (j : Joint) (w : Transform) :
  joint_of bones k b j -> joint_of bones k b (Joint.with_world j w).
Proof. intros H. exact H. Qed.

(** X27.  [fromSkeleton] on a pose without joints (as in [new Pose (skel)])
    and a skeleton whose bones have different names, with every parent
    bone before its children and a parent object above the first bone:
    the call returns, and the pose has one joint for each bone, at the
    index of the bone, with the name and the local transform of the bone,
    the index of the bone of its parent as [pindex] (-1 without a parent
    bone); [getJoint] finds each joint under the name of its bone; the
    joints come after their parents; the pose offset is the world
    transform of the parent of the first bone; the caches are those of
    [updateWorld]; and [toSkeleton] on the same skeleton changes no
    bone. *)
Theorem fromSkeleton_builds_ordered_pose (skel : THREE.Skeleton)
  (this : Pose) :
  well_formed skel -> joints this = [] ->
  exists p,
    Pose.fromSkeleton skel this = mkCall p [] (Returns tt) /\
    length (joints p) = length (THREE.bones skel) /\
    ordered (joints p) /\
    (forall k, consistent_at p k) /\
    srcPose p = srcPose this /\ rootOffset p = rootOffset this /\
    (forall b pb,
       nth_error (THREE.bones skel) 0 = Some b -> THREE.parent b = Some pb ->
       poseOffset p =
       mkTransform (THREE.getWorldQuaternion pb) (THREE.getWorldPosition pb)
                   (THREE.getWorldScale pb)) /\
    Pose.toSkeleton p (THREE.bones skel) =
      mkCall (THREE.bones skel) [] (Returns tt) /\
    forall k b, nth_error (THREE.bones skel) k = Some b ->
      exists j,
        nth_error (joints p) k = Some j /\
        joint_of (THREE.bones skel) k b j /\
        Pose.getJoint p (ByName (THREE.bone_name b)) = JsObj j.
Proof.
  intros WF J0. pose proof WF as (N & W & b0 & pb0 & Hb0 & Ep0).
  set (bones := THREE.bones skel) in *.
  destruct (fromSkeleton_loop_spec bones this N W bones []
              (Pose.with_nameIdx this []))
    as (p1 & R1 & B1).
  { reflexivity. }
  { repeat split; try reflexivity.
    - cbn. rewrite J0. reflexivity.
    - intros [| k] b H; discriminate. }
  destruct B1 as (Bs & Br & Bp & Bl & Bn & Bj).
  set (off := mkTransform (THREE.getWorldQuaternion pb0)
                (THREE.getWorldPosition pb0) (THREE.getWorldScale pb0)).
  set (p2 := Pose.with_poseOffset p1 off).
  assert (R2 : Pose.fromSkeleton_offset skel p1 = mkCall p2 [] (Returns tt)).
  { unfold Pose.fromSkeleton_offset. fold bones. rewrite Hb0, Ep0.
    cbv zeta. rewrite quat_eta, !vec3_eta. reflexivity. }
  assert (O : ordered (joints p2)).
  { intros k j Hj. cbn [joints p2 Pose.with_poseOffset] in Hj.
    destruct (nth_error_exists bones k) as [b Hb].
    { apply nth_error_in_range in Hj. lia. }
    destruct (Bj k b Hb) as (j' & Hj' & (_ & _ & Pj & _) & _).
    rewrite Hj in Hj'. injection Hj' as <-. rewrite Pj.
    apply (parent_index_range skel k b WF Hb). }
  destruct (updateWorld_loop_spec p2 O (length (joints p2)) 0 p2)
    as (p & R & S & C);
    [apply same_locals_refl | lia | intros k Hk; lia |].
  pose proof S as (Ss & Sn & Sr & Sp & Sl & Sj).
  exists p. split.
  { unfold Pose.fromSkeleton.
    rewrite (bind_returns
               (fun this0 : Pose =>
                  mkCall (Pose.with_nameIdx this0 []) [] (Returns tt))
               _ this (Pose.with_nameIdx this []) tt eq_refl).
    rewrite (bind_returns (Pose.fromSkeleton_loop 0 bones) _
               (Pose.with_nameIdx this []) p1 tt R1).
    rewrite (bind_returns (Pose.fromSkeleton_offset skel) _ p1 p2 tt R2).
    exact R. }
  split; [rewrite Sl; exact Bl |]. split.
  { eapply same_locals_ordered; eauto. }
  split.
  { intros k. destruct (Nat.lt_ge_cases k (length (joints p2))) as [Hk | Hk].
    - apply C. lia.
    - intros j Hj. apply nth_error_in_range in Hj. lia. }
  split; [rewrite Ss; exact Bs |]. split; [rewrite Sr; exact Br |]. split.
  { intros b pb Hb Ep. rewrite Sp. rewrite Hb0 in Hb. injection Hb as <-.
    rewrite Ep0 in Ep. injection Ep as <-. reflexivity. }
  split.
  { apply toSkeleton_unchanged. intros k b Hb.
    destruct (Bj k b Hb) as (j & Hj & (_ & _ & _ & Lj & _) & _).
    destruct (Sj k j Hj) as [w Hw].
    exists (Joint.with_world j w). split; [exact Hw | exact Lj]. }
  intros k b Hb. destruct (Bj k b Hb) as (j & Hj & Jj & _).
  destruct (Sj k j Hj) as [w Hw].
  exists (Joint.with_world j w). split; [exact Hw |].
  split; [exact Jj |].
  unfold Pose.getJoint. rewrite Sn. cbn [nameIdx p2 Pose.with_poseOffset].
  rewrite Bn, (index_of_nth _ k (THREE.bone_name b) N).
  - cbn [option_map]. unfold Pose.joints_at, array_get.
    destruct (Z.ltb_spec (Z.of_nat k) 0); [lia |].
    rewrite Nat2Z.id, Hw. reflexivity.
  - rewrite nth_error_map. fold bones. rewrite Hb. reflexivity.
Qed.

Lemma biped_well_formed : well_formed biped.
Proof.
  split; [| split].
  - apply distinct_NoDup. reflexivity.
  - intros [| [| [| k]]] b pb H Ep I; cbn in H.
    + injection H as <-. cbn in Ep. injection Ep as <-. discriminate.
    + injection H as <-. cbn in Ep. injection Ep as <-.
      exists 0%nat. eexists. split; [lia |]. split; reflexivity.
    + injection H as <-. cbn in Ep. injection Ep as <-.
      exists 1%nat. eexists. split; [lia |]. split; reflexivity.
    + destruct k; discriminate.
  - do 2 eexists. split; reflexivity.
Qed.

Lemma fromSkeleton_builds_ordered_pose_witness :
  well_formed biped /\ joints Pose.new = [] /\
  exists p,
    Pose.fromSkeleton biped Pose.new = mkCall p [] (Returns tt) /\
    ordered (joints p).
Proof.
  split; [exact biped_well_formed |]. split; [reflexivity |].
  destruct (fromSkeleton_builds_ordered_pose biped Pose.new
              biped_well_formed eq_refl) as (p & R & _ & O & _).
  exists p. split; [exact R | exact O].
Defined.

Lemma fromSkeleton_step_total (i : nat) (b : THREE.Bone) (p : Pose) :
  exists p',
    (Pose.fromSkeleton_step i b p = mkCall p' [] (Returns tt) \/
     Pose.fromSkeleton_step i b p = mkCall p' [] (Throws TypeError)) /\
    forall s,
      Pose.nameIdx_get (nameIdx p') s =
      (if String.eqb (THREE.bone_name b) s then Some (Z.of_nat i)
       else Pose.nameIdx_get (nameIdx p) s).
Proof.
  unfold Pose.fromSkeleton_step; cbv zeta.
  destruct (match THREE.parent b with
            | Some pb => THREE.isBone pb
            | None => false
            end).
  - match goal with
    | |- context [array_get ?js ?i] => destruct (array_get js i)
    end; eexists; (split; [auto |]); intros s;
      cbn [nameIdx Pose.with_joints Pose.with_nameIdx];
      rewrite nameIdx_get_set; reflexivity.
  - eexists. split; [left; reflexivity |]. intros s.
    cbn [nameIdx Pose.with_joints Pose.with_nameIdx].
    rewrite nameIdx_get_set. reflexivity.
Qed.

Lemma fromSkeleton_loop_total :
  forall (bs : list THREE.Bone) (i : nat) (p : Pose),
    exists p',
      Pose.fromSkeleton_loop i bs p = mkCall p' [] (Returns tt) \/
      Pose.fromSkeleton_loop i bs p = mkCall p' [] (Throws TypeError).
Proof.
  induction bs as [| b bs IH]; intros i p.
  - exists p. left. reflexivity.
  - cbn [Pose.fromSkeleton_loop].
    destruct (fromSkeleton_step_total i b p) as (p1 & [R | T] & _).
    + rewrite (bind_returns (Pose.fromSkeleton_step i b) _ p p1 tt R).
      apply IH.
    + exists p1. right. unfold bind. rewrite T. reflexivity.
Qed.

Lemma fromSkeleton_step_forward (i : nat) (b : THREE.Bone)
  (pb : THREE.Object3D) (p : Pose) :
  THREE.parent b = Some pb -> THREE.isBone pb = true ->
  THREE.bone_name b <> THREE.name pb ->
  Pose.nameIdx_get (nameIdx p) (THREE.name pb) = None ->
  result (Pose.fromSkeleton_step i b p) = Throws TypeError.
Proof.
  intros Ep Ei D G. unfold Pose.fromSkeleton_step; cbv zeta.
  rewrite Ep, Ei. cbn [nameIdx Pose.with_nameIdx].
  change (name (Joint.with_index (Joint.fromBone Joint.new b) (Z.of_nat i)))
    with (THREE.bone_name b).
  rewrite nameIdx_get_set.
  destruct (String.eqb_spec (THREE.bone_name b) (THREE.name pb));
    [contradiction |].
  rewrite G. reflexivity.
Qed.

Lemma fromSkeleton_loop_forward (b : THREE.Bone) (pb : THREE.Object3D) :
  THREE.parent b = Some pb -> THREE.isBone pb = true ->
  THREE.bone_name b <> THREE.name pb ->
  forall (pre tl : list THREE.Bone) (i : nat) (p : Pose),
    ~ In (THREE.name pb) (map THREE.bone_name pre) ->
    Pose.nameIdx_get (nameIdx p) (THREE.name pb) = None ->
    result (Pose.fromSkeleton_loop i (pre ++ b :: tl) p) = Throws TypeError.
Proof.
  intros Ep Ei D. induction pre as [| a pre IH]; intros tl i p N G.
  - cbn [app Pose.fromSkeleton_loop]. unfold bind.
    pose proof (fromSkeleton_step_forward i b pb p Ep Ei D G) as T.
    destruct (Pose.fromSkeleton_step i b p) as [s c r].
    cbn [result] in *. rewrite T. reflexivity.
  - cbn [app Pose.fromSkeleton_loop].
    destruct (fromSkeleton_step_total i a p) as (p1 & [R | T] & K).
    + rewrite (bind_returns (Pose.fromSkeleton_step i a) _ p p1 tt R).
      apply IH.
      * intros I. apply N. right. exact I.
      * rewrite K.
        destruct (String.eqb_spec (THREE.bone_name a) (THREE.name pb))
          as [E | _]; [| exact G].
        exfalso. apply N. left. exact E.
    + unfold bind. rewrite T. reflexivity.
Qed.

(** X28.  [fromSkeleton] throws a [TypeError] for a skeleton without
    bones (after it emptied the map of the names), for a skeleton whose
    first bone has no parent object, and for a skeleton in which a bone
    has a parent bone whose name is not the name of one of the bones up
    to it: a child listed before its parent. *)
Theorem fromSkeleton_throws (skel : THREE.Skeleton) (this : Pose) :
  (THREE.bones skel = [] ->
   Pose.fromSkeleton skel this =
   mkCall (Pose.with_nameIdx this []) [] (Throws TypeError)) /\
  (forall b, nth_error (THREE.bones skel) 0 = Some b ->
     THREE.parent b = None ->
     result (Pose.fromSkeleton skel this) = Throws TypeError) /\
  (forall k b pb,
     nth_error (THREE.bones skel) k = Some b ->
     THREE.parent b = Some pb -> THREE.isBone pb = true ->
     ~ In (THREE.name pb)
          (map THREE.bone_name (firstn (S k) (THREE.bones skel))) ->
     result (Pose.fromSkeleton skel this) = Throws TypeError).
Proof.
  split; [| split].
  - intros E. unfold Pose.fromSkeleton, bind, Pose.fromSkeleton_offset.
    rewrite E. reflexivity.
  - intros b Hb Ep. unfold Pose.fromSkeleton.
    rewrite (bind_returns
               (fun this0 : Pose =>
                  mkCall (Pose.with_nameIdx this0 []) [] (Returns tt))
               _ this (Pose.with_nameIdx this []) tt eq_refl).
    destruct (fromSkeleton_loop_total (THREE.bones skel) 0
                (Pose.with_nameIdx this [])) as (p1 & [R | T]).
    + rewrite (bind_returns (Pose.fromSkeleton_loop 0 (THREE.bones skel)) _
                 (Pose.with_nameIdx this []) p1 tt R).
      unfold bind, Pose.fromSkeleton_offset. rewrite Hb, Ep. reflexivity.
    + unfold bind. rewrite T. reflexivity.
  - intros k b pb Hb Ep Ei N. unfold Pose.fromSkeleton.
    rewrite (bind_returns
               (fun this0 : Pose =>
                  mkCall (Pose.with_nameIdx this0 []) [] (Returns tt))
               _ this (Pose.with_nameIdx this []) tt eq_refl).
    destruct (nth_error_split _ _ Hb) as (pre & tl & E & Lk).
    assert (F : firstn (S k) (THREE.bones skel) = pre ++ [b]).
    { rewrite E, <- Lk.
      replace (S (length pre)) with (length pre + 1)%nat by lia.
      rewrite firstn_app_2. reflexivity. }
    rewrite F, map_app in N. cbn [map] in N.
    assert (T : result (Pose.fromSkeleton_loop 0 (THREE.bones skel)
                          (Pose.with_nameIdx this [])) = Throws TypeError).
    { rewrite E. apply (fromSkeleton_loop_forward b pb Ep Ei).
      - intros X. apply N, in_or_app. right. left. exact X.
      - intros I. apply N, in_or_app. left. exact I.
      - reflexivity. }
    unfold bind at 1.
    destruct (Pose.fromSkeleton_loop 0 (THREE.bones skel)
                (Pose.with_nameIdx this [])) as [s c r].
    cbn [result] in *. rewrite T. reflexivity.
Qed.

Lemma fromSkeleton_throws_witness :
  nth_error (THREE.bones upside_down) 0 =
    Some (THREE.mkBone "spine" (mkVec3 1 0 0) Quat.identity (mkVec3 1 1 1)
            (Some (as_parent "hips"))) /\
  result (Pose.fromSkeleton upside_down Pose.new) = Throws TypeError.
Proof.
  split; [reflexivity |].
  refine (proj2 (proj2 (fromSkeleton_throws upside_down Pose.new))
            0%nat _ (as_parent "hips") eq_refl eq_refl eq_refl _).
  cbn. intros [H | []]. discriminate.
Defined.

(** ** BoneAutoMapper.ts: the characters of a normalised name *)

Lemma chars_str (l : list ascii) : JsString.chars (JsString.str l) = l.
Proof. apply list_ascii_of_string_of_list_ascii. Qed.

Lemma plain_firstn (n : nat) (l : list ascii) : plain l -> plain (firstn n l).
Proof.
  revert n. induction l as [| c l IH]; intros [| n] H; cbn;
    try constructor; inversion H; subst; [assumption | apply IH; assumption].
Qed.

Lemma rmatch_plain (icase : bool) (r : Regex.regex) :
  forall (st : Regex.position) (k : Regex.position -> option Regex.position)
         (m : Regex.position),
    plain_position st ->
    (forall st' m', plain_position st' -> k st' = Some m' ->
                    plain_position m') ->
    Regex.rmatch icase r st k = Some m -> plain_position m.
Proof.
  induction r as [| c | p | | | | r1 IH1 r2 IH2 | r1 IH1 r2 IH2 | r IH | r IH];
    intros st k m I K H; cbn [Regex.rmatch] in H.
  - eapply K; eauto.
  - destruct (Regex.rest st) as [| c' tl] eqn:E; [discriminate |].
    destruct (Regex.same_char icase c c'); [| discriminate].
    eapply K; [| exact H]. destruct I as [I1 I2]. rewrite E in I1.
    inversion I1; subst. split; assumption.
  - destruct (Regex.rest st) as [| c' tl] eqn:E; [discriminate |].
    destruct (p c'); [| discriminate].
    eapply K; [| exact H]. destruct I as [I1 I2]. rewrite E in I1.
    inversion I1; subst. split; assumption.
  - destruct (Regex.before st); [discriminate |]. eapply K; eauto.
  - destruct (Regex.rest st); [| discriminate]. eapply K; eauto.
  - destruct (xorb _ _); [| discriminate]. eapply K; eauto.
  - eapply IH1; [exact I | | exact H].
    intros st' m' I' H'. eapply IH2; eauto.
  - destruct (Regex.rmatch icase r1 st k) as [e |] eqn:E1.
    + injection H as <-. eapply IH1; eauto.
    + eapply IH2; eauto.
  - match type of H with
    | ?f (length (Regex.rest st)) st = Some m =>
        assert (Hs : forall n st0 m0, plain_position st0 ->
                       f n st0 = Some m0 -> plain_position m0)
    end.
    { clear H. induction n as [| n IHn]; intros st0 m0 I0 H0.
      - eapply K; eauto.
      - simpl in H0.
        match type of H0 with
        | match ?x with _ => _ end = _ => destruct x as [e |] eqn:E1
        end.
        + injection H0 as <-. eapply IH; [exact I0 | | exact E1].
          intros st' m' I' H'.
          cbv beta in H'.
          match type of H' with
          | (if ?c then _ else _) = _ => destruct c; [| discriminate]
          end.
          eapply IHn; eauto.
        + eapply K; eauto. }
    eapply Hs; eauto.
  - eapply IH; [exact I | | exact H].
    intros st' m' I' H'. eapply K; [| exact H'].
    destruct I as [I1 _], I' as [I1' _]. split; [exact I1' |].
    cbn [Regex.group1]. unfold Regex.consumed. apply plain_firstn, I1.
Qed.

Lemma match_at_plain (icase : bool) (r : Regex.regex)
  (st m : Regex.position) :
  plain (Regex.rest st) -> Regex.match_at icase r st = Some m ->
  plain_position m.
Proof.
  intros I H. unfold Regex.match_at in H.
  eapply rmatch_plain; [| | exact H].
  - split; [exact I | constructor].
  - intros st' m' I' [= <-]. exact I'.
Qed.

Lemma expand_plain (by_ : Regex.replacement) (m : Regex.position) :
  (forall s, by_ = Regex.Text s -> plain (JsString.chars s)) ->
  plain_position m -> plain (Regex.expand by_ m).
Proof.
  intros T [_ I]. destruct by_ as [s |]; cbn; [apply T; reflexivity | exact I].
Qed.

Lemma plain_app (a b : list ascii) : plain a -> plain b -> plain (a ++ b).
Proof. intros; apply Forall_app; split; assumption. Qed.

Lemma replace_from_plain (icase : bool) (r : Regex.regex)
  (by_ : Regex.replacement) :
  (forall s, by_ = Regex.Text s -> plain (JsString.chars s)) ->
  forall (n : nat) (st : Regex.position),
    plain (Regex.rest st) -> plain (Regex.replace_from n icase r by_ st).
Proof.
  intros T. induction n as [| n IH]; intros st I; cbn [Regex.replace_from];
    [exact I |].
  assert (Tail : plain match Regex.rest st with
                       | [] => []
                       | c :: tl =>
                           c :: Regex.replace_from n icase r by_
                                  (Regex.mkPosition (Some c) tl [])
                       end).
  { destruct (Regex.rest st) as [| c tl]; [constructor |].
    inversion I; subst. constructor; [assumption |]. apply IH. assumption. }
  destruct (Regex.match_at icase r st) as [m |] eqn:E; [| exact Tail].
  pose proof (match_at_plain icase r st m I E) as Pm.
  destruct (length (Regex.rest m) <? length (Regex.rest st))%nat;
    apply plain_app; try (apply expand_plain; assumption).
  - apply IH, Pm.
  - exact Tail.
Qed.

Lemma replace_all_plain (r : Regex.regex) (by_ : Regex.replacement)
  (s : string) :
  (forall t, by_ = Regex.Text t -> plain (JsString.chars t)) ->
  plain (JsString.chars s) ->
  plain (JsString.chars (Regex.replace_all r by_ s)).
Proof.
  intros T I. unfold Regex.replace_all. rewrite chars_str.
  apply replace_from_plain; assumption.
Qed.

Lemma replace_first_plain (icase : bool) (r : Regex.regex)
  (by_ : Regex.replacement) (s : string) :
  (forall t, by_ = Regex.Text t -> plain (JsString.chars t)) ->
  plain (JsString.chars s) ->
  plain (JsString.chars (Regex.replace_first icase r by_ s)).
Proof.
  intros T I. unfold Regex.replace_first. rewrite chars_str.
  generalize (@None ascii) as b. revert I.
  generalize (JsString.chars s) as l.
  induction l as [| c l IH]; intros I b; cbn [Regex.replace_first_from].
  - destruct (Regex.match_at icase r _) as [m |] eqn:E; [| constructor].
    pose proof (match_at_plain icase r (Regex.mkPosition b [] []) m I E)
      as Pm.
    apply plain_app; [apply expand_plain; assumption | apply Pm].
  - destruct (Regex.match_at icase r _) as [m |] eqn:E.
    + pose proof (match_at_plain icase r (Regex.mkPosition b (c :: l) [])
                    m I E) as Pm.
      apply plain_app; [apply expand_plain; assumption | apply Pm].
    + inversion I; subst. constructor; [assumption |]. apply IH. assumption.
Qed.

Lemma lower_char_not_upper (c : ascii) :
  JsString.between 65 90 (JsString.lower_char c) = false.
Proof.
  destruct c as [[] [] [] [] [] [] [] []]; vm_compute; reflexivity.
Qed.

(** Replacing the separators: every character that matches the class is
    replaced, the others stay. *)
Lemma replace_from_class (p : ascii -> bool) (t : string) :
  forall (l : list ascii) (n : nat) (b : option ascii) (g : list ascii),
    (length l < n)%nat ->
    Regex.replace_from n false (Regex.Cls p) (Regex.Text t)
      (Regex.mkPosition b l g) =
    flat_map (fun c => if p c then JsString.chars t else [c]) l.
Proof.
  induction l as [| c l IH]; intros n b g L; destruct n as [| n];
    try (cbn in L; lia); cbn [Regex.replace_from].
  - reflexivity.
  - unfold Regex.match_at. cbn [Regex.rmatch Regex.rest Regex.before
      Regex.group1 flat_map].
    destruct (p c).
    + cbn [Regex.rest length Regex.expand].
      destruct (Nat.ltb_spec (length l) (S (length l))); [| lia].
      rewrite IH by (cbn in L; lia). reflexivity.
    + cbn [app]. rewrite IH by (cbn in L; lia). reflexivity.
Qed.

Lemma separators_plain (s : string) :
  plain (JsString.chars
           (Regex.replace_all BoneAutoMapper.separators (Regex.Text "_")
              (JsString.toLowerCase s))).
Proof.
  unfold Regex.replace_all, BoneAutoMapper.separators.
  rewrite chars_str, replace_from_class by lia.
  unfold JsString.toLowerCase. rewrite chars_str.
  induction (JsString.chars s) as [| c l IH]; [constructor |].
  cbn [map flat_map]. apply plain_app; [| exact IH].
  destruct (_ || _) eqn:E.
  - repeat constructor.
  - repeat constructor. unfold plain_char.
    rewrite lower_char_not_upper, E. reflexivity.
Qed.


(** *** The underscores of a normalised name *)

Lemma same_char_underscore (c : ascii) :
  Regex.same_char false "_" c = is_underscore c.
Proof. unfold Regex.same_char, is_underscore. apply Ascii.eqb_sym. Qed.

Lemma star_underscores (l : list ascii) :
  forall (b : option ascii) (g : list ascii),
    exists b',
      Regex.rmatch false (Regex.Star (Regex.Chr "_"))
        (Regex.mkPosition b l g) Some =
      Some (Regex.mkPosition b' (drop_underscores l) g).
Proof.
  induction l as [| c l IH]; intros b g.
  - exists b. reflexivity.
  - cbn [Regex.rmatch Regex.rest length]. rewrite (same_char_underscore c).
    cbn [drop_underscores]. destruct (is_underscore c).
    + cbn [Regex.rest Regex.group1 length].
      destruct (Nat.ltb_spec (length l) (S (length l))); [| lia].
      destruct (IH (Some c) g) as [b' E].
      cbn [Regex.rmatch Regex.rest] in E. rewrite E.
      exists b'. reflexivity.
    + exists b. reflexivity.
Qed.

Lemma match_underscores (l : list ascii) (b : option ascii)
  (g : list ascii) :
  match l with
  | c1 :: c2 :: tl =>
      if is_underscore c1 && is_underscore c2 then
        exists b',
          Regex.match_at false BoneAutoMapper.underscores
            (Regex.mkPosition b l g) =
          Some (Regex.mkPosition b' (drop_underscores tl) [])
      else
        Regex.match_at false BoneAutoMapper.underscores
          (Regex.mkPosition b l g) = None
  | _ =>
      Regex.match_at false BoneAutoMapper.underscores
        (Regex.mkPosition b l g) = None
  end.
Proof.
  unfold Regex.match_at, BoneAutoMapper.underscores, Regex.Plus.
  cbn [Regex.before Regex.rest].
  destruct l as [| c1 [| c2 tl]].
  - reflexivity.
  - cbn [Regex.rmatch Regex.rest]. rewrite (same_char_underscore c1).
    destruct (is_underscore c1); reflexivity.
  - cbn [Regex.rmatch Regex.rest Regex.group1].
    rewrite (same_char_underscore c1), (same_char_underscore c2).
    destruct (is_underscore c1); [| reflexivity].
    destruct (is_underscore c2); [| reflexivity].
    cbn [andb].
    destruct (star_underscores tl (Some c2) []) as [b' E].
    cbn [Regex.rmatch] in E. exists b'. exact E.
Qed.

Lemma drop_underscores_starts (l : list ascii) :
  starts_underscore (drop_underscores l) = false.
Proof.
  induction l as [| c l IH]; [reflexivity |]. cbn [drop_underscores].
  destruct (is_underscore c) eqn:E; [exact IH |]. cbn. exact E.
Qed.

Lemma drop_underscores_length (l : list ascii) :
  (length (drop_underscores l) <= length l)%nat.
Proof.
  induction l as [| c l IH]; [reflexivity |]. cbn [drop_underscores].
  destruct (is_underscore c); cbn [length]; lia.
Qed.

Lemma collapse_no_double :
  forall (n : nat) (l : list ascii) (b : option ascii) (g : list ascii),
    (length l < n)%nat ->
    let out :=
      Regex.replace_from n false BoneAutoMapper.underscores
        (Regex.Text "_") (Regex.mkPosition b l g) in
    no_double out = true /\
    (starts_underscore l = false -> starts_underscore out = false).
Proof.
  induction n as [| n IH]; intros l b g L; [lia |].
  cbn zeta. cbn [Regex.replace_from Regex.rest].
  pose proof (match_underscores l b g) as M.
  destruct l as [| c1 [| c2 tl]].
  - rewrite M. split; reflexivity.
  - rewrite M.
    destruct n as [| n']; [cbn in L; lia |].
    cbn [Regex.replace_from Regex.rest].
    replace (Regex.match_at false BoneAutoMapper.underscores
               (Regex.mkPosition (Some c1) [] []))
      with (@None Regex.position)
      by (symmetry; apply (match_underscores [] (Some c1) [])).
    cbn. rewrite andb_false_r. split; [reflexivity | auto].
  - destruct (is_underscore c1 && is_underscore c2) eqn:E.
    + destruct M as [b' M]. rewrite M. cbn [Regex.rest Regex.expand].
      pose proof (drop_underscores_length tl) as Ld.
      destruct (Nat.ltb_spec (length (drop_underscores tl))
                  (length (c1 :: c2 :: tl))) as [_ | Ge];
        [| cbn [length] in Ge; lia].
      destruct (IH (drop_underscores tl) b' [])
        as [N S]; [cbn [length] in L; lia |].
      cbn zeta in N, S. specialize (S (drop_underscores_starts tl)).
      change (JsString.chars "_") with ["_"%char]. cbn [app].
      split.
      * cbn [no_double]. rewrite S, andb_false_r. exact N.
      * apply andb_prop in E. destruct E as [E _]. cbn. rewrite E.
        discriminate.
    + rewrite M.
      destruct (IH (c2 :: tl) (Some c1) [])
        as [N S]; [cbn [length] in L |- *; lia |].
      cbn zeta in N, S. split.
      * cbn [no_double]. rewrite N, andb_true_r.
        destruct (is_underscore c1) eqn:E1; [| reflexivity].
        cbn [andb] in E. rewrite S; [reflexivity |]. cbn. exact E.
      * cbn [starts_underscore]. auto.
Qed.

Lemma outer_underscore_inside :
  forall (l : list ascii) (n : nat) (b : ascii) (g : list ascii),
    (length l < n)%nat ->
    Regex.replace_from n false BoneAutoMapper.outer_underscore
      (Regex.Text "") (Regex.mkPosition (Some b) l g) = strip_end l.
Proof.
  induction l as [| c l IH]; intros n b g L; destruct n as [| n];
    try (cbn in L; lia); cbn [Regex.replace_from Regex.rest].
  - reflexivity.
  - unfold Regex.match_at, BoneAutoMapper.outer_underscore.
    cbn [Regex.rmatch Regex.before Regex.rest Regex.group1].
    rewrite (same_char_underscore c). cbn [strip_end].
    destruct l as [| c2 tl].
    + destruct (is_underscore c).
      * cbn [Regex.rest Regex.expand length app JsString.chars
             list_ascii_of_string].
        destruct n; reflexivity.
      * destruct n; reflexivity.
    + destruct (is_underscore c);
        cbn [Regex.rest Regex.before Regex.group1];
        fold BoneAutoMapper.outer_underscore;
        rewrite (IH n c []) by (cbn in *; lia); reflexivity.
Qed.

Lemma outer_underscore_start (l : list ascii) (n : nat) (g : list ascii) :
  (length l < n)%nat ->
  Regex.replace_from n false BoneAutoMapper.outer_underscore
    (Regex.Text "") (Regex.mkPosition None l g) =
  match l with
  | [] => []
  | c :: tl => if is_underscore c then strip_end tl else c :: strip_end tl
  end.
Proof.
  intros L. destruct n as [| n]; [lia |].
  cbn [Regex.replace_from Regex.rest].
  unfold Regex.match_at, BoneAutoMapper.outer_underscore.
  cbn [Regex.rmatch Regex.before Regex.rest Regex.group1].
  destruct l as [| c tl]; [reflexivity |].
  rewrite (same_char_underscore c).
  destruct (is_underscore c).
  - cbn [Regex.rest Regex.expand length app JsString.chars
         list_ascii_of_string].
    destruct (Nat.ltb_spec (length tl) (S (length tl))); [| lia].
    fold BoneAutoMapper.outer_underscore.
    apply outer_underscore_inside. cbn in L. lia.
  - fold BoneAutoMapper.outer_underscore.
    rewrite outer_underscore_inside by (cbn in L; lia). reflexivity.
Qed.

Lemma strip_end_starts (l : list ascii) :
  starts_underscore l = false -> starts_underscore (strip_end l) = false.
Proof.
  destruct l as [| c [| c2 tl]]; cbn; try reflexivity; intros E.
  - rewrite E. cbn. exact E.
  - exact E.
Qed.

Lemma strip_end_no_double (l : list ascii) :
  no_double l = true -> no_double (strip_end l) = true.
Proof.
  induction l as [| c l IH]; [reflexivity |].
  destruct l as [| c2 tl].
  - intros _. cbn [strip_end].
    destruct (is_underscore c) eqn:E; [reflexivity |].
    cbn [no_double starts_underscore]. rewrite E. reflexivity.
  - intros H. apply andb_prop in H. destruct H as [H1 H2].
    change (strip_end (c :: c2 :: tl)) with (c :: strip_end (c2 :: tl)).
    cbn [no_double]. rewrite (IH H2), andb_true_r.
    destruct (is_underscore c) eqn:E; [| reflexivity].
    cbn [andb] in *. apply negb_true_iff in H1.
    rewrite (strip_end_starts _ H1). reflexivity.
Qed.

Lemma strip_end_ends (l : list ascii) :
  no_double l = true -> ends_underscore (strip_end l) = false.
Proof.
  induction l as [| c l IH]; [reflexivity |].
  destruct l as [| c2 tl].
  - intros _. cbn. destruct (is_underscore c) eqn:E; [reflexivity |].
    cbn. exact E.
  - intros H. apply andb_prop in H. destruct H as [H1 H2].
    specialize (IH H2).
    change (strip_end (c :: c2 :: tl)) with (c :: strip_end (c2 :: tl)).
    destruct (strip_end (c2 :: tl)) as [| x xs] eqn:Es.
    + cbn. destruct tl as [| c3 tl'].
      * cbn in Es. destruct (is_underscore c2) eqn:E2; [| discriminate].
        cbn in H1. rewrite E2, andb_true_r in H1.
        apply negb_true_iff in H1. exact H1.
      * cbn in Es. discriminate.
    + exact IH.
Qed.

Lemma cons_strip_end_ends (c : ascii) (l : list ascii) :
  is_underscore c = false -> no_double l = true ->
  ends_underscore (c :: strip_end l) = false.
Proof.
  intros E H. pose proof (strip_end_ends l H) as S.
  destruct (strip_end l); [cbn; exact E | exact S].
Qed.

Lemma tidy_normalized (s : string) :
  tidy (JsString.chars
          (Regex.replace_all BoneAutoMapper.outer_underscore (Regex.Text "")
             (Regex.replace_all BoneAutoMapper.underscores (Regex.Text "_")
                s))).
Proof.
  unfold Regex.replace_all. rewrite !chars_str.
  destruct (collapse_no_double (S (length (JsString.chars s)))
              (JsString.chars s) None [] ltac:(lia)) as [N _].
  cbn zeta in N.
  set (l := Regex.replace_from _ false BoneAutoMapper.underscores _ _) in *.
  rewrite outer_underscore_start by lia.
  destruct l as [| c tl]; [repeat split |].
  apply andb_prop in N. destruct N as [N1 N2].
  destruct (is_underscore c) eqn:E.
  - cbn [andb] in N1. apply negb_true_iff in N1.
    split; [apply strip_end_no_double, N2 |].
    split; [apply strip_end_starts, N1 | apply strip_end_ends, N2].
  - split; [| split].
    + cbn [no_double]. rewrite E. cbn [andb negb].
      apply strip_end_no_double, N2.
    + cbn. exact E.
    + apply cons_strip_end_ends; assumption.
Qed.

(** X29.  The name that [normalize_bone_name] returns, whatever the bone
    name, the category and the side are, holds no upper-case letter, no
    [-], no [.] and no white space; it has no underscore at either end
    and no two underscores in a row.  So has the normalised name of the
    metadata of a bone. *)
Theorem normalized_name_is_plain (bone_name : string)
  (category : BoneCategory) (side : BoneSide) (parent : option string) :
  let normal (s : string) :=
    plain (JsString.chars s) /\ tidy (JsString.chars s) in
  normal (BoneAutoMapper.normalize_bone_name bone_name category side) /\
  normal (normalized_name
            (BoneAutoMapper.create_bone_metadata bone_name parent)).
Proof.
  intros normal.
  assert (Tidy : forall c s,
            tidy (JsString.chars
                    (BoneAutoMapper.normalize_bone_name bone_name c s))).
  { intros c s. unfold BoneAutoMapper.normalize_bone_name; cbv zeta.
    apply tidy_normalized. }
  assert (T : forall t by_,
            In by_ [Regex.Text ""; Regex.Text "_"; Regex.Text "thigh";
                    Regex.Text "calf"; Regex.Text "upperarm";
                    Regex.Text "forearm"; Regex.Dollar1] ->
            by_ = Regex.Text t -> plain (JsString.chars t)).
  { intros t by_ I E. subst by_.
    repeat (destruct I as [I | I];
            [try discriminate; injection I as <-;
             repeat constructor |]).
    destruct I. }
  assert (A : forall r by_ s,
            In by_ [Regex.Text ""; Regex.Text "_"; Regex.Text "thigh";
                    Regex.Text "calf"; Regex.Text "upperarm";
                    Regex.Text "forearm"; Regex.Dollar1] ->
            plain (JsString.chars s) ->
            plain (JsString.chars (Regex.replace_all r by_ s))).
  { intros r by_ s I. apply replace_all_plain. intros t. apply T, I. }
  assert (G : forall c s,
            plain (JsString.chars
                     (BoneAutoMapper.normalize_bone_name bone_name c s))).
  { intros c s. unfold BoneAutoMapper.normalize_bone_name; cbv zeta.
    apply A; [cbn; tauto |]. apply A; [cbn; tauto |].
    assert (S3 : plain (JsString.chars
               (Regex.replace_first true BoneAutoMapper.common_prefixes
                  (Regex.Text "")
                  (Regex.replace_all BoneAutoMapper.separators
                     (Regex.Text "_") (JsString.toLowerCase bone_name))))).
    { apply replace_first_plain; [| apply separators_plain].
      intros t [= <-]. constructor. }
    destruct (BoneAutoMapper.category_eqb c Hands);
      [| destruct (BoneAutoMapper.category_eqb c Legs);
         [| destruct (BoneAutoMapper.category_eqb c Arms)]];
      repeat (apply A; [cbn; tauto |]);
      (destruct (negb (BoneAutoMapper.side_eqb s Center) &&
                 negb (BoneAutoMapper.side_eqb s UnknownSide));
       [repeat (apply A; [cbn; tauto |]) |]); exact S3. }
  split; (split; [apply G | apply Tidy]).
Qed.

(** ** HumanChainConfig.ts and the table of MixamoMapper.ts *)

(** X30.  The two tables of chains list the same chains: the names of
    the chains of [mixamo_config] are those of [mesh2motion_config], in
    the same order, seventeen names that are all different, and a chain
    has as many bones in one table as in the other.  [BONE_MAP] sends
    each bone of a chain of [mesh2motion_config] to the bone at the same
    place in [mixamo_config], but for one bone: the tip of the left
    thumb, written [DEF-thumb04_tipL] in the chains and
    [DEF-thumb_04_tipL] in [BONE_MAP], which has no entry for the name of
    the chains. *)
Theorem chain_tables_agree (c : nat) (chain : string) (ms : list string) :
  nth_error HumanChainConfig.mesh2motion_config c = Some (chain, ms) ->
  (exists xs,
     nth_error HumanChainConfig.mixamo_config c = Some (chain, xs) /\
     length xs = length ms /\
     forall i s, nth_error ms i = Some s ->
       s <> "DEF-thumb04_tipL"%string ->
       exists t, nth_error xs i = Some t /\
                 MixamoMapper.BONE_MAP_get s = PropString t) /\
  map fst HumanChainConfig.mixamo_config =
    map fst HumanChainConfig.mesh2motion_config /\
  map (fun e => length (snd e)) HumanChainConfig.mixamo_config =
    map (fun e => length (snd e)) HumanChainConfig.mesh2motion_config /\
  length HumanChainConfig.mesh2motion_config = 17%nat /\
  NoDup (map fst HumanChainConfig.mesh2motion_config) /\
  (forall c' chain' xs',
     nth_error HumanChainConfig.mixamo_config c' = Some (chain', xs') ->
     exists ms',
       nth_error HumanChainConfig.mesh2motion_config c' =
         Some (chain', ms') /\
       length ms' = length xs') /\
  MixamoMapper.BONE_MAP_get "DEF-thumb04_tipL" = PropUndefined /\
  MixamoMapper.BONE_MAP_get "DEF-thumb_04_tipL" =
    PropString "mixamorigLeftHandThumb4".
Proof.
  intros H.
  split; [| split; [reflexivity |]; split; [reflexivity |];
            split; [reflexivity |];
            split; [apply distinct_NoDup; vm_compute; reflexivity |];
            split; [| split; vm_compute; reflexivity]].
  - do 17 (destruct c as [| c];
           [cbn in H; injection H as <- <-; eexists;
            split; [reflexivity |]; split; [reflexivity |];
            intros i s Hs Ns;
            do 4 (destruct i as [| i];
                  [cbn in Hs;
                   first [ discriminate
                         | injection Hs as <-;
                           first [ exfalso; apply Ns; reflexivity
                                 | eexists; split;
                                   [reflexivity | vm_compute; reflexivity] ] ]
                  |]);
            cbn in Hs; destruct i; discriminate |]).
    cbn in H. destruct c; discriminate.
  - intros c' chain' xs' H'.
    do 17 (destruct c' as [| c'];
           [cbn in H'; injection H' as <- <-; eexists;
            split; reflexivity |]).
    cbn in H'. destruct c'; discriminate.
Qed.

Lemma chain_tables_agree_witness :
  nth_error HumanChainConfig.mesh2motion_config 1 =
    Some ("spine", ["DEF-spine001"; "DEF-spine002"; "DEF-spine003"])%string /\
  exists xs,
    nth_error HumanChainConfig.mixamo_config 1 = Some ("spine"%string, xs) /\
    length xs = 3%nat.
Proof.
  split; [reflexivity |].
  destruct (proj1 (chain_tables_agree 1 "spine"
                     ["DEF-spine001"; "DEF-spine002"; "DEF-spine003"]%string
                     eq_refl)) as (xs & H & L & _).
  exists xs. split; [exact H | exact L].
Defined.
